(** * Trace differ and path stamping of the NSM control-plane SDK

    A shallow embedding of the trace package ([Diff], [mapDiff],
    [putToMappDif], [diffField], [logRequest], [logResponse]) over a
    value-level model of [protoreflect] messages, followed by a model of
    the path-segment stamping that the interdomain tests observe.

    Go maps are [gmap]s; the order in which [range] visits a map is a
    parameter [rangeOrder], any permutation of the entries.  [Diff] and
    [diffField] recurse through nested messages and carry a [fuel] that
    bounds the nesting depth. *)

From Stdlib Require Import Floats.SpecFloat Strings.Ascii.
From stdpp Require Import gmap strings list fin_maps pretty.

Local Open Scope string_scope.

(** * Part I: the embedding *)

(** ** Outcomes of a Go call *)

(** A Go call either returns, or panics; [OutOfFuel] is the recursion
    budget of the embedding and [NotModelled] marks library behaviour that
    depends on pointer identity. *)
Inductive fault := Panic | OutOfFuel | NotModelled.

Inductive outcome (A : Type) :=
  | Done (a : A)
  | Fault (f : fault).
Arguments Done {A} a.
Arguments Fault {A} f.

Definition obind {A B} (x : outcome A) (k : A → outcome B) : outcome B :=
  match x with
  | Done a => k a
  | Fault f => Fault f
  end.

Notation "x ←! e1 ; e2" := (obind e1 (λ x, e2))
  (at level 20, e1 at level 100, e2 at level 200, right associativity,
   format "x  ←!  e1 ;  '/' e2").
Notation "' p ←! e1 ; e2" := (obind e1 (λ p, e2))
  (at level 20, p pattern, e1 at level 100, e2 at level 200,
   right associativity, format "' p  ←!  e1 ;  '/' e2").

(** [for _, a := range l { s = f(s, a) }] where the body may panic. *)
Fixpoint forEach {A S} (f : S → A → outcome S) (l : list A) (s : S) : outcome S :=
  match l with
  | [] => Done s
  | a :: l' => s' ←! f s a; forEach f l' s'
  end.

(** ** protoreflect data model *)

Inductive KindT :=
  | BoolKind | EnumKind | Int32Kind | Sint32Kind | Uint32Kind
  | Int64Kind | Sint64Kind | Uint64Kind | Sfixed32Kind | Fixed32Kind
  | FloatKind | Sfixed64Kind | Fixed64Kind | DoubleKind
  | StringKind | BytesKind | MessageKind | GroupKind.

Inductive CardinalityT := Optional | Required | Repeated.

Global Instance KindT_eq_dec : EqDecision KindT.
Proof. solve_decision. Defined.
Global Instance CardinalityT_eq_dec : EqDecision CardinalityT.
Proof. solve_decision. Defined.

(** What [Diff] reads of a [protoreflect.FieldDescriptor]. *)
Record FieldDescriptor := {
  Name : string;
  Cardinality : CardinalityT;
  Kind : KindT;
}.

Global Instance FieldDescriptor_eq_dec : EqDecision FieldDescriptor.
Proof. solve_decision. Defined.

(** The Go values [protoreflect.Value.Interface] yields for scalar kinds:
    bool, int32, int64, uint32, uint64, float32, float64, string, []byte
    (nil is [None]) and [protoreflect.EnumNumber].  Floats are IEEE 754
    values in canonical [spec_float] form. *)
Inductive Scalar :=
  | SBool (b : bool)
  | SInt32 (z : Z)
  | SInt64 (z : Z)
  | SUint32 (z : Z)
  | SUint64 (z : Z)
  | SFloat32 (f : spec_float)
  | SFloat64 (f : spec_float)
  | SString (s : string)
  | SBytes (b : option (list Byte.byte))
  | SEnum (n : Z).

(** A message carries its descriptor's fields in declaration order, each
    with the value [Get] returns for it (the default when unset, an empty
    message for a message field).  A message is thus the finite tree of
    what [Get] returns; a message of a recursive type, whose unset message
    fields unfold without end, has none.  A [protoreflect.List] is its
    elements; a [protoreflect.Map] is its entries in the order [Range]
    visits them. *)
Local Unset Elimination Schemes.
Inductive Value :=
  | VScalar (s : Scalar)
  | VMessage (m : Message)
  | VList (l : list Value)
  | VMap (l : list (Scalar * Value))
with Message :=
  | MkMessage (FullName : string) (fields : list (FieldDescriptor * Value)).
Local Set Elimination Schemes.

Definition FullName (m : Message) : string :=
  match m with MkMessage n _ => n end.
Definition Message_fields (m : Message) : list (FieldDescriptor * Value) :=
  match m with MkMessage _ fs => fs end.

(** [m.Descriptor().Fields()] *)
Definition Descriptor_Fields (m : Message) : list FieldDescriptor :=
  (Message_fields m).*1.

(** [m.Get(fd)]: panics when [fd] is not a field of [m]'s descriptor. *)
Definition Message_Get (m : Message) (fd : FieldDescriptor) : outcome Value :=
  match find (λ p, bool_decide (p.1 = fd)) (Message_fields m) with
  | Some p => Done p.2
  | None => Fault Panic
  end.

(** The [interface{}] values stored in a diff. *)
Local Unset Elimination Schemes.
Inductive Interface :=
  | INil
  | IString (s : string)
  | IScalar (s : Scalar)
  | IMessage (m : Message)
  | IMap (d : gmap string Interface).
Local Set Elimination Schemes.

(** ** Library functions the differ calls *)

Definition bytes_eqb (a b : list Byte.byte) : bool :=
  bool_decide (Byte.to_N <$> a = Byte.to_N <$> b).

(** [reflect.DeepEqual] on two scalars boxed in [interface{}]: different
    dynamic types are unequal, floats compare with [==] (a NaN is unequal
    to itself, zeros of either sign are equal), a nil slice is unequal to
    an empty one. *)
Definition Scalar_DeepEqual (x y : Scalar) : bool :=
  match x, y with
  | SBool a, SBool b => bool_decide (a = b)
  | SInt32 a, SInt32 b => bool_decide (a = b)
  | SInt64 a, SInt64 b => bool_decide (a = b)
  | SUint32 a, SUint32 b => bool_decide (a = b)
  | SUint64 a, SUint64 b => bool_decide (a = b)
  | SFloat32 a, SFloat32 b => SFeqb a b
  | SFloat64 a, SFloat64 b => SFeqb a b
  | SString a, SString b => bool_decide (a = b)
  | SBytes None, SBytes None => true
  | SBytes (Some a), SBytes (Some b) => bytes_eqb a b
  | SEnum a, SEnum b => bool_decide (a = b)
  | _, _ => false
  end.

(** [reflect.DeepEqual(oldValue, newValue)] as [diffField] reaches it.  On
    messages, lists and maps it compares implementation pointers. *)
Definition DeepEqual (x y : Value) : outcome bool :=
  match x, y with
  | VScalar a, VScalar b => Done (Scalar_DeepEqual a b)
  | _, _ => Fault NotModelled
  end.

(** [strconv.Itoa] *)
Definition Itoa (i : Z) : string := pretty i.

Section differ.
(** [strconv]'s shortest decimal rendering of a float of the given bit
    size, and the order in which one [range] over a Go map visits its
    entries: any permutation. *)
Variable formatFloat : nat → spec_float → string.
Variable rangeOrder : list (string * Value) → list (string * Value).

(** [fmt.Sprint] of a scalar. *)
Definition Sprint (x : Scalar) : string :=
  match x with
  | SBool b => if b then "true" else "false"
  | SInt32 z | SInt64 z | SUint32 z | SUint64 z | SEnum z => pretty z
  | SFloat32 f => formatFloat 32 f
  | SFloat64 f => formatFloat 64 f
  | SString s => s
  | SBytes b =>
      "[" +:+ String.concat " " ((λ c, pretty (Byte.to_N c)) <$> default [] b) +:+ "]"
  end.

(** [protoreflect.Value.String] (also [MapKey.String]): the string
    itself for a string, [fmt.Sprint] of the Go value otherwise. *)
Definition Scalar_String (x : Scalar) : string :=
  match x with
  | SString s => s
  | _ => Sprint x
  end.

(** [putToMappDif] *)
Definition putToMappDif (value : Value) (resultMap : gmap string Interface)
    (key : string) : outcome (gmap string Interface) :=
  match value with
  | VMessage msg => Done (<[key := IMessage msg]> resultMap)
  | VScalar x => Done (<[key := IString (Scalar_String x)]> resultMap)
  | VList _ | VMap _ => Fault NotModelled
  end.

(** [diffField], over the [Diff] it recurses into. *)
Definition diffField_ (Diff : Message → Message → outcome (gmap string Interface * bool))
    (descriptor : FieldDescriptor) (oldValue newValue : Value)
    : outcome (Interface * bool) :=
  let primitive :=
    eq ←! DeepEqual oldValue newValue;
    if negb eq then
      match newValue with
      | VScalar x => Done (IScalar x, true)
      | _ => Fault NotModelled
      end
    else Done (INil, false) in
  if bool_decide (Kind descriptor = MessageKind) then
    match newValue with
    | VMessage newMsg =>
        match oldValue with
        | VMessage oldMsg =>
            '(fieldDiff, childFieldChanged) ←! Diff oldMsg newMsg;
            if childFieldChanged : bool then Done (IMap fieldDiff, true)
            else Done (IString "=", false)
        | _ => Done (IMessage newMsg, true)
        end
    | _ =>
        match oldValue with
        | VMessage oldMsg => Done (IMessage oldMsg, true)
        | _ => primitive
        end
    end
  else primitive.

(** [mapDiff], over the [diffField] it calls. *)
Definition mapDiff_ (diffField : FieldDescriptor → Value → Value → outcome (Interface * bool))
    (descriptor : FieldDescriptor) (originMap targetMap : gmap string Value)
    : outcome (Interface * bool) :=
  st ←! forEach (λ '(resultMap, lchanged) '(key, value),
      match originMap !! key with
      | None =>
          resultMap ←! putToMappDif value resultMap ("+" +:+ key);
          Done (resultMap, S lchanged)
      | Some oldVal =>
          '(val, diff) ←! diffField descriptor oldVal value;
          if diff : bool then Done (<[key := val]> resultMap, S lchanged)
          else Done (resultMap, lchanged)
      end) (rangeOrder (map_to_list targetMap)) (∅, 0);
  '(resultMap, lchanged) ←! forEach (λ '(resultMap, lchanged) '(key, value),
      match targetMap !! key with
      | None =>
          resultMap ←! putToMappDif value resultMap ("-" +:+ key);
          Done (resultMap, S lchanged)
      | Some _ => Done (resultMap, lchanged)
      end) (rangeOrder (map_to_list originMap)) st;
  Done (IMap resultMap, bool_decide (0 < lchanged)).

(** [for i := 0; i < l.Len(); i++ { m[strconv.Itoa(i)] = l.Get(i) }],
    started at index [i]. *)
Fixpoint listToMap (i : nat) (l : list Value) (m : gmap string Value)
    : gmap string Value :=
  match l with
  | [] => m
  | v :: l' => listToMap (S i) l' (<[Itoa (Z.of_nat i) := v]> m)
  end.

(** [mp.Range(func(key, value) bool { m[key.String()] = value; return true })] *)
Definition rangeToMap (mp : list (Scalar * Value)) : gmap string Value :=
  foldl (λ m kv, <[Scalar_String kv.1 := kv.2]> m) ∅ mp.

(** One iteration of the loop over [fields] in [Diff]. *)
Definition Diff_field
    (mapDiff diffField : FieldDescriptor → _ → _ → outcome (Interface * bool))
    (oldMessage newMessage : Message)
    (st : gmap string Interface * nat) (descriptor : FieldDescriptor)
    : outcome (gmap string Interface * nat) :=
  let '(diffMessage, changes) := st in
  newValue ←! Message_Get newMessage descriptor;
  oldValue ←! Message_Get oldMessage descriptor;
  if bool_decide (Cardinality descriptor = Repeated) then
    '(originMap, targetMap) ←!
      match newValue with
      | VList val =>
          match oldValue with
          | VList oldList => Done (listToMap 0 oldList ∅, listToMap 0 val ∅)
          | _ => Fault Panic
          end
      | VMap val =>
          match oldValue with
          | VMap oldMap => Done (rangeToMap oldMap, rangeToMap val)
          | _ => Fault Panic
          end
      | _ => Done (∅, ∅)
      end;
    '(resultMap, mapChanged) ←! mapDiff descriptor originMap targetMap;
    if mapChanged : bool then Done (<[Name descriptor := resultMap]> diffMessage, S changes)
    else Done (diffMessage, changes)
  else
    '(val, diff) ←! diffField descriptor oldValue newValue;
    if diff : bool then Done (<[Name descriptor := val]> diffMessage, S changes)
    else Done (diffMessage, changes).

(** [Diff]: [fuel] bounds the nesting depth of messages it descends. *)
Fixpoint Diff (fuel : nat) (oldMessage newMessage : Message)
    : outcome (gmap string Interface * bool) :=
  match fuel with
  | 0 => Fault OutOfFuel
  | S fuel' =>
      let diffField := diffField_ (Diff fuel') in
      let mapDiff := λ d o t, mapDiff_ diffField d o t in
      '(diffMessage, changes) ←!
        forEach (Diff_field mapDiff diffField oldMessage newMessage)
                (Descriptor_Fields newMessage) (∅, 0);
      Done (diffMessage, bool_decide (0 < changes))
  end.

Definition diffField (fuel : nat) := diffField_ (Diff fuel).
Definition mapDiff (fuel : nat) := mapDiff_ (diffField fuel).

End differ.

(** ** The trace stage: [logRequest] and [logResponse] *)

(** The per-connection record [trace(ctx)] returns. *)
Record traceInfo := {
  Request : option Message;
  Response : option Message;
}.

(** One [Debugf] call: the format string and its argument. *)
Inductive logArg :=
  | ArgString (s : string)
  | ArgMessage (m : Message).

Record logLine := Debugf {
  format : string;
  arg : logArg;
}.

(** [proto.Clone]: messages are values here, so the deep copy is the
    message. *)
Definition protoClone (m : Message) : Message := m.

Section trace.
(** [proto.Equal] and [cmp.Diff(_, _, protocmp.Transform())], both of
    libraries outside this repository. *)
Variable protoEqual : option Message → Message → bool.
Variable cmpDiff : option Message → Message → string.

(** [logRequest]: [ctx] is what [trace(ctx)] finds, [None] when the
    context carries no trace record; the result is the record after the
    call and the lines logged. *)
Definition logRequest (ctx : option traceInfo) (request : Message)
    : option traceInfo * list logLine :=
  match ctx with
  | Some connInfo =>
      if negb (protoEqual (Request connInfo) request) then
        let logged :=
          match Request connInfo with
          | Some stored =>
              if bool_decide (FullName stored = FullName request) then
                let requestDiff := cmpDiff (Request connInfo) request in
                if bool_decide (requestDiff ≠ "")
                then [Debugf "request-diff: %v" (ArgString requestDiff)]
                else []
              else [Debugf "request: %v" (ArgMessage request)]
          | None => [Debugf "request: %v" (ArgMessage request)]
          end in
        (Some {| Request := Some (protoClone request); Response := Response connInfo |},
         logged)
      else (ctx, [])
  | None => (ctx, [])
  end.

(** [logResponse] *)
Definition logResponse (ctx : option traceInfo) (response : Message)
    : option traceInfo * list logLine :=
  match ctx with
  | Some connInfo =>
      if negb (protoEqual (Response connInfo) response) then
        let logged :=
          match Response connInfo with
          | Some _ =>
              let responseDiff := cmpDiff (Request connInfo) response in
              if bool_decide (responseDiff ≠ "")
              then [Debugf "response-diff: %f" (ArgString responseDiff)]
              else []
          | None => [Debugf "response: %f" (ArgMessage response)]
          end in
        (Some {| Request := Request connInfo; Response := Some (protoClone response) |},
         logged)
      else (ctx, [])
  | None => (ctx, [])
  end.

End trace.

(** ** Path segments stamped along a route *)

(** Modelled from the spec: the [PathSegment] and [Connection] messages of
    the API, which is not among the sources: a segment's name, token and
    expiry (its id plays no part here), a connection's id, network service
    and path. *)
Record PathSegment := {
  segment_name : string;
  token : string;
  expires_at : nat;
}.

Record Connection := {
  conn_id : string;
  network_service : string;
  path_segments : list PathSegment;
}.

(** The chain elements of a cluster, named as the interdomain tests name
    them. *)
Definition nsmgr (cluster : nat) : string := "nsmgr" +:+ pretty cluster.
Definition forwarder (cluster : nat) : string := "forwarder" +:+ pretty cluster.
Definition nsmgrProxy (cluster : nat) : string := "nsmgr-proxy" +:+ pretty cluster.
Definition endpointName (cluster : nat) : string := "endpoint-" +:+ pretty cluster.
Definition endpointClient (cluster : nat) : string := "endpoint-client-" +:+ pretty cluster.

(** The elements a request visits inside one cluster,
    [nsc -> nsmgr -> forwarder -> nsmgr -> nse]. *)
Definition localRoute (client : string) (cluster : nat) (endpoint : string) : list string :=
  [client; nsmgr cluster; forwarder cluster; nsmgr cluster; endpoint].

(** ... and from a client in one cluster to an endpoint in another, as
    [TestNSMGR_InterdomainUseCase] lists them:
    [nsc -> nsmgr1 -> forwarder1 -> nsmgr1 -> nsmgr-proxy1 -> nsmgr-proxy2
     -> nsmgr2 -> forwarder2 -> nsmgr2 -> nse]. *)
Definition interdomainRoute (client : string) (cluster remote : nat) (endpoint : string)
    : list string :=
  [client; nsmgr cluster; forwarder cluster; nsmgr cluster; nsmgrProxy cluster;
   nsmgrProxy remote; nsmgr remote; forwarder remote; nsmgr remote; endpoint].

(** Modelled from the spec: the interdomain resolution of the NSMgr-Proxy,
    which is not among the sources.  The route of a request for a service
    of [domain], made in [cluster], is local when the domain is absent or
    "equals the local domain", and goes through the two proxies
    otherwise. *)
Definition routeTo (client : string) (cluster : nat) (domain : option nat)
    (endpoint : string) : list string :=
  match domain with
  | Some remote =>
      if bool_decide (remote = cluster) then localRoute client cluster endpoint
      else interdomainRoute client cluster remote endpoint
  | None => localRoute client cluster endpoint
  end.

(** The pass-through chain of [Test_Interdomain_PassThroughUsecase]: the
    endpoint of cluster [i] re-requests, as a client, the endpoint of
    cluster [i - 1] ("path length to first endpoint is 5, path length from
    NSE client to other remote endpoint is 10"). *)
Fixpoint passThroughLegs (i : nat) : list string :=
  match i with
  | 0 => []
  | S j =>
      (interdomainRoute (endpointClient (S j)) (S j) j (endpointName j) ++
       passThroughLegs j)%list
  end.

Definition passThroughRoute (clusters : nat) : list string :=
  (localRoute "nsc" (clusters - 1) (endpointName (clusters - 1)) ++
   passThroughLegs (clusters - 1))%list.

Section path.
(** The token collaborator: a token and its expiry for a chain element at
    a time. *)
Variable generate : string → nat → string * nat.

(** Modelled from the spec: the segment a chain element signs, "each stage
    that appends a path segment uses the token generator to sign its
    segment". *)
Definition signed (name : string) (now : nat) : PathSegment :=
  {| segment_name := name; token := (generate name now).1;
     expires_at := (generate name now).2 |}.

(** Modelled from the spec: how a chain element stamps the path; the
    [updatepath] element and the chains that use it are not among the
    sources.  "Each segment corresponds to one stage that signed the
    connection", "segments are appended left-to-right as the request
    descends", and each stage "validates that its expected segment
    exists": the element at [position] of the route re-signs its segment
    when the path already has one there, appends it when the path ends
    there, and fails otherwise. *)
Definition stamp (now : nat) (name : string) (position : nat)
    (segments : list PathSegment) : option (list PathSegment) :=
  match segments !! position with
  | Some s =>
      if bool_decide (segment_name s = name)
      then Some (<[position := signed name now]> segments)
      else None
  | None =>
      if bool_decide (position = length segments)
      then Some (segments ++ [signed name now])%list
      else None
  end.

(** Modelled from the spec: a request descends the chain elements of its
    route in order. *)
Fixpoint traverse (now : nat) (route : list string) (position : nat)
    (segments : list PathSegment) : option (list PathSegment) :=
  match route with
  | [] => Some segments
  | name :: rest =>
      segments' ← stamp now name position segments;
      traverse now rest (S position) segments'
  end.

(** Modelled from the spec: [Request] along a route; the connection keeps
    its id and service and returns with the stamped path. *)
Definition pathRequest (now : nat) (route : list string) (conn : Connection)
    : option Connection :=
  segments ← traverse now route 0 (path_segments conn);
  Some {| conn_id := conn_id conn; network_service := network_service conn;
          path_segments := segments |}.

End path.

(** * Part II: the vocabulary of the properties *)

(** ** Shape of the messages the differ is given *)

(** Nesting depth of messages: the recursion depth [Diff] needs. *)
Fixpoint Value_depth (v : Value) : nat :=
  match v with
  | VScalar _ => 0
  | VMessage m => Message_depth m
  | VList l => foldr (λ x n, Value_depth x `max` n) 0 l
  | VMap l => foldr (λ kv n, (match kv with (_, x) => Value_depth x end) `max` n) 0 l
  end
with Message_depth (m : Message) : nat :=
  match m with
  | MkMessage _ fs =>
      S (foldr (λ fv n, (match fv with (_, x) => Value_depth x end) `max` n) 0 fs)
  end.

Definition isNaN (f : spec_float) : bool :=
  match f with S754_nan => true | _ => false end.

Definition Scalar_isNaN (x : Scalar) : bool :=
  match x with
  | SFloat32 f | SFloat64 f => isNaN f
  | _ => false
  end.

(** No floating-point field, list element or map value is a NaN, at any
    depth. *)
Fixpoint Value_nanFree (v : Value) : bool :=
  match v with
  | VScalar x => negb (Scalar_isNaN x)
  | VMessage m => Message_nanFree m
  | VList l => forallb Value_nanFree l
  | VMap l => forallb (λ kv, match kv with (_, x) => Value_nanFree x end) l
  end
with Message_nanFree (m : Message) : bool :=
  match m with
  | MkMessage _ fs => forallb (λ fv, match fv with (_, x) => Value_nanFree x end) fs
  end.

(** Values agree with their descriptors: a repeated field holds a list
    or a map whose elements are scalars or messages, any other field a
    scalar or a message; messages occur only under [MessageKind] (proto2
    groups are left out); field names are unique within a message. *)
Fixpoint Value_wf (fd : FieldDescriptor) (elem : bool) (v : Value) : bool :=
  match v with
  | VScalar _ => elem
  | VMessage m => elem && bool_decide (Kind fd = MessageKind) && Message_wf m
  | VList l => negb elem && forallb (Value_wf fd true) l
  | VMap l => negb elem && forallb (λ kv, match kv with (_, x) => Value_wf fd true x end) l
  end
with Message_wf (m : Message) : bool :=
  match m with
  | MkMessage _ fs =>
      bool_decide (NoDup (Name <$> fs.*1)) &&
      forallb (λ fv, match fv with
                     | (fd, x) =>
                         Value_wf fd (negb (bool_decide (Cardinality fd = Repeated))) x
                     end) fs
  end.

(** Two values of one field type, two messages of one message type. *)
Fixpoint Value_sameType (x y : Value) : bool :=
  match x, y with
  | VScalar _, VScalar _ => true
  | VMessage a, VMessage b => Message_sameType a b
  | VList la, VList lb => forallb (λ x, forallb (Value_sameType x) lb) la
  | VMap la, VMap lb =>
      forallb (λ kx, match kx with
                     | (_, x) => forallb (λ ky, Value_sameType x ky.2) lb
                     end) la
  | _, _ => false
  end
with Message_sameType (a b : Message) : bool :=
  match a with
  | MkMessage na fa =>
      bool_decide (na = FullName b) &&
      (fix go (fa : list (FieldDescriptor * Value)) (fb : list (FieldDescriptor * Value)) : bool :=
         match fa, fb with
         | [], [] => true
         | (da, va) :: fa', (db, vb) :: fb' =>
             bool_decide (da = db) && Value_sameType va vb && go fa' fb'
         | _, _ => false
         end) fa (Message_fields b)
  end.

Fixpoint fields_sameType (fa fb : list (FieldDescriptor * Value)) : bool :=
  match fa, fb with
  | [], [] => true
  | (da, va) :: fa', (db, vb) :: fb' =>
      bool_decide (da = db) && Value_sameType va vb && fields_sameType fa' fb'
  | _, _ => false
  end.

(** Scalars and messages: what a list or a map holds. *)
Definition isElem (v : Value) : bool :=
  match v with
  | VScalar _ | VMessage _ => true
  | VList _ | VMap _ => false
  end.

(** ** Scalars: [reflect.DeepEqual] against equality of values *)

(** The value a scalar denotes: the two floating-point zeros are one
    number. *)
Definition float_value (f : spec_float) : spec_float :=
  match f with
  | S754_zero _ => S754_zero false
  | _ => f
  end.

Definition Scalar_value (x : Scalar) : Scalar :=
  match x with
  | SFloat32 f => SFloat32 (float_value f)
  | SFloat64 f => SFloat64 (float_value f)
  | _ => x
  end.

(** ** Loops that write optional entries into a map *)

Definition isDone {A} (o : outcome A) : Prop := ∃ a, o = Done a.

Definition fromDone {A} (d : A) (o : outcome A) : A :=
  match o with Done a => a | Fault _ => d end.

(** One assignment [resultMap[k] = x] together with its [changed++]. *)
Definition write (st : gmap string Interface * nat) (kx : string * Interface)
    : gmap string Interface * nat :=
  (<[kx.1 := kx.2]> st.1, S st.2).

(** What one iteration does to [(resultMap, changed)]: nothing, or one
    write. *)
Definition put (st : gmap string Interface * nat) (w : option (string * Interface))
    : gmap string Interface * nat :=
  match w with
  | Some kx => write st kx
  | None => st
  end.

(** ** The writes of [mapDiff] and of [Diff] *)

Section writes.
Variable formatFloat : nat → spec_float → string.
Variable rangeOrder : list (string * Value) → list (string * Value).
Variable df : FieldDescriptor → Value → Value → outcome (Interface * bool).
Variable descriptor : FieldDescriptor.
Variables originMap targetMap : gmap string Value.

(** The entry [putToMappDif] stores for an element. *)
Definition stored (value : Value) : Interface :=
  match value with
  | VMessage msg => IMessage msg
  | VScalar x => IString (Scalar_String formatFloat x)
  | VList _ | VMap _ => INil
  end.

(** The write of the first loop for an entry of [targetMap], and of the
    second loop for an entry of [originMap]. *)
Definition targetAct (kv : string * Value) : outcome (option (string * Interface)) :=
  match originMap !! kv.1 with
  | None =>
      if isElem kv.2 then Done (Some ("+" +:+ kv.1, stored kv.2))
      else Fault NotModelled
  | Some oldVal =>
      '(val, diff) ←! df descriptor oldVal kv.2;
      Done (if diff : bool then Some (kv.1, val) else None)
  end.

Definition originAct (kv : string * Value) : outcome (option (string * Interface)) :=
  match targetMap !! kv.1 with
  | None =>
      if isElem kv.2 then Done (Some ("-" +:+ kv.1, stored kv.2))
      else Fault NotModelled
  | Some _ => Done None
  end.

Definition mapWrites : list (string * Interface) :=
  omap (fromDone None ∘ targetAct) (rangeOrder (map_to_list targetMap)) ++
  omap (fromDone None ∘ originAct) (rangeOrder (map_to_list originMap)).

(** No key present in both maps is spelled like the marker of an added
    or of a removed key. *)
Definition no_collision : Prop :=
  ∀ k k', is_Some (originMap !! k) → is_Some (targetMap !! k) →
    (originMap !! k' = None → is_Some (targetMap !! k') → k ≠ "+" +:+ k') ∧
    (targetMap !! k' = None → is_Some (originMap !! k') → k ≠ "-" +:+ k').

(** The two string-keyed maps [Diff] builds for a repeated field. *)
Definition fieldMaps (oldValue newValue : Value)
    : outcome (gmap string Value * gmap string Value) :=
  match newValue with
  | VList val =>
      match oldValue with
      | VList oldList => Done (listToMap 0 oldList ∅, listToMap 0 val ∅)
      | _ => Fault Panic
      end
  | VMap val =>
      match oldValue with
      | VMap oldMap => Done (rangeToMap formatFloat oldMap, rangeToMap formatFloat val)
      | _ => Fault Panic
      end
  | _ => Done (∅, ∅)
  end.

(** The write one iteration of the loop over [fields] makes. *)
Definition fieldAct (n : nat) (a b : Message) (fd : FieldDescriptor)
    : outcome (option (string * Interface)) :=
  newValue ←! Message_Get b fd;
  oldValue ←! Message_Get a fd;
  if bool_decide (Cardinality fd = Repeated) then
    '(originMap, targetMap) ←! fieldMaps oldValue newValue;
    '(resultMap, mapChanged) ←! mapDiff formatFloat rangeOrder n fd originMap targetMap;
    Done (if mapChanged : bool then Some (Name fd, resultMap) else None)
  else
    '(val, diff) ←! diffField formatFloat rangeOrder n fd oldValue newValue;
    Done (if diff : bool then Some (Name fd, val) else None).

Definition DiffWrites (n : nat) (a b : Message) : list (string * Interface) :=
  omap (fromDone None ∘ fieldAct n a b) (Descriptor_Fields b).

Definition same_ok (n : nat) : Prop :=
  ∀ m, Message_wf m = true → Message_nanFree m = true → (Message_depth m ≤ n)%nat →
       Diff formatFloat rangeOrder n m m = Done (∅, false).

Definition total_ok (n : nat) : Prop :=
  ∀ a b, Message_wf a = true → Message_wf b = true → Message_sameType a b = true →
         (Message_depth b ≤ n)%nat → isDone (Diff formatFloat rangeOrder n a b).

(** What the result of [mapDiff] holds under each key. *)
Definition per_key (n : nat) (fd : FieldDescriptor)
    (originMap targetMap : gmap string Value) (r : gmap string Interface) : Prop :=
  (∀ k v, targetMap !! k = Some v → originMap !! k = None →
     r !! ("+" +:+ k) = Some (stored v)) ∧
  (∀ k v, originMap !! k = Some v → targetMap !! k = None →
     r !! ("-" +:+ k) = Some (stored v)) ∧
  (∀ k o v, originMap !! k = Some o → targetMap !! k = Some v →
     r !! k = match diffField formatFloat rangeOrder n fd o v with
              | Done (val, true) => Some val
              | _ => None
              end) ∧
  (∀ key x, r !! key = Some x →
     (∃ k v, targetMap !! k = Some v ∧ originMap !! k = None ∧
             key = "+" +:+ k ∧ x = stored v) ∨
     (∃ k v, originMap !! k = Some v ∧ targetMap !! k = None ∧
             key = "-" +:+ k ∧ x = stored v) ∨
     (∃ o v, originMap !! key = Some o ∧ targetMap !! key = Some v ∧
             diffField formatFloat rangeOrder n fd o v = Done (x, true))).

End writes.

(** A checkable form of [no_collision]. *)
Definition no_collisionb (originMap targetMap : gmap string Value) : bool :=
  forallb (λ k,
    negb (bool_decide (is_Some (targetMap !! k))) ||
    (forallb (λ k', bool_decide (is_Some (originMap !! k')) ||
                    negb (bool_decide (k = "+" +:+ k'))) (map_to_list targetMap).*1 &&
     forallb (λ k', bool_decide (is_Some (targetMap !! k')) ||
                    negb (bool_decide (k = "-" +:+ k'))) (map_to_list originMap).*1))
    (map_to_list originMap).*1.

(** ** Keys and entries *)

(** What an entry of the mapping [Diff] returns can be: the new value of
    a scalar field, a whole message, or a nested diff that has an entry. *)
Definition isEntry (x : Interface) : Prop :=
  match x with
  | IScalar _ | IMessage _ => True
  | IMap r => r ≠ ∅
  | INil | IString _ => False
  end.

(** A key that does not begin like a marker of [mapDiff]. *)
Definition plainKey (k : string) : bool :=
  match k with
  | String c _ => negb (bool_decide (c = "+"%char ∨ c = "-"%char))
  | EmptyString => true
  end.

(** The Go types a protobuf map key can have: bool, the integer types
    and string. *)
Definition isKey (x : Scalar) : bool :=
  match x with
  | SBool _ | SInt32 _ | SInt64 _ | SUint32 _ | SUint64 _ | SString _ => true
  | SFloat32 _ | SFloat64 _ | SBytes _ | SEnum _ => false
  end.

(** Two scalars of one Go type. *)
Definition sameGoType (x y : Scalar) : bool :=
  match x, y with
  | SBool _, SBool _ | SInt32 _, SInt32 _ | SInt64 _, SInt64 _
  | SUint32 _, SUint32 _ | SUint64 _, SUint64 _
  | SFloat32 _, SFloat32 _ | SFloat64 _, SFloat64 _
  | SString _, SString _ | SBytes _, SBytes _ | SEnum _, SEnum _ => true
  | _, _ => false
  end.

(** The keys of a map keyed by bool or by an unsigned integer type. *)
Definition isUnsignedKey (x : Scalar) : bool :=
  match x with
  | SBool _ => true
  | SUint32 z | SUint64 z => bool_decide (0 ≤ z)%Z
  | _ => false
  end.

Section keys.
Variable formatFloat : nat → spec_float → string.

(** No map, at any depth, has a key whose string begins with ["+"] or
    ["-"]. *)
Fixpoint Value_plainKeys (v : Value) : bool :=
  match v with
  | VScalar _ => true
  | VMessage m => Message_plainKeys m
  | VList l => forallb Value_plainKeys l
  | VMap l =>
      forallb (λ kv, match kv with
                     | (k, x) => plainKey (Scalar_String formatFloat k) && Value_plainKeys x
                     end) l
  end
with Message_plainKeys (m : Message) : bool :=
  match m with
  | MkMessage _ fs => forallb (λ fv, match fv with (_, x) => Value_plainKeys x end) fs
  end.

End keys.

(** ** Worked inputs *)

(** [strconv]'s rendering of zeros, infinities and NaN; the inputs below
    render no finite float. *)
Definition formatSpecials (bits : nat) (f : spec_float) : string :=
  match f with
  | S754_nan => "NaN"
  | S754_infinity s => if s then "-Inf" else "+Inf"
  | S754_zero s => if s then "-0" else "0"
  | S754_finite _ _ _ => ""
  end.

(** A [range] that visits the entries in the order of the map's listing. *)
Definition inOrder (l : list (string * Value)) : list (string * Value) := l.

Definition scalarField (name : string) (kind : KindT) : FieldDescriptor :=
  {| Name := name; Cardinality := Optional; Kind := kind |}.
Definition repeatedField (name : string) (kind : KindT) : FieldDescriptor :=
  {| Name := name; Cardinality := Repeated; Kind := kind |}.

Definition str (s : string) : Value := VScalar (SString s).

(** A message with one double field holding NaN. *)
Definition nanMessage : Message :=
  MkMessage "sample.Reading" [(scalarField "ratio" DoubleKind, VScalar (SFloat64 S754_nan))].


Definition pathMessage (index : Z) (names : list string) (ratio : spec_float) : Message :=
  MkMessage "sample.Path"
    [(scalarField "index" Uint32Kind, VScalar (SUint32 index));
     (repeatedField "names" StringKind, VList (str <$> names));
     (scalarField "ratio" FloatKind, VScalar (SFloat32 ratio))].

Definition connectionMessage (id : string) (path : Message)
    (labels : list (Scalar * Value)) : Message :=
  MkMessage "sample.Connection"
    [(scalarField "id" StringKind, str id);
     (scalarField "path" MessageKind, VMessage path);
     (repeatedField "labels" MessageKind, VMap labels)].

Definition sampleConnection : Message :=
  connectionMessage "conn-1" (pathMessage 0 ["nsc"; "nsmgr"] (S754_zero false))
    [(SString "app", str "firewall"); (SString "zone", str "a")].

Definition renamedConnection : Message :=
  connectionMessage "conn-2" (pathMessage 0 ["nsc"; "nsmgr"] (S754_zero false))
    [(SString "app", str "firewall"); (SString "zone", str "a")].

Definition labelsField : FieldDescriptor := repeatedField "labels" MessageKind.

Definition namesField : FieldDescriptor := repeatedField "names" StringKind.

(** The string-keyed maps of two label maps. *)
Definition oldLabels : gmap string Value :=
  rangeToMap formatSpecials [(SString "app", str "nse"); (SString "zone", str "a")].
Definition newLabels : gmap string Value :=
  rangeToMap formatSpecials [(SString "zone", str "b"); (SString "node", str "n1")].

(** An equality and a diff text built from [Diff], standing for the two
    library functions. *)
Definition diffEqual (x : option Message) (m : Message) : bool :=
  match x with
  | Some p =>
      match Diff formatSpecials inOrder 4 p m with
      | Done (_, changed) => negb changed
      | Fault _ => false
      end
  | None => false
  end.

Definition diffText (x : option Message) (m : Message) : string :=
  if diffEqual x m then ""
  else "- " +:+ from_option FullName "nil" x +:+ " + " +:+ FullName m.

Definition sampleRequest : Message :=
  MkMessage "sample.Request" [(scalarField "connection" MessageKind, VMessage sampleConnection)].

(** The record after a request and its response were logged. *)
Definition tracedOnce : traceInfo :=
  {| Request := Some sampleRequest; Response := Some sampleConnection |}.

Definition leaseToken (name : string) (now : nat) : string * nat :=
  ("token-" +:+ name, (now + 10)%nat).

Definition freshConnection (service : string) : Connection :=
  {| conn_id := "1"; network_service := service; path_segments := [] |}.

Definition interdomainHops : list string := routeTo "nsc" 1 (Some 2%nat) "final-endpoint".

(** The connection the first request returns. *)
Definition establishedConnection : Connection :=
  {| conn_id := "1"; network_service := "my-service-interdomain@cluster2";
     path_segments := (λ name, signed leaseToken name 0) <$> interdomainHops |}.

(** A [range] that visits the entries in the opposite order. *)
Definition backwards (l : list (string * Value)) : list (string * Value) := reverse l.

(** A map keyed by int32 before and after key [1] is removed. *)
Definition signedKeys : list (Scalar * Value) :=
  [(SInt32 (-1), str "x"); (SInt32 1, str "w")].
Definition signedOld : gmap string Value := rangeToMap formatSpecials signedKeys.
Definition signedNew : gmap string Value :=
  rangeToMap formatSpecials [(SInt32 (-1), str "x")].

Definition renamedRequest : Message :=
  MkMessage "sample.Request" [(scalarField "connection" MessageKind, VMessage renamedConnection)].

Definition relabelledConnection : Message :=
  connectionMessage "conn-1" (pathMessage 0 ["nsc"; "nsmgr"] (S754_zero false))
    [(SString "app", str "firewall"); (SString "zone", str "b")].

(** The renamed connection further along its path. *)
Definition movedConnection : Message :=
  connectionMessage "conn-2" (pathMessage 1 ["nsc"; "nsmgr"; "forwarder"] (S754_zero false))
    [(SString "app", str "firewall")].

(** * Part III: proofs *)

(** ** Loops that write optional entries into a map *)

Lemma isDone_Done {A} (a : A) : isDone (Done a).
Proof. by exists a. Qed.

Lemma forEach_put {A}
    (f : gmap string Interface * nat → A → outcome (gmap string Interface * nat))
    (act : A → outcome (option (string * Interface))) (l : list A) st :
  (∀ st a, a ∈ l → f st a = w ←! act a; Done (put st w)) →
  (∀ a, a ∈ l → isDone (act a)) →
  forEach f l st = Done (foldl write st (omap (fromDone None ∘ act) l)).
Proof.
  revert st. induction l as [|a l IH]; intros st Hf Hact; [done|].
  cbn [forEach]. rewrite Hf by left.
  destruct (Hact a) as [w Hw]; [left|]. rewrite Hw. cbn [obind].
  rewrite IH by (intros; first [apply Hf | apply Hact]; by right).
  f_equal. cbn [omap list_omap]. unfold compose at 2. rewrite Hw. cbn [fromDone].
  by destruct w as [kx|].
Qed.

Lemma foldl_write (W : list (string * Interface)) st :
  foldl write st W = (list_to_map (reverse W) ∪ st.1, st.2 + length W).
Proof.
  revert st. induction W as [|[k x] W IH] using rev_ind; intros [d c].
  - cbn. by rewrite (left_id_L ∅ (∪)), Nat.add_0_r.
  - rewrite foldl_app, IH, reverse_app, length_app. unfold write. cbn.
    f_equal; [|lia]. by rewrite insert_union_l.
Qed.

Lemma foldl_write_empty (W : list (string * Interface)) :
  foldl write (∅, 0) W = (list_to_map (reverse W), length W).
Proof. rewrite foldl_write. cbn. by rewrite (right_id_L ∅ (∪)). Qed.

(** Reading a key of the result: the entry comes from some write, and a
    key written with one value only holds it. *)
Lemma writes_lookup_inv (W : list (string * Interface)) k x :
  (list_to_map (reverse W) : gmap string Interface) !! k = Some x → (k, x) ∈ W.
Proof. intros H%elem_of_list_to_map_2. by rewrite elem_of_reverse in H. Qed.

Lemma writes_lookup (W : list (string * Interface)) k x :
  (k, x) ∈ W → (∀ y, (k, y) ∈ W → x = y) →
  (list_to_map (reverse W) : gmap string Interface) !! k = Some x.
Proof.
  intros Hin Huniq. apply elem_of_list_to_map_1'.
  - intros y Hy. apply Huniq. by rewrite elem_of_reverse in Hy.
  - by rewrite elem_of_reverse.
Qed.

Lemma writes_lookup_None (W : list (string * Interface)) k :
  (∀ x, (k, x) ∉ W) →
  (list_to_map (reverse W) : gmap string Interface) !! k = None.
Proof.
  intros H. apply not_elem_of_list_to_map_1.
  intros [[k' x] [-> Hx]]%list_elem_of_fmap. rewrite elem_of_reverse in Hx.
  by apply (H x).
Qed.

(** The counter of the writes is positive exactly when their map has an
    entry. *)
Lemma writes_changed (W : list (string * Interface)) :
  bool_decide (0 < length W) = true ↔
  (list_to_map (reverse W) : gmap string Interface) ≠ ∅.
Proof.
  rewrite bool_decide_eq_true. destruct W as [|[k x] W] using rev_ind.
  - cbn. split; [lia|done].
  - rewrite reverse_app, length_app. cbn. split; [|lia].
    intros _ Hempty. by apply insert_non_empty in Hempty.
Qed.

(** ** The per-key diff computed by [mapDiff] *)

Lemma added_key_inj k k' : "+" +:+ k = "+" +:+ k' → k = k'.
Proof. cbn. by intros [=]. Qed.

Lemma removed_key_inj k k' : "-" +:+ k = "-" +:+ k' → k = k'.
Proof. cbn. by intros [=]. Qed.

Lemma added_key_ne_removed k k' : "+" +:+ k ≠ "-" +:+ k'.
Proof. cbn. by intros [=]. Qed.

Section mapDiff_facts.
Variable formatFloat : nat → spec_float → string.
Variable rangeOrder : list (string * Value) → list (string * Value).
Hypothesis rangeOrder_perm : ∀ l, rangeOrder l ≡ₚ l.
Variable df : FieldDescriptor → Value → Value → outcome (Interface * bool).
Variable descriptor : FieldDescriptor.
Variables originMap targetMap : gmap string Value.

Local Abbreviation stored := (stored formatFloat).
Local Abbreviation targetAct := (targetAct formatFloat df descriptor originMap).
Local Abbreviation originAct := (originAct formatFloat targetMap).
Local Abbreviation mapWrites :=
  (mapWrites formatFloat rangeOrder df descriptor originMap targetMap).
Local Abbreviation no_collision := (no_collision originMap targetMap).

Hypothesis origin_elems : ∀ k v, originMap !! k = Some v → isElem v = true.
Hypothesis target_elems : ∀ k v, targetMap !! k = Some v → isElem v = true.
Hypothesis df_done : ∀ k o v,
  originMap !! k = Some o → targetMap !! k = Some v → isDone (df descriptor o v).

Lemma putToMappDif_stored value resultMap key :
  isElem value = true →
  putToMappDif formatFloat value resultMap key = Done (<[key := stored value]> resultMap).
Proof. by destruct value. Qed.

Lemma elem_of_rangeOrder (m : gmap string Value) k v :
  (k, v) ∈ rangeOrder (map_to_list m) ↔ m !! k = Some v.
Proof. by rewrite (rangeOrder_perm (map_to_list m)), elem_of_map_to_list. Qed.

Lemma targetAct_done k v : targetMap !! k = Some v → isDone (targetAct (k, v)).
Proof.
  intros Hv. unfold targetAct. cbn. destruct (originMap !! k) as [o|] eqn:Ho.
  - destruct (df_done k o v Ho Hv) as [[val diff] ->]. cbn. apply isDone_Done.
  - rewrite (target_elems k v Hv). apply isDone_Done.
Qed.

Lemma originAct_done k v : originMap !! k = Some v → isDone (originAct (k, v)).
Proof.
  intros Hv. unfold originAct. cbn. destruct (targetMap !! k); [apply isDone_Done|].
  rewrite (origin_elems k v Hv). apply isDone_Done.
Qed.

(** [mapDiff] returns, and its result is the map of its writes. *)
Lemma mapDiff_writes :
  mapDiff_ formatFloat rangeOrder df descriptor originMap targetMap =
  Done (IMap (list_to_map (reverse mapWrites)), bool_decide (0 < length mapWrites)).
Proof.
  unfold mapDiff_.
  rewrite (forEach_put _ targetAct); cycle 1.
  { intros [resultMap lchanged] [k v] Hin%elem_of_rangeOrder. unfold targetAct. cbn.
    destruct (originMap !! k) as [o|].
    - destruct (df descriptor o v) as [[val []]|]; done.
    - rewrite putToMappDif_stored, (target_elems k v Hin) by eauto. done. }
  { intros [k v] Hin%elem_of_rangeOrder. by apply targetAct_done. }
  cbn [obind].
  rewrite (forEach_put _ originAct); cycle 1.
  { intros [resultMap lchanged] [k v] Hin%elem_of_rangeOrder. unfold originAct. cbn.
    destruct (targetMap !! k); [done|].
    rewrite putToMappDif_stored, (origin_elems k v Hin) by eauto. done. }
  { intros [k v] Hin%elem_of_rangeOrder. by apply originAct_done. }
  cbn [obind]. rewrite <- foldl_app, foldl_write_empty. done.
Qed.

(** Where the writes come from. *)
Lemma elem_of_mapWrites key x :
  (key, x) ∈ mapWrites ↔
  (∃ k v, targetMap !! k = Some v ∧ targetAct (k, v) = Done (Some (key, x))) ∨
  (∃ k v, originMap !! k = Some v ∧ originAct (k, v) = Done (Some (key, x))).
Proof.
  unfold mapWrites. rewrite elem_of_app, !list_elem_of_omap. split.
  - intros [([k v] & Hin%elem_of_rangeOrder & Hw)|([k v] & Hin%elem_of_rangeOrder & Hw)];
      [left|right]; exists k, v; split; try done.
    + destruct (targetAct_done k v Hin) as [w Hd]. unfold compose in Hw.
      rewrite Hd in Hw |- *. cbn in Hw. by subst.
    + destruct (originAct_done k v Hin) as [w Hd]. unfold compose in Hw.
      rewrite Hd in Hw |- *. cbn in Hw. by subst.
  - intros [(k & v & Hin & Hw)|(k & v & Hin & Hw)]; [left|right];
      exists (k, v); rewrite elem_of_rangeOrder; unfold compose; by rewrite Hw.
Qed.
(** *** Reading the result key by key *)

Lemma targetAct_Some k v key y :
  targetAct (k, v) = Done (Some (key, y)) →
  (originMap !! k = None ∧ key = "+" +:+ k ∧ y = stored v) ∨
  (∃ o, originMap !! k = Some o ∧ key = k ∧ df descriptor o v = Done (y, true)).
Proof.
  unfold targetAct. cbn. destruct (originMap !! k) as [o|].
  - destruct (df descriptor o v) as [[val []]|] eqn:Hdf; cbn; intros [=]; subst.
    right. by exists o.
  - destruct (isElem v); intros [=]; subst. by left.
Qed.

Lemma originAct_Some k v key y :
  originAct (k, v) = Done (Some (key, y)) →
  targetMap !! k = None ∧ key = "-" +:+ k ∧ y = stored v.
Proof.
  unfold originAct. cbn. destruct (targetMap !! k); [done|].
  destruct (isElem v); intros [=]; by subst.
Qed.

Lemma mapWrites_added k v :
  no_collision → targetMap !! k = Some v → originMap !! k = None →
  (list_to_map (reverse mapWrites) : gmap string Interface) !! ("+" +:+ k)
  = Some (stored v).
Proof.
  intros Hcol Hv Ho. apply writes_lookup.
  - apply elem_of_mapWrites. left. exists k, v. split; [done|].
    unfold targetAct. cbn. by rewrite Ho, (target_elems k v Hv).
  - intros y [(k' & v' & Hv' & Hact)|(k' & v' & Hv' & Hact)]%elem_of_mapWrites.
    + apply targetAct_Some in Hact as [(_ & <-%added_key_inj & ->)|(o & Ho' & <- & _)].
      * congruence.
      * by destruct (Hcol ("+" +:+ k) k) as [[] _].
    + apply originAct_Some in Hact as (_ & Heq & _).
      by apply added_key_ne_removed in Heq.
Qed.

Lemma mapWrites_removed k v :
  no_collision → originMap !! k = Some v → targetMap !! k = None →
  (list_to_map (reverse mapWrites) : gmap string Interface) !! ("-" +:+ k)
  = Some (stored v).
Proof.
  intros Hcol Ho Hv. apply writes_lookup.
  - apply elem_of_mapWrites. right. exists k, v. split; [done|].
    unfold originAct. cbn. by rewrite Hv, (origin_elems k v Ho).
  - intros y [(k' & v' & Hv' & Hact)|(k' & v' & Hv' & Hact)]%elem_of_mapWrites.
    + apply targetAct_Some in Hact as [(_ & Heq & _)|(o & Ho' & <- & _)].
      * symmetry in Heq. by apply added_key_ne_removed in Heq.
      * by destruct (Hcol ("-" +:+ k) k) as [_ []].
    + apply originAct_Some in Hact as (_ & <-%removed_key_inj & ->). congruence.
Qed.

Lemma mapWrites_common k o v :
  no_collision → originMap !! k = Some o → targetMap !! k = Some v →
  (list_to_map (reverse mapWrites) : gmap string Interface) !! k
  = match df descriptor o v with
    | Done (val, true) => Some val
    | _ => None
    end.
Proof.
  intros Hcol Ho Hv.
  assert (∀ y, (k, y) ∈ mapWrites → df descriptor o v = Done (y, true)) as Hfrom.
  { intros y [(k' & v' & Hv' & Hact)|(k' & v' & Hv' & Hact)]%elem_of_mapWrites.
    - apply targetAct_Some in Hact as [(Ho' & -> & _)|(o' & Ho' & <- & Hdf)].
      + by destruct (Hcol ("+" +:+ k') k') as [[] _].
      + congruence.
    - apply originAct_Some in Hact as (Ht' & -> & _).
      by destruct (Hcol ("-" +:+ k') k') as [_ []]. }
  destruct (df descriptor o v) as [[val []]|] eqn:Hdf.
  - apply writes_lookup.
    + apply elem_of_mapWrites. left. exists k, v. split; [done|].
      unfold targetAct. cbn. by rewrite Ho, Hdf.
    + intros y Hy%Hfrom. congruence.
  - apply writes_lookup_None. intros y Hy%Hfrom. congruence.
  - apply writes_lookup_None. intros y Hy%Hfrom. congruence.
Qed.

(** Every entry is one of the three kinds. *)
Lemma mapWrites_inv key x :
  (list_to_map (reverse mapWrites) : gmap string Interface) !! key = Some x →
  (∃ k v, targetMap !! k = Some v ∧ originMap !! k = None ∧
          key = "+" +:+ k ∧ x = stored v) ∨
  (∃ k v, originMap !! k = Some v ∧ targetMap !! k = None ∧
          key = "-" +:+ k ∧ x = stored v) ∨
  (∃ o v, originMap !! key = Some o ∧ targetMap !! key = Some v ∧
          df descriptor o v = Done (x, true)).
Proof.
  intros [(k & v & Hv & Hact)|(k & v & Hv & Hact)]%writes_lookup_inv%elem_of_mapWrites.
  - apply targetAct_Some in Hact as [(? & -> & ->)|(o & ? & <- & ?)].
    + left. by exists k, v.
    + right. right. by exists o, v.
  - apply originAct_Some in Hact as (? & -> & ->). right. left. by exists k, v.
Qed.

(** The counter is positive exactly when the result has an entry. *)
Lemma mapWrites_changed :
  bool_decide (0 < length mapWrites) = true ↔
  (list_to_map (reverse mapWrites) : gmap string Interface) ≠ ∅.
Proof. apply writes_changed. Qed.

End mapDiff_facts.

(** ** Fields, lists and maps of a message *)

Lemma Message_sameType_unfold a b :
  Message_sameType a b =
  bool_decide (FullName a = FullName b) &&
  fields_sameType (Message_fields a) (Message_fields b).
Proof. by destruct a, b. Qed.

Lemma Message_Get_Done m fd :
  fd ∈ Descriptor_Fields m →
  ∃ v, Message_Get m fd = Done v ∧ (fd, v) ∈ Message_fields m.
Proof.
  unfold Descriptor_Fields, Message_Get. induction (Message_fields m) as [|[d v] fs IH]; cbn.
  - by intros ?%elem_of_nil.
  - intros Hin. destruct (decide (d = fd)) as [->|Hne].
    + rewrite bool_decide_eq_true_2 by done. exists v. split; [done|left].
    + rewrite bool_decide_eq_false_2 by done.
      apply elem_of_cons in Hin as [?|Hin]; [congruence|].
      destruct (IH Hin) as (v' & ? & ?). exists v'. split; [done|by right].
Qed.

Lemma Message_Get_unique m fd v :
  NoDup (Name <$> Descriptor_Fields m) → (fd, v) ∈ Message_fields m →
  Message_Get m fd = Done v.
Proof.
  unfold Descriptor_Fields, Message_Get. induction (Message_fields m) as [|[d w] fs IH]; cbn.
  - by intros _ ?%elem_of_nil.
  - intros [Hnotin Hnd]%NoDup_cons [Heq|Hin]%elem_of_cons.
    + simplify_eq. by rewrite bool_decide_eq_true_2.
    + destruct (decide (d = fd)) as [->|Hne].
      * exfalso. apply Hnotin. apply list_elem_of_fmap. exists fd. split; [done|].
        apply list_elem_of_fmap. by exists (fd, v).
      * rewrite bool_decide_eq_false_2 by done. by apply IH.
Qed.

(** Two messages of one type: [Get] finds the field in both, and the two
    values have one type. *)
Lemma Message_Get_pair a b fd :
  fields_sameType (Message_fields a) (Message_fields b) = true →
  fd ∈ Descriptor_Fields b →
  ∃ va vb, Message_Get a fd = Done va ∧ Message_Get b fd = Done vb ∧
           (fd, va) ∈ Message_fields a ∧ (fd, vb) ∈ Message_fields b ∧
           Value_sameType va vb = true.
Proof.
  unfold Descriptor_Fields, Message_Get.
  generalize (Message_fields a) (Message_fields b). clear a b.
  induction l as [|[da va] fa IH]; intros [|[db vb] fb]; cbn; try done.
  - by intros _ ?%elem_of_nil.
  - intros [[->%bool_decide_eq_true Hty]%andb_true_iff Hrest]%andb_true_iff Hin.
    destruct (decide (db = fd)) as [->|Hne].
    + rewrite !bool_decide_eq_true_2 by done. exists va, vb.
      repeat split; first [done | left].
    + rewrite !bool_decide_eq_false_2 by done.
      apply elem_of_cons in Hin as [?|Hin]; [congruence|].
      destruct (IH fb Hrest Hin) as (va' & vb' & ? & ? & ? & ? & ?).
      exists va', vb'. repeat split; first [done | by right].
Qed.

Global Instance Itoa_inj : Inj (=) (=) Itoa.
Proof. unfold Itoa. apply _. Qed.

(** Index [j] of the list is stored under the decimal string of [i + j],
    and nothing else is added. *)
Lemma listToMap_lookup_Some l : ∀ i m k v,
  listToMap i l m !! k = Some v ↔
  (∃ j, k = Itoa (Z.of_nat (i + j)) ∧ l !! j = Some v) ∨
  ((∀ j, j < length l → k ≠ Itoa (Z.of_nat (i + j))) ∧ m !! k = Some v).
Proof.
  induction l as [|x l IH]; intros i m k v; cbn [listToMap].
  - split; [intros ?; right; split; [intros; cbn in *; lia|done]|].
    intros [(j & _ & ?)|[_ ?]]; [by destruct j|done].
  - rewrite IH. split.
    + intros [(j & -> & Hj)|[Hne Hm]].
      * left. exists (S j). split; [f_equal; lia|done].
      * destruct (decide (k = Itoa (Z.of_nat i))) as [->|Hk].
        -- rewrite lookup_insert_eq in Hm. simplify_eq. left. exists 0.
           split; [f_equal; lia|done].
        -- rewrite lookup_insert_ne in Hm by done. right. split; [|done].
           intros [|j] Hlt; [by rewrite Nat.add_0_r|].
           replace (i + S j) with (S i + j) by lia. apply Hne. cbn in Hlt. lia.
    + intros [([|j] & -> & Hj)|[Hne Hm]].
      * cbn in Hj. simplify_eq. right. split.
        -- intros j Hlt Heq%(inj Itoa). lia.
        -- rewrite Nat.add_0_r. apply lookup_insert_eq.
      * left. exists j. split; [f_equal; lia|done].
      * right. split.
        -- intros j Hlt. replace (S i + j) with (i + S j) by lia. apply Hne. cbn. lia.
        -- rewrite lookup_insert_ne; [done|].
           intros Heq. apply (Hne 0); [cbn; lia|]. by rewrite Nat.add_0_r.
Qed.

Lemma listToMap_lookup l (j : nat) :
  listToMap 0 l ∅ !! Itoa (Z.of_nat j) = l !! j.
Proof.
  destruct (l !! j) as [v|] eqn:Hj.
  - apply listToMap_lookup_Some. left. by exists j.
  - destruct (listToMap 0 l ∅ !! Itoa (Z.of_nat j)) as [v|] eqn:Hk; [|done].
    apply listToMap_lookup_Some in Hk as [(j' & Heq%(inj Itoa) & Hj')|[_ ?]]; [|done].
    assert (j' = j) as -> by lia. congruence.
Qed.

Lemma listToMap_elem l k v : listToMap 0 l ∅ !! k = Some v → v ∈ l.
Proof.
  intros [(j & _ & Hj)|[_ ?]]%listToMap_lookup_Some; [|done].
  by eapply list_elem_of_lookup_2.
Qed.

Lemma rangeToMap_elem formatFloat mp k v :
  rangeToMap formatFloat mp !! k = Some v →
  ∃ key, (key, v) ∈ mp ∧ k = Scalar_String formatFloat key.
Proof.
  unfold rangeToMap. induction mp as [|[key x] mp IH] using rev_ind; [done|].
  rewrite foldl_app. cbn. destruct (decide (Scalar_String formatFloat key = k)) as [<-|Hne].
  - rewrite lookup_insert_eq. intros [= ->]. exists key. split; [|done].
    apply elem_of_app. right. left.
  - rewrite lookup_insert_ne by done. intros (key' & ? & ?)%IH.
    exists key'. split; [|done]. apply elem_of_app. by left.
Qed.

Lemma foldr_max_le {A} (f : A → nat) (l : list A) x :
  x ∈ l → (f x ≤ foldr (λ y n, f y `max` n) 0 l)%nat.
Proof.
  induction l as [|y l IH]; [by intros ?%elem_of_nil|].
  intros [->|Hin]%elem_of_cons; cbn; [lia|]. specialize (IH Hin). lia.
Qed.

Lemma Value_depth_field n fs fd v :
  (fd, v) ∈ fs → Value_depth v < Message_depth (MkMessage n fs).
Proof.
  intros Hin. cbn. apply Nat.lt_succ_r.
  by apply (foldr_max_le
              (λ fv : FieldDescriptor * Value, let (_, x) := fv in Value_depth x) fs (fd, v)).
Qed.

Lemma Value_depth_list l v : v ∈ l → (Value_depth v ≤ Value_depth (VList l))%nat.
Proof. intros Hin. cbn. by apply (foldr_max_le Value_depth). Qed.

Lemma Value_depth_map (l : list (Scalar * Value)) k v :
  (k, v) ∈ l → (Value_depth v ≤ Value_depth (VMap l))%nat.
Proof.
  intros Hin. cbn.
  by apply (foldr_max_le (λ kv : Scalar * Value, let (_, x) := kv in Value_depth x) l (k, v)).
Qed.

Lemma forallb_elem_of {A} (f : A → bool) (l : list A) x :
  forallb f l = true → x ∈ l → f x = true.
Proof. rewrite forallb_forall. intros H Hin. apply H. by apply list_elem_of_In. Qed.

Lemma omap_none {A B} (f : A → option B) (l : list A) :
  (∀ a, a ∈ l → f a = None) → omap f l = [].
Proof.
  induction l as [|a l IH]; [done|]. intros H. cbn.
  rewrite (H a) by left. apply IH. intros; apply H. by right.
Qed.

(** ** Reading the shape conditions *)

Lemma Message_wf_NoDup m :
  Message_wf m = true → NoDup (Name <$> Descriptor_Fields m).
Proof.
  destruct m as [n fs]. cbn. intros [H _]%andb_true_iff.
  by apply bool_decide_eq_true in H.
Qed.

Lemma Message_wf_field m fd v :
  Message_wf m = true → (fd, v) ∈ Message_fields m →
  Value_wf fd (negb (bool_decide (Cardinality fd = Repeated))) v = true.
Proof.
  destruct m as [n fs]. cbn. intros [_ H]%andb_true_iff Hin.
  by apply (forallb_elem_of _ _ _ H Hin).
Qed.

Lemma Value_wf_elem fd v : Value_wf fd true v = true → isElem v = true.
Proof. by destruct v. Qed.

Lemma Value_wf_message fd m :
  Value_wf fd true (VMessage m) = true → Kind fd = MessageKind ∧ Message_wf m = true.
Proof.
  cbn. intros [H ?]%andb_true_iff. split; [|done]. by apply bool_decide_eq_true in H.
Qed.

Lemma Value_wf_list fd l x :
  Value_wf fd false (VList l) = true → x ∈ l → Value_wf fd true x = true.
Proof. cbn. intros H Hin. by apply (forallb_elem_of _ _ _ H Hin). Qed.

Lemma Value_wf_map fd (l : list (Scalar * Value)) k x :
  Value_wf fd false (VMap l) = true → (k, x) ∈ l → Value_wf fd true x = true.
Proof. cbn. intros H Hin. by apply (forallb_elem_of _ _ _ H Hin). Qed.

Lemma Message_nanFree_field m fd v :
  Message_nanFree m = true → (fd, v) ∈ Message_fields m → Value_nanFree v = true.
Proof. destruct m as [n fs]. cbn. intros H Hin. by apply (forallb_elem_of _ _ _ H Hin). Qed.

Lemma Value_nanFree_list l x :
  Value_nanFree (VList l) = true → x ∈ l → Value_nanFree x = true.
Proof. cbn. intros H Hin. by apply (forallb_elem_of _ _ _ H Hin). Qed.

Lemma Value_nanFree_map (l : list (Scalar * Value)) k x :
  Value_nanFree (VMap l) = true → (k, x) ∈ l → Value_nanFree x = true.
Proof. cbn. intros H Hin. by apply (forallb_elem_of _ _ _ H Hin). Qed.

Lemma SFeqb_refl f : isNaN f = false → SFeqb f f = true.
Proof.
  destruct f as [s|s| |s m e]; try done; unfold SFeqb; cbn.
  - by destruct s.
  - destruct s; rewrite Z.compare_refl, Pos.compare_cont_refl; done.
Qed.

Lemma Scalar_DeepEqual_refl x : Scalar_isNaN x = false → Scalar_DeepEqual x x = true.
Proof.
  destruct x as [| | | | | | | |[b|]|]; cbn; intros Hnan;
    try (by apply bool_decide_eq_true_2); try (by apply SFeqb_refl); done.
Qed.

(** ** The diff computed by [Diff] *)

Section Diff_facts.
Variable formatFloat : nat → spec_float → string.
Variable rangeOrder : list (string * Value) → list (string * Value).
Hypothesis rangeOrder_perm : ∀ l, rangeOrder l ≡ₚ l.

Local Abbreviation Diff' := (Diff formatFloat rangeOrder).
Local Abbreviation diffField' := (diffField formatFloat rangeOrder).
Local Abbreviation mapDiff' := (mapDiff formatFloat rangeOrder).
Local Abbreviation Diff_field' := (Diff_field formatFloat).
Local Abbreviation fieldMaps := (fieldMaps formatFloat).
Local Abbreviation fieldAct := (fieldAct formatFloat rangeOrder).
Local Abbreviation DiffWrites := (DiffWrites formatFloat rangeOrder).
Local Abbreviation same_ok := (same_ok formatFloat rangeOrder).

Lemma Diff_field_act n a b st fd :
  Diff_field' (mapDiff' n) (diffField' n) a b st fd =
  w ←! fieldAct n a b fd; Done (put st w).
Proof.
  unfold Diff_field, fieldAct. destruct st as [diffMessage changes].
  destruct (Message_Get b fd) as [newValue|]; [|done].
  destruct (Message_Get a fd) as [oldValue|]; [|done]. cbn [obind].
  case_bool_decide.
  - change (match newValue with
            | VList val => match oldValue with
                           | VList oldList => Done (listToMap 0 oldList ∅, listToMap 0 val ∅)
                           | _ => Fault Panic
                           end
            | VMap val => match oldValue with
                          | VMap oldMap => Done (rangeToMap formatFloat oldMap, rangeToMap formatFloat val)
                          | _ => Fault Panic
                          end
            | _ => Done (∅, ∅)
            end) with (fieldMaps oldValue newValue).
    destruct (fieldMaps oldValue newValue) as [[originMap targetMap]|]; [|done]. cbn [obind].
    destruct (mapDiff' n fd originMap targetMap) as [[resultMap []]|]; done.
  - destruct (diffField' n fd oldValue newValue) as [[val []]|]; done.
Qed.

(** [Diff] returns when every field is diffed, and its result is the
    map of the writes. *)
Lemma Diff_writes n a b :
  (∀ fd, fd ∈ Descriptor_Fields b → isDone (fieldAct n a b fd)) →
  Diff' (S n) a b =
  Done (list_to_map (reverse (DiffWrites n a b)), bool_decide (0 < length (DiffWrites n a b))).
Proof.
  intros Hdone. cbn [Diff].
  change (forEach _ (Descriptor_Fields b) (∅, 0))
    with (forEach (Diff_field' (mapDiff' n) (diffField' n) a b) (Descriptor_Fields b) (∅, 0)).
  rewrite (forEach_put _ (fieldAct n a b))
    by (intros; first [apply Diff_field_act | by apply Hdone]).
  cbn [obind]. by rewrite foldl_write_empty.
Qed.

(** *** A message against itself *)

Lemma diffField_same n fd v :
  same_ok n → Value_wf fd true v = true → Value_nanFree v = true →
  (Value_depth v ≤ n)%nat →
  ∃ r, diffField' n fd v v = Done (r, false).
Proof.
  intros IH Hwf Hnan Hdepth. unfold diffField, diffField_.
  destruct v as [x|m|l|l]; try done.
  - cbn in Hnan. apply negb_true_iff in Hnan.
    cbn [DeepEqual obind]. rewrite (Scalar_DeepEqual_refl x Hnan). cbn.
    case_bool_decide; by exists INil.
  - apply Value_wf_message in Hwf as [-> Hwf]. cbn.
    rewrite (IH m Hwf Hnan Hdepth). cbn. by eexists.
Qed.

Lemma mapDiff_same n fd (M : gmap string Value) :
  (∀ k v, M !! k = Some v → isElem v = true) →
  (∀ k v, M !! k = Some v → ∃ r, diffField' n fd v v = Done (r, false)) →
  mapDiff' n fd M M = Done (IMap ∅, false).
Proof.
  intros Helem Hsame. unfold mapDiff.
  rewrite (mapDiff_writes formatFloat rangeOrder rangeOrder_perm); try done; cycle 1.
  { intros k o v Ho Hv. rewrite Ho in Hv. injection Hv as <-.
    destruct (Hsame k o Ho) as [r ->]. apply isDone_Done. }
  unfold mapWrites. rewrite !omap_none; [done| |].
  - intros [k v] Hin%(elem_of_rangeOrder rangeOrder rangeOrder_perm).
    unfold compose, originAct. cbn. by rewrite Hin.
  - intros [k v] Hin%(elem_of_rangeOrder rangeOrder rangeOrder_perm).
    unfold compose, targetAct. cbn. rewrite Hin.
    destruct (Hsame k v Hin) as [r ->]. done.
Qed.

Lemma fieldAct_same n m fd :
  same_ok n → Message_wf m = true → Message_nanFree m = true →
  (Message_depth m ≤ S n)%nat → fd ∈ Descriptor_Fields m →
  fieldAct n m m fd = Done None.
Proof.
  intros IH Hwf Hnan Hdepth Hfd. unfold fieldAct.
  destruct (Message_Get_Done m fd Hfd) as (v & -> & Hin). cbn [obind].
  pose proof (Message_wf_field m fd v Hwf Hin) as Hv.
  pose proof (Message_nanFree_field m fd v Hnan Hin) as Hvnan.
  assert (Value_depth v ≤ n)%nat as Hvd.
  { destruct m as [nm fs]. pose proof (Value_depth_field nm fs fd v Hin). lia. }
  case_bool_decide as Hrep; cbn in Hv.
  - assert (∃ M, fieldMaps v v = Done (M, M) ∧
                 ∀ k x, M !! k = Some x →
                   Value_wf fd true x = true ∧ Value_nanFree x = true ∧
                   (Value_depth x ≤ n)%nat) as (M & -> & HM).
    { destruct v as [x|m'|l|l]; try done; cbn [fieldMaps]; eexists; (split; [done|]).
      - intros k x Hx%listToMap_elem. split_and!.
        + by eapply Value_wf_list.
        + by eapply Value_nanFree_list.
        + pose proof (Value_depth_list l x Hx). lia.
      - intros k x (key & Hx & _)%rangeToMap_elem. split_and!.
        + by eapply Value_wf_map.
        + by eapply Value_nanFree_map.
        + pose proof (Value_depth_map l key x Hx). lia. }
    cbn [obind]. rewrite mapDiff_same; [done| |].
    + intros k x Hx. destruct (HM k x Hx) as (? & _). by eapply Value_wf_elem.
    + intros k x Hx. destruct (HM k x Hx) as (? & ? & ?). by apply diffField_same.
  - destruct (diffField_same n fd v IH Hv Hvnan Hvd) as [r ->]. done.
Qed.

End Diff_facts.

(** ** Two messages of one type *)

Lemma Value_sameType_list la lb x y :
  Value_sameType (VList la) (VList lb) = true → x ∈ la → y ∈ lb →
  Value_sameType x y = true.
Proof.
  cbn. intros H Hx Hy.
  pose proof (forallb_elem_of _ _ _ H Hx) as H'. by apply (forallb_elem_of _ _ _ H' Hy).
Qed.

Lemma Value_sameType_map (la lb : list (Scalar * Value)) kx x ky y :
  Value_sameType (VMap la) (VMap lb) = true → (kx, x) ∈ la → (ky, y) ∈ lb →
  Value_sameType x y = true.
Proof.
  cbn. intros H Hx Hy.
  pose proof (forallb_elem_of _ _ _ H Hx) as H'. cbn in H'.
  by apply (forallb_elem_of _ _ _ H' Hy).
Qed.

Lemma NoDup_fmap_elem_inj {A B} (f : A → B) (l : list A) x y :
  NoDup (f <$> l) → x ∈ l → y ∈ l → f x = f y → x = y.
Proof.
  induction l as [|a l IH]; [by intros _ ?%elem_of_nil|].
  cbn. intros [Hnotin Hnd]%NoDup_cons [->|Hx]%elem_of_cons [->|Hy]%elem_of_cons Heq.
  - done.
  - exfalso. apply Hnotin. rewrite Heq. by apply list_elem_of_fmap_2.
  - exfalso. apply Hnotin. rewrite <- Heq. by apply list_elem_of_fmap_2.
  - by apply IH.
Qed.

Section Diff_pairs.
Variable formatFloat : nat → spec_float → string.
Variable rangeOrder : list (string * Value) → list (string * Value).
Hypothesis rangeOrder_perm : ∀ l, rangeOrder l ≡ₚ l.

Local Abbreviation Diff' := (Diff formatFloat rangeOrder).
Local Abbreviation diffField' := (diffField formatFloat rangeOrder).
Local Abbreviation mapDiff' := (mapDiff formatFloat rangeOrder).
Local Abbreviation fieldAct' := (fieldAct formatFloat rangeOrder).
Local Abbreviation DiffWrites' := (DiffWrites formatFloat rangeOrder).
Local Abbreviation total_ok := (total_ok formatFloat rangeOrder).

Lemma diffField_total n fd o v :
  total_ok n → Value_wf fd true o = true → Value_wf fd true v = true →
  Value_sameType o v = true → (Value_depth v ≤ n)%nat →
  isDone (diffField' n fd o v).
Proof.
  intros IH Ho Hv Hty Hdepth. unfold diffField, diffField_.
  destruct o as [x|a|?|?], v as [y|b|?|?]; try done.
  - cbn. case_bool_decide; destruct (Scalar_DeepEqual x y); apply isDone_Done.
  - apply Value_wf_message in Ho as [_ Ha]. apply Value_wf_message in Hv as [-> Hb].
    cbn. destruct (IH a b Ha Hb Hty Hdepth) as [[d []] ->]; apply isDone_Done.
Qed.

(** The maps of a repeated field hold elements of the two values. *)
Lemma fieldMaps_elems fd va vb :
  Value_wf fd false va = true → Value_wf fd false vb = true →
  Value_sameType va vb = true →
  ∃ originMap targetMap, fieldMaps formatFloat va vb = Done (originMap, targetMap) ∧
    (∀ k o, originMap !! k = Some o → Value_wf fd true o = true) ∧
    (∀ k v, targetMap !! k = Some v →
       Value_wf fd true v = true ∧ (Value_depth v ≤ Value_depth vb)%nat) ∧
    (∀ k o v, originMap !! k = Some o → targetMap !! k = Some v →
       Value_sameType o v = true).
Proof.
  intros Ha Hb Hty. destruct va as [?|?|la|la], vb as [?|?|lb|lb]; try done;
    cbn [fieldMaps]; eexists _, _; (split; [done|]); split_and!.
  - intros k o Ho%listToMap_elem. by apply (Value_wf_list fd la).
  - intros k v Hv%listToMap_elem. split; [by apply (Value_wf_list fd lb)|].
    by apply Value_depth_list.
  - intros k o v Ho%listToMap_elem Hv%listToMap_elem.
    by apply (Value_sameType_list la lb).
  - intros k o (key & Ho & _)%rangeToMap_elem. by apply (Value_wf_map fd la key).
  - intros k v (key & Hv & _)%rangeToMap_elem. split; [by apply (Value_wf_map fd lb key)|].
    by apply (Value_depth_map lb key).
  - intros k o v (ko & Ho & _)%rangeToMap_elem (kv & Hv & _)%rangeToMap_elem.
    by apply (Value_sameType_map la lb ko o kv v).
Qed.

Lemma mapDiff_total n fd originMap targetMap :
  total_ok n →
  (∀ k o, originMap !! k = Some o → Value_wf fd true o = true) →
  (∀ k v, targetMap !! k = Some v →
     Value_wf fd true v = true ∧ (Value_depth v ≤ n)%nat) →
  (∀ k o v, originMap !! k = Some o → targetMap !! k = Some v →
     Value_sameType o v = true) →
  mapDiff' n fd originMap targetMap =
  Done (IMap (list_to_map (reverse
          (mapWrites formatFloat rangeOrder (diffField' n) fd originMap targetMap))),
        bool_decide (0 < length
          (mapWrites formatFloat rangeOrder (diffField' n) fd originMap targetMap))).
Proof.
  intros IH Ho Hv Hty. apply (mapDiff_writes formatFloat rangeOrder rangeOrder_perm).
  - intros k o Hk. eapply Value_wf_elem, Ho, Hk.
  - intros k v Hk. eapply Value_wf_elem, Hv, Hk.
  - intros k o v Hko Hkv. destruct (Hv k v Hkv). apply diffField_total; eauto.
Qed.

Lemma fieldAct_total n a b fd :
  total_ok n → Message_wf a = true → Message_wf b = true →
  Message_sameType a b = true → (Message_depth b ≤ S n)%nat →
  fd ∈ Descriptor_Fields b →
  isDone (fieldAct' n a b fd).
Proof.
  intros IH Hwa Hwb Hty Hdepth Hfd. unfold fieldAct.
  rewrite Message_sameType_unfold in Hty. apply andb_true_iff in Hty as [_ Hty].
  destruct (Message_Get_pair a b fd Hty Hfd) as (va & vb & -> & -> & Hina & Hinb & Hvty).
  cbn [obind].
  pose proof (Message_wf_field a fd va Hwa Hina) as Hva.
  pose proof (Message_wf_field b fd vb Hwb Hinb) as Hvb.
  assert (Value_depth vb ≤ n)%nat as Hvd.
  { destruct b as [nb fs]. pose proof (Value_depth_field nb fs fd vb Hinb). lia. }
  case_bool_decide as Hrep; cbn in Hva, Hvb.
  - destruct (fieldMaps_elems fd va vb Hva Hvb Hvty)
      as (originMap & targetMap & -> & Ho & Ht & Hot).
    cbn [obind]. rewrite mapDiff_total; try done.
    + cbn. destruct (bool_decide _); apply isDone_Done.
    + intros k v Hk. destruct (Ht k v Hk). split; [done|lia].
  - destruct (diffField_total n fd va vb IH Hva Hvb Hvty Hvd) as [[val []] ->];
      apply isDone_Done.
Qed.

Lemma Diff_total n : total_ok n.
Proof.
  induction n as [|n IH]; intros a b Hwa Hwb Hty Hdepth.
  - destruct b. cbn in Hdepth. lia.
  - rewrite (Diff_writes formatFloat rangeOrder); [apply isDone_Done|].
    intros fd Hfd. by apply fieldAct_total.
Qed.

(** The entry [Diff] holds for a field is the write of that field. *)
Lemma fieldAct_key n a b fd k x :
  fieldAct' n a b fd = Done (Some (k, x)) → k = Name fd.
Proof.
  unfold fieldAct.
  destruct (Message_Get b fd); [|done]. destruct (Message_Get a fd); [|done].
  cbn [obind]. case_bool_decide.
  - destruct (fieldMaps _ _ _) as [[originMap targetMap]|]; [|done]. cbn [obind].
    destruct (mapDiff' _ _ _ _) as [[r []]|]; cbn; congruence.
  - destruct (diffField' _ _ _ _) as [[val []]|]; cbn; congruence.
Qed.

Lemma Diff_lookup n a b fd :
  Message_wf a = true → Message_wf b = true →
  Message_sameType a b = true → (Message_depth b ≤ S n)%nat →
  fd ∈ Descriptor_Fields b →
  ∃ d changed w, Diff' (S n) a b = Done (d, changed) ∧
    fieldAct' n a b fd = Done w ∧ d !! Name fd = snd <$> w.
Proof.
  intros Hwa Hwb Hty Hdepth Hfd.
  assert (∀ fd', fd' ∈ Descriptor_Fields b → isDone (fieldAct' n a b fd')) as Hdone.
  { intros fd' Hfd'. apply fieldAct_total; auto using Diff_total. }
  rewrite (Diff_writes formatFloat rangeOrder) by done.
  destruct (Hdone fd Hfd) as [w Hw]. eexists _, _, w. split_and!; [done..|].
  assert (∀ y, (Name fd, y) ∈ DiffWrites' n a b → w = Some (Name fd, y)) as Hwrites.
  { intros y (fd' & Hfd' & Hy)%list_elem_of_omap. unfold compose in Hy.
    destruct (Hdone _ Hfd') as [w' Hw']. rewrite Hw' in Hy. cbn in Hy. subst w'.
    pose proof (fieldAct_key _ _ _ _ _ _ Hw') as Hname.
    assert (fd' = fd) as Heq.
    { eapply NoDup_fmap_elem_inj; [by apply Message_wf_NoDup| | |]; done. }
    rewrite Heq in Hw'. congruence. }
  destruct w as [[k x]|]; cbn.
  - pose proof (fieldAct_key _ _ _ _ _ _ Hw) as ->.
    apply writes_lookup.
    + apply list_elem_of_omap. exists fd. split; [done|]. unfold compose. by rewrite Hw.
    + intros y Hy%Hwrites. congruence.
  - apply writes_lookup_None. intros x Hx%Hwrites. done.
Qed.

End Diff_pairs.

(** ** Scalars: [reflect.DeepEqual] against equality of values *)

Lemma SFeqb_spec f g :
  ¬ (isNaN f = true ∧ isNaN g = true) →
  SFeqb f g = true ↔ float_value f = float_value g.
Proof.
  intros Hnan. unfold SFeqb.
  destruct f as [s|s| |s m e], g as [s'|s'| |s' m' e']; cbn;
    try (by destruct s); try (by destruct s'); try (by destruct s, s');
    try (split; [done|congruence]); try tauto.
  destruct s, s'; try (split; [done|congruence]).
  - destruct (Z.compare_spec e e') as [->| |]; try (split; [done|intros [=]; lia]).
    destruct (Pos.compare_cont Eq m m') eqn:Hm; cbn; try (split; [done|]).
    + apply Pcompare_Eq_eq in Hm as ->. done.
    + intros [= ->]. by rewrite Pcompare_refl in Hm.
    + intros [= ->]. by rewrite Pcompare_refl in Hm.
  - destruct (Z.compare_spec e e') as [->| |]; try (split; [done|intros [=]; lia]).
    destruct (Pos.compare_cont Eq m m') eqn:Hm; cbn; try (split; [done|]).
    + apply Pcompare_Eq_eq in Hm as ->. done.
    + intros [= ->]. by rewrite Pcompare_refl in Hm.
    + intros [= ->]. by rewrite Pcompare_refl in Hm.
Qed.

Lemma bytes_eqb_spec a b : bytes_eqb a b = true ↔ a = b.
Proof.
  unfold bytes_eqb. rewrite bool_decide_eq_true. split; [|by intros ->].
  revert b. induction a as [|x a IH]; intros [|y b]; cbn; try done.
  intros [= Hxy Hab]. f_equal; [|by apply IH].
  apply (f_equal Byte.of_N) in Hxy. rewrite !Byte.of_to_N in Hxy. congruence.
Qed.

(** Outside the case of two NaNs, [reflect.DeepEqual] on scalars is
    equality of the values. *)
Lemma Scalar_DeepEqual_spec x y :
  ¬ (Scalar_isNaN x = true ∧ Scalar_isNaN y = true) →
  Scalar_DeepEqual x y = true ↔ Scalar_value x = Scalar_value y.
Proof.
  intros Hnan.
  destruct x as [?|?|?|?|?|f|f|?|[u|]|?], y as [?|?|?|?|?|g|g|?|[w|]|?]; cbn;
    try (split; [done|congruence]);
    try (rewrite bool_decide_eq_true; split; congruence).
  - rewrite (SFeqb_spec f g Hnan). split; congruence.
  - rewrite (SFeqb_spec f g Hnan). split; congruence.
  - rewrite bytes_eqb_spec. split; congruence.
Qed.

(** ** Decimal indices are not markers *)

Lemma pretty_N_go_not_marker x s c s' :
  (c = "+" ∨ c = "-")%char → s ≠ String c s' → pretty_N_go x s ≠ String c s'.
Proof.
  intros Hc. revert s. induction (N.lt_wf_0 x) as [x _ IH]; intros s Hs.
  assert (x = 0 ∨ 0 < x)%N as [->|Hpos] by lia.
  - by rewrite pretty_N_go_0.
  - rewrite pretty_N_go_step by done. apply IH; [by apply N.div_lt|].
    unfold pretty_N_char. destruct Hc as [-> | ->]; by repeat case_match.
Qed.

Lemma Itoa_nat_not_marker (j : nat) c s :
  (c = "+" ∨ c = "-")%char → Itoa (Z.of_nat j) ≠ String c s.
Proof.
  intros Hc. unfold Itoa, pretty, pretty_Z. destruct (Z.of_nat j) as [|p|p] eqn:E; [| |lia].
  - destruct Hc as [-> | ->]; by intros [=].
  - unfold pretty, pretty_positive, pretty, pretty_N. case_decide; [done|].
    apply pretty_N_go_not_marker; [done|]. by intros [=].
Qed.

Lemma listToMap_key l k v :
  listToMap 0 l ∅ !! k = Some v → ∃ j : nat, k = Itoa (Z.of_nat j) ∧ l !! j = Some v.
Proof. intros [(j & -> & Hj)|[_ ?]]%listToMap_lookup_Some; [|done]. by exists j. Qed.

(** The maps of two lists never collide: their keys are decimal indices. *)
Lemma listToMap_no_collision lo ln :
  no_collision (listToMap 0 lo ∅) (listToMap 0 ln ∅).
Proof.
  intros k k' [o (j & -> & _)%listToMap_key] _. split; intros _ _.
  - apply Itoa_nat_not_marker. by left.
  - apply Itoa_nat_not_marker. by right.
Qed.

Section Diff_entries.
Variable formatFloat : nat → spec_float → string.
Variable rangeOrder : list (string * Value) → list (string * Value).
Hypothesis rangeOrder_perm : ∀ l, rangeOrder l ≡ₚ l.

Local Abbreviation Diff' := (Diff formatFloat rangeOrder).
Local Abbreviation diffField' := (diffField formatFloat rangeOrder).
Local Abbreviation mapDiff' := (mapDiff formatFloat rangeOrder).
Local Abbreviation fieldAct' := (fieldAct formatFloat rangeOrder).
Local Abbreviation stored' := (stored formatFloat).
Local Abbreviation per_key := (per_key formatFloat rangeOrder).

Lemma mapDiff_spec n fd originMap targetMap :
  (∀ k o, originMap !! k = Some o → Value_wf fd true o = true) →
  (∀ k v, targetMap !! k = Some v →
     Value_wf fd true v = true ∧ (Value_depth v ≤ n)%nat) →
  (∀ k o v, originMap !! k = Some o → targetMap !! k = Some v →
     Value_sameType o v = true) →
  no_collision originMap targetMap →
  ∃ r changed, mapDiff' n fd originMap targetMap = Done (IMap r, changed) ∧
    (changed = true ↔ r ≠ ∅) ∧ per_key n fd originMap targetMap r.
Proof.
  intros Ho Ht Hty Hcol.
  assert (∀ k o, originMap !! k = Some o → isElem o = true) as Hoe.
  { intros k o Hk. eapply Value_wf_elem, Ho, Hk. }
  assert (∀ k v, targetMap !! k = Some v → isElem v = true) as Hte.
  { intros k v Hk. eapply Value_wf_elem, Ht, Hk. }
  assert (∀ k o v, originMap !! k = Some o → targetMap !! k = Some v →
            isDone (diffField' n fd o v)) as Hdf.
  { intros k o v Hko Hkv. destruct (Ht k v Hkv).
    apply diffField_total; eauto using Diff_total. }
  eexists _, _. split; [by apply mapDiff_total; auto using Diff_total|].
  split; [by apply mapWrites_changed|]. split_and!.
  - intros k v. by apply mapWrites_added.
  - intros k v. by apply mapWrites_removed.
  - intros k o v. by apply mapWrites_common.
  - intros key x. by apply mapWrites_inv.
Qed.

End Diff_entries.

(** ** Checks on the worked inputs *)

Lemma elem_of_keys (m : gmap string Value) k :
  is_Some (m !! k) → k ∈ (map_to_list m).*1.
Proof.
  intros [v Hv]. apply list_elem_of_fmap. exists (k, v). split; [done|].
  by apply elem_of_map_to_list.
Qed.

Lemma no_collisionb_sound originMap targetMap :
  no_collisionb originMap targetMap = true → no_collision originMap targetMap.
Proof.
  intros H k k' Ho Ht.
  pose proof (forallb_elem_of _ _ k H (elem_of_keys _ _ Ho)) as Hk. cbn in Hk.
  rewrite (bool_decide_eq_true_2 _ Ht) in Hk. cbn in Hk.
  apply andb_true_iff in Hk as [Hadd Hrem]. split.
  - intros Hnone Hsome.
    pose proof (forallb_elem_of _ _ k' Hadd (elem_of_keys _ _ Hsome)) as Hk'. cbn in Hk'.
    rewrite bool_decide_eq_false_2 in Hk' by (rewrite Hnone; by intros [? ?]).
    cbn in Hk'. by apply negb_true_iff, bool_decide_eq_false in Hk'.
  - intros Hnone Hsome.
    pose proof (forallb_elem_of _ _ k' Hrem (elem_of_keys _ _ Hsome)) as Hk'. cbn in Hk'.
    rewrite bool_decide_eq_false_2 in Hk' by (rewrite Hnone; by intros [? ?]).
    cbn in Hk'. by apply negb_true_iff, bool_decide_eq_false in Hk'.
Qed.

Lemma inOrder_perm l : inOrder l ≡ₚ l.
Proof. done. Qed.

Lemma map_values_forallb (m : gmap string Value) (P : Value → bool) :
  forallb (λ kv, P kv.2) (map_to_list m) = true →
  ∀ k v, m !! k = Some v → P v = true.
Proof.
  intros H k v Hk%elem_of_map_to_list. by apply (forallb_elem_of _ _ (k, v) H).
Qed.

Lemma map_common_forallb (originMap targetMap : gmap string Value) (Q : Value → Value → bool) :
  forallb (λ kv, match targetMap !! kv.1 with
                 | Some v => Q kv.2 v
                 | None => true
                 end) (map_to_list originMap) = true →
  ∀ k o v, originMap !! k = Some o → targetMap !! k = Some v → Q o v = true.
Proof.
  intros H k o v Ho%elem_of_map_to_list Hv.
  pose proof (forallb_elem_of _ _ (k, o) H Ho) as Hq. cbn in Hq. by rewrite Hv in Hq.
Qed.

Lemma map_target_forallb (m : gmap string Value) fd (n : nat) :
  forallb (λ kv, Value_wf fd true kv.2 && (Value_depth kv.2 <=? n)%nat) (map_to_list m) = true →
  ∀ k v, m !! k = Some v → Value_wf fd true v = true ∧ (Value_depth v ≤ n)%nat.
Proof.
  intros H k v Hk.
  pose proof (map_values_forallb m (λ v, Value_wf fd true v && (Value_depth v <=? n)%nat) H k v Hk)
    as [? Hd]%andb_true_iff.
  split; [done|]. by apply Nat.leb_le.
Qed.

(** ** Reading a returned result backwards *)

Lemma forEach_put_inv {A}
    (f : gmap string Interface * nat → A → outcome (gmap string Interface * nat))
    (act : A → outcome (option (string * Interface))) (l : list A) st st' :
  (∀ st a, a ∈ l → f st a = w ←! act a; Done (put st w)) →
  forEach f l st = Done st' →
  (∀ a, a ∈ l → isDone (act a)) ∧
  st' = foldl write st (omap (fromDone None ∘ act) l).
Proof.
  revert st. induction l as [|a l IH]; intros st Hf Hrun.
  - cbn in Hrun. injection Hrun as <-. split; [by intros a ?%elem_of_nil|done].
  - cbn [forEach] in Hrun. rewrite Hf in Hrun by left.
    destruct (act a) as [w|] eqn:Hw; [|done]. cbn [obind] in Hrun.
    apply IH in Hrun as [Hdone ->]; [|intros; apply Hf; by right].
    split.
    + intros a' [->|Hin]%elem_of_cons; [rewrite Hw; apply isDone_Done|by apply Hdone].
    + cbn [omap list_omap]. unfold compose at 2. rewrite Hw. cbn [fromDone].
      by destruct w as [kx|].
Qed.


Lemma forEach_ext {A S} (f g : S → A → outcome S) (l : list A) s :
  (∀ s a, a ∈ l → f s a = g s a) → forEach f l s = forEach g l s.
Proof.
  revert s. induction l as [|a l IH]; intros s Hfg; [done|].
  cbn. rewrite Hfg by left. destruct (g s a) as [s'|]; [|done]. cbn.
  apply IH. intros; apply Hfg. by right.
Qed.

Section mapDiff_inversion.
Variable formatFloat : nat → spec_float → string.
Variable rangeOrder : list (string * Value) → list (string * Value).
Variable df : FieldDescriptor → Value → Value → outcome (Interface * bool).
Variable descriptor : FieldDescriptor.
Variables originMap targetMap : gmap string Value.

Local Abbreviation targetAct := (targetAct formatFloat df descriptor originMap).
Local Abbreviation originAct := (originAct formatFloat targetMap).
Local Abbreviation mapWrites :=
  (mapWrites formatFloat rangeOrder df descriptor originMap targetMap).

(** When [mapDiff] returns, each iteration of its two loops returned,
    and the result is the map of the writes. *)
Lemma mapDiff_inv res :
  mapDiff_ formatFloat rangeOrder df descriptor originMap targetMap = Done res →
  (∀ kv, kv ∈ rangeOrder (map_to_list targetMap) → isDone (targetAct kv)) ∧
  (∀ kv, kv ∈ rangeOrder (map_to_list originMap) → isDone (originAct kv)) ∧
  res = (IMap (list_to_map (reverse mapWrites)), bool_decide (0 < length mapWrites)).
Proof.
  unfold mapDiff_. intros Hrun.
  destruct (forEach _ (rangeOrder (map_to_list targetMap)) _) as [st|] eqn:Htarget; [|done].
  cbn [obind] in Hrun.
  destruct (forEach _ (rangeOrder (map_to_list originMap)) _) as [[r c]|] eqn:Horigin; [|done].
  cbn [obind] in Hrun. injection Hrun as <-.
  apply (forEach_put_inv _ targetAct) in Htarget as [Ht ->]; cycle 1.
  { intros [resultMap lchanged] [k v] _. unfold targetAct. cbn.
    destruct (originMap !! k) as [o|].
    - destruct (df descriptor o v) as [[val []]|]; done.
    - by destruct v. }
  apply (forEach_put_inv _ originAct) in Horigin as [Ho Hst]; cycle 1.
  { intros [resultMap lchanged] [k v] _. unfold originAct. cbn.
    destruct (targetMap !! k); [done|]. by destruct v. }
  split; [done|]. split; [done|].
  rewrite <- foldl_app, foldl_write_empty in Hst. by injection Hst as -> ->.
Qed.

End mapDiff_inversion.

Section Diff_inversion.
Variable formatFloat : nat → spec_float → string.
Variable rangeOrder : list (string * Value) → list (string * Value).

Local Abbreviation Diff' := (Diff formatFloat rangeOrder).
Local Abbreviation diffField' := (diffField formatFloat rangeOrder).
Local Abbreviation mapDiff' := (mapDiff formatFloat rangeOrder).
Local Abbreviation fieldAct' := (fieldAct formatFloat rangeOrder).
Local Abbreviation DiffWrites' := (DiffWrites formatFloat rangeOrder).

(** When [Diff] returns, every field was diffed, and the result is the
    map of the writes. *)
Lemma Diff_inv fuel a b res :
  Diff' fuel a b = Done res →
  ∃ n, fuel = S n ∧
    (∀ fd, fd ∈ Descriptor_Fields b → isDone (fieldAct' n a b fd)) ∧
    res = (list_to_map (reverse (DiffWrites' n a b)),
           bool_decide (0 < length (DiffWrites' n a b))).
Proof.
  destruct fuel as [|n]; [done|]. intros Hrun. exists n. split; [done|].
  cbn [Diff] in Hrun.
  change (forEach _ (Descriptor_Fields b) (∅, 0))
    with (forEach (Diff_field formatFloat (mapDiff' n) (diffField' n) a b)
            (Descriptor_Fields b) (∅, 0)) in Hrun.
  destruct (forEach _ _ _) as [[d c]|] eqn:Hfields; [|done].
  cbn [obind] in Hrun. injection Hrun as <-.
  apply (forEach_put_inv _ (fieldAct' n a b)) in Hfields as [Hdone Hst];
    [|intros; apply Diff_field_act].
  split; [done|]. rewrite foldl_write_empty in Hst. by injection Hst as -> ->.
Qed.

Lemma Diff_changed_inv fuel a b d :
  Diff' fuel a b = Done (d, true) → d ≠ ∅.
Proof.
  intros (n & _ & _ & [= -> Hc])%Diff_inv. by apply writes_changed.
Qed.

Lemma mapDiff_changed_inv n fd originMap targetMap x :
  mapDiff' n fd originMap targetMap = Done (x, true) → isEntry x.
Proof.
  intros (_ & _ & [= -> Hc])%mapDiff_inv. cbn. by apply writes_changed.
Qed.

Lemma diffField_changed_inv n fd o v x :
  diffField' n fd o v = Done (x, true) → isEntry x.
Proof.
  unfold diffField, diffField_.
  assert (∀ x, (eq ←! DeepEqual o v;
                if negb eq then match v with
                                | VScalar y => Done (IScalar y, true)
                                | _ => Fault NotModelled
                                end
                else Done (INil, false)) = Done (x, true) → isEntry x) as Hprim.
  { intros y. destruct (DeepEqual o v) as [[]|]; cbn; try done.
    destruct v; intros [=]; by subst. }
  case_bool_decide; [|by apply Hprim].
  destruct v as [?|newMsg|?|?], o as [?|oldMsg|?|?]; try (by apply Hprim);
    try (intros [=]; by subst).
  destruct (Diff' n oldMsg newMsg) as [[d []]|] eqn:HD; cbn; intros [=]; subst.
  cbn. by eapply Diff_changed_inv.
Qed.

Lemma fieldAct_Some_inv n a b fd k x :
  fieldAct' n a b fd = Done (Some (k, x)) → k = Name fd ∧ isEntry x.
Proof.
  intros Hact. split; [by eapply fieldAct_key|]. revert Hact. unfold fieldAct.
  destruct (Message_Get b fd); [|done]. destruct (Message_Get a fd); [|done].
  cbn [obind]. case_bool_decide.
  - destruct (fieldMaps _ _ _) as [[originMap targetMap]|]; [|done]. cbn [obind].
    destruct (mapDiff' _ _ _ _) as [[r []]|] eqn:Hmd; cbn; intros [=]; subst.
    by eapply mapDiff_changed_inv.
  - destruct (diffField' _ _ _ _) as [[val []]|] eqn:Hdf; cbn; intros [=]; subst.
    by eapply diffField_changed_inv.
Qed.

End Diff_inversion.

(** ** The maps of a repeated field *)

Lemma Message_Get_missing m fd :
  fd ∉ Descriptor_Fields m → Message_Get m fd = Fault Panic.
Proof.
  unfold Descriptor_Fields, Message_Get. induction (Message_fields m) as [|[d v] fs IH]; cbn.
  - done.
  - intros Hnotin. rewrite not_elem_of_cons in Hnotin. destruct Hnotin as [Hne Hnotin].
    rewrite bool_decide_eq_false_2 by done. by apply IH.
Qed.

Lemma listToMap_size l : ∀ i m,
  (∀ j : nat, m !! Itoa (Z.of_nat (i + j)) = None) →
  size (listToMap i l m) = (length l + size m)%nat.
Proof.
  induction l as [|x l IH]; intros i m Hfresh; [done|].
  cbn [listToMap length]. rewrite IH.
  - rewrite map_size_insert_None; [lia|]. specialize (Hfresh 0%nat).
    by rewrite Nat.add_0_r in Hfresh.
  - intros j. rewrite lookup_insert_ne.
    + replace (S i + j)%nat with (i + S j)%nat by lia. apply Hfresh.
    + intros Heq%(inj Itoa). lia.
Qed.

Lemma rangeToMap_snoc formatFloat mp key v :
  rangeToMap formatFloat (mp ++ [(key, v)]) =
  <[Scalar_String formatFloat key := v]> (rangeToMap formatFloat mp).
Proof. unfold rangeToMap. by rewrite foldl_app. Qed.

Lemma Scalar_String_inj formatFloat x y :
  isKey x = true → sameGoType x y = true →
  Scalar_String formatFloat x = Scalar_String formatFloat y → x = y.
Proof.
  destruct x as [[]|?|?|?|?|?|?|?|?|?], y as [[]|?|?|?|?|?|?|?|?|?]; try done; cbn;
    intros _ _ Heq; try (by apply (inj pretty) in Heq; subst); by subst.
Qed.

Lemma key_strings_NoDup formatFloat (keys : list Scalar) :
  NoDup keys → (∀ k, k ∈ keys → isKey k = true) →
  (∀ k k', k ∈ keys → k' ∈ keys → sameGoType k k' = true) →
  NoDup (Scalar_String formatFloat <$> keys).
Proof.
  intros Hnd Hkey Hty. apply NoDup_fmap_2_strong; [|done].
  intros x y Hx Hy. apply Scalar_String_inj; auto.
Qed.

Lemma rangeToMap_NoDup_lookup formatFloat mp k v :
  NoDup (Scalar_String formatFloat <$> mp.*1) →
  (∃ key, (key, v) ∈ mp ∧ k = Scalar_String formatFloat key) →
  rangeToMap formatFloat mp !! k = Some v.
Proof.
  revert k v. induction mp as [|[key x] mp IH] using rev_ind; intros k v Hnd.
  - by intros (key & ?%elem_of_nil & _).
  - rewrite !fmap_app in Hnd. apply NoDup_app in Hnd as (Hmp & Hfresh & _).
    rewrite rangeToMap_snoc. intros (key' & [Hin|Hin]%elem_of_app & ->).
    + rewrite lookup_insert_ne; [apply IH; [done|by exists key']|].
      intros Heq. destruct (Hfresh (Scalar_String formatFloat key')).
      * apply list_elem_of_fmap. exists key'. split; [done|].
        apply list_elem_of_fmap. by exists (key', v).
      * rewrite <- Heq. cbn. left.
    + apply list_elem_of_singleton in Hin. injection Hin as -> ->.
      apply lookup_insert_eq.
Qed.

Lemma rangeToMap_NoDup_size formatFloat mp :
  NoDup (Scalar_String formatFloat <$> mp.*1) →
  size (rangeToMap formatFloat mp) = length mp.
Proof.
  induction mp as [|[key x] mp IH] using rev_ind; intros Hnd; [done|].
  rewrite !fmap_app in Hnd. apply NoDup_app in Hnd as (Hmp & Hfresh & _).
  rewrite rangeToMap_snoc, length_app, map_size_insert_None, (IH Hmp); [cbn; lia|].
  destruct (rangeToMap formatFloat mp !! Scalar_String formatFloat key) as [v|] eqn:Hlook;
    [|done].
  apply rangeToMap_elem in Hlook as (key' & Hin & Heq).
  destruct (Hfresh (Scalar_String formatFloat key)).
  - rewrite Heq. apply list_elem_of_fmap. exists key'. split; [done|].
    apply list_elem_of_fmap. by exists (key', v).
  - cbn. left.
Qed.

Section mapDiff_always.
Variable formatFloat : nat → spec_float → string.
Variable rangeOrder : list (string * Value) → list (string * Value).
Hypothesis rangeOrder_perm : ∀ l, rangeOrder l ≡ₚ l.
Variable df : FieldDescriptor → Value → Value → outcome (Interface * bool).
Variable descriptor : FieldDescriptor.
Variables originMap targetMap : gmap string Value.

Local Abbreviation stored := (stored formatFloat).
Local Abbreviation targetAct := (targetAct formatFloat df descriptor originMap).
Local Abbreviation originAct := (originAct formatFloat targetMap).
Local Abbreviation mapWrites :=
  (mapWrites formatFloat rangeOrder df descriptor originMap targetMap).

Hypothesis origin_elems : ∀ k v, originMap !! k = Some v → isElem v = true.
Hypothesis target_elems : ∀ k v, targetMap !! k = Some v → isElem v = true.
Hypothesis df_done : ∀ k o v,
  originMap !! k = Some o → targetMap !! k = Some v → isDone (df descriptor o v).

(** The writes of the second loop come last: the entry of a removed key
    is never overwritten. *)
Lemma mapWrites_removed_always k v :
  originMap !! k = Some v → targetMap !! k = None →
  (list_to_map (reverse mapWrites) : gmap string Interface) !! ("-" +:+ k)
  = Some (stored v).
Proof.
  intros Ho Ht. unfold mapWrites. rewrite reverse_app, list_to_map_app.
  apply lookup_union_Some_l. apply writes_lookup.
  - apply list_elem_of_omap. exists (k, v).
    split; [by apply (elem_of_rangeOrder rangeOrder rangeOrder_perm)|].
    unfold compose, originAct. cbn. by rewrite Ht, (origin_elems k v Ho).
  - intros y ([k' v'] & Hin & Hw)%list_elem_of_omap.
    apply (elem_of_rangeOrder rangeOrder rangeOrder_perm) in Hin.
    unfold compose in Hw.
    destruct (originAct (k', v')) as [w|] eqn:Hact; cbn in Hw; [|done]. subst w.
    apply originAct_Some in Hact as (_ & <-%removed_key_inj & ->). congruence.
Qed.

(** An added key always leaves an entry under its marker. *)
Lemma mapWrites_added_always k v :
  targetMap !! k = Some v → originMap !! k = None →
  is_Some ((list_to_map (reverse mapWrites) : gmap string Interface) !! ("+" +:+ k)).
Proof.
  intros Ht Ho.
  destruct ((list_to_map (reverse mapWrites) : gmap string Interface) !! ("+" +:+ k))
    as [x|] eqn:Hlook; [by exists x|].
  apply not_elem_of_list_to_map_2 in Hlook. destruct Hlook.
  apply list_elem_of_fmap. exists ("+" +:+ k, stored v). split; [done|].
  rewrite elem_of_reverse.
  apply (elem_of_mapWrites formatFloat rangeOrder rangeOrder_perm); try done.
  left. exists k, v. split; [done|]. unfold targetAct. cbn.
  by rewrite Ho, (target_elems k v Ht).
Qed.

End mapDiff_always.

(** ** The order of iteration *)

Lemma plainKey_not_marker k k' :
  plainKey k = true → k ≠ "+" +:+ k' ∧ k ≠ "-" +:+ k'.
Proof.
  destruct k as [|c s]; cbn; [by split|].
  intros H%negb_true_iff%bool_decide_eq_false.
  split; intros [= -> _]; apply H; [by left|by right].
Qed.

Lemma Message_plainKeys_field formatFloat m fd v :
  Message_plainKeys formatFloat m = true → (fd, v) ∈ Message_fields m →
  Value_plainKeys formatFloat v = true.
Proof. destruct m as [n fs]. cbn. intros H Hin. by apply (forallb_elem_of _ _ _ H Hin). Qed.

Lemma Value_plainKeys_list formatFloat l x :
  Value_plainKeys formatFloat (VList l) = true → x ∈ l →
  Value_plainKeys formatFloat x = true.
Proof. cbn. intros H Hin. by apply (forallb_elem_of _ _ _ H Hin). Qed.

Lemma Value_plainKeys_map formatFloat (l : list (Scalar * Value)) k x :
  Value_plainKeys formatFloat (VMap l) = true → (k, x) ∈ l →
  plainKey (Scalar_String formatFloat k) = true ∧ Value_plainKeys formatFloat x = true.
Proof.
  cbn. intros H Hin. pose proof (forallb_elem_of _ _ _ H Hin) as Hk. cbn in Hk.
  by apply andb_true_iff in Hk.
Qed.

(** The maps of a field whose keys are plain never collide, and their
    elements have plain keys in turn. *)
Lemma fieldMaps_plain formatFloat va vb originMap targetMap :
  Value_plainKeys formatFloat va = true → Value_plainKeys formatFloat vb = true →
  fieldMaps formatFloat va vb = Done (originMap, targetMap) →
  no_collision originMap targetMap ∧
  (∀ k o, originMap !! k = Some o → Value_plainKeys formatFloat o = true) ∧
  (∀ k v, targetMap !! k = Some v → Value_plainKeys formatFloat v = true).
Proof.
  intros Ha Hb. destruct va as [?|?|la|la], vb as [?|?|lb|lb]; try done;
    cbn [fieldMaps]; intros [= <- <-]; split_and!;
    try (intros k k' [? Hk]; by rewrite lookup_empty in Hk);
    try (intros k o Hk; by rewrite lookup_empty in Hk).
  - apply listToMap_no_collision.
  - intros k o Hk%listToMap_elem. by apply (Value_plainKeys_list formatFloat la).
  - intros k v Hk%listToMap_elem. by apply (Value_plainKeys_list formatFloat lb).
  - intros k k' [o (key & Hin & ->)%rangeToMap_elem] _.
    destruct (Value_plainKeys_map formatFloat la key o Ha Hin) as [Hplain _].
    split; intros _ _; by apply plainKey_not_marker.
  - intros k o (key & Hin & _)%rangeToMap_elem.
    by destruct (Value_plainKeys_map formatFloat la key o Ha Hin).
  - intros k v (key & Hin & _)%rangeToMap_elem.
    by destruct (Value_plainKeys_map formatFloat lb key v Hb Hin).
Qed.

Lemma unsigned_key_plain formatFloat k :
  isUnsignedKey k = true → plainKey (Scalar_String formatFloat k) = true.
Proof.
  assert (∀ z, (0 ≤ z)%Z → plainKey (pretty z) = true) as Hdigits.
  { intros z Hz. destruct (pretty z) as [|c s] eqn:Hp; [done|]. cbn.
    apply negb_true_iff, bool_decide_eq_false. intros Hc.
    apply (Itoa_nat_not_marker (Z.to_nat z) c s Hc).
    unfold Itoa. by rewrite Z2Nat.id. }
  destruct k as [[]|?|?|z|z|?|?|?|?|?]; try done; cbn;
    intros Hz%bool_decide_eq_true; by apply Hdigits.
Qed.

Section mapDiff_orders.
Variable formatFloat : nat → spec_float → string.
Variables rangeOrder rangeOrder' : list (string * Value) → list (string * Value).
Hypothesis rangeOrder_perm : ∀ l, rangeOrder l ≡ₚ l.
Hypothesis rangeOrder_perm' : ∀ l, rangeOrder' l ≡ₚ l.
Variables df df' : FieldDescriptor → Value → Value → outcome (Interface * bool).
Variable descriptor : FieldDescriptor.
Variables originMap targetMap : gmap string Value.

Hypothesis origin_elems : ∀ k v, originMap !! k = Some v → isElem v = true.
Hypothesis target_elems : ∀ k v, targetMap !! k = Some v → isElem v = true.
Hypothesis df_done : ∀ k o v,
  originMap !! k = Some o → targetMap !! k = Some v → isDone (df descriptor o v).
Hypothesis df_agree : ∀ k o v,
  originMap !! k = Some o → targetMap !! k = Some v →
  df descriptor o v = df' descriptor o v.
Hypothesis no_collide : no_collision originMap targetMap.

Lemma agree_done k o v :
  originMap !! k = Some o → targetMap !! k = Some v → isDone (df' descriptor o v).
Proof. intros Ho Hv. rewrite <- (df_agree k) by done. by apply (df_done k). Qed.

Lemma mapWrites_order_incl key x :
  (list_to_map (reverse
     (mapWrites formatFloat rangeOrder df descriptor originMap targetMap))
     : gmap string Interface) !! key = Some x →
  (list_to_map (reverse
     (mapWrites formatFloat rangeOrder' df' descriptor originMap targetMap))
     : gmap string Interface) !! key = Some x.
Proof.
  intros Hlook.
  apply (mapWrites_inv formatFloat rangeOrder rangeOrder_perm) in Hlook
    as [(k & v & Hv & Ho & -> & ->)|[(k & v & Ho & Hv & -> & ->)|(o & v & Ho & Hv & Hd)]];
    try done.
  - apply (mapWrites_added formatFloat rangeOrder' rangeOrder_perm'); eauto using agree_done.
  - apply (mapWrites_removed formatFloat rangeOrder' rangeOrder_perm'); eauto using agree_done.
  - rewrite (mapWrites_common formatFloat rangeOrder' rangeOrder_perm' df' descriptor
               originMap targetMap origin_elems target_elems agree_done key o v) by done.
    by rewrite <- (df_agree key), Hd.
Qed.

End mapDiff_orders.

Section mapDiff_order.
Variable formatFloat : nat → spec_float → string.
Variables rangeOrder rangeOrder' : list (string * Value) → list (string * Value).
Hypothesis rangeOrder_perm : ∀ l, rangeOrder l ≡ₚ l.
Hypothesis rangeOrder_perm' : ∀ l, rangeOrder' l ≡ₚ l.

(** With no collision, the order in which the two loops of [mapDiff]
    visit the maps does not show in its result. *)
Lemma mapDiff_order df df' descriptor originMap targetMap :
  (∀ k v, originMap !! k = Some v → isElem v = true) →
  (∀ k v, targetMap !! k = Some v → isElem v = true) →
  (∀ k o v, originMap !! k = Some o → targetMap !! k = Some v →
     isDone (df descriptor o v)) →
  (∀ k o v, originMap !! k = Some o → targetMap !! k = Some v →
     df descriptor o v = df' descriptor o v) →
  no_collision originMap targetMap →
  mapDiff_ formatFloat rangeOrder df descriptor originMap targetMap =
  mapDiff_ formatFloat rangeOrder' df' descriptor originMap targetMap.
Proof.
  intros Ho Ht Hdone Hagree Hcol.
  assert (∀ k o v, originMap !! k = Some o → targetMap !! k = Some v →
            isDone (df' descriptor o v)) as Hdone'.
  { intros k o v Hko Hkv. rewrite <- (Hagree k) by done. by apply (Hdone k). }
  rewrite (mapDiff_writes formatFloat rangeOrder rangeOrder_perm) by done.
  rewrite (mapDiff_writes formatFloat rangeOrder' rangeOrder_perm') by done.
  assert ((list_to_map (reverse
             (mapWrites formatFloat rangeOrder df descriptor originMap targetMap))
             : gmap string Interface) =
          list_to_map (reverse
             (mapWrites formatFloat rangeOrder' df' descriptor originMap targetMap)))
    as Hr.
  { apply (anti_symm (⊆)); apply map_subseteq_spec; intros key x.
    - by apply mapWrites_order_incl.
    - apply mapWrites_order_incl; try done.
      intros k o v Hko Hkv. symmetry. by apply (Hagree k). }
  do 2 f_equal; [by rewrite Hr|].
  apply Bool.eq_true_iff_eq. by rewrite !writes_changed, Hr.
Qed.

Local Abbreviation order_ok n :=
  (∀ a b, Message_wf a = true → Message_wf b = true → Message_sameType a b = true →
          (Message_depth b ≤ n)%nat →
          Message_plainKeys formatFloat a = true → Message_plainKeys formatFloat b = true →
          Diff formatFloat rangeOrder n a b = Diff formatFloat rangeOrder' n a b).

Lemma diffField_order n fd o v :
  order_ok n →
  Value_wf fd true o = true → Value_wf fd true v = true →
  Value_sameType o v = true → (Value_depth v ≤ n)%nat →
  Value_plainKeys formatFloat o = true → Value_plainKeys formatFloat v = true →
  diffField formatFloat rangeOrder n fd o v = diffField formatFloat rangeOrder' n fd o v.
Proof.
  intros IH Ho Hv Hty Hdepth Hpo Hpv. unfold diffField, diffField_.
  destruct o as [x|a|?|?], v as [y|b|?|?]; try reflexivity.
  apply Value_wf_message in Ho as [_ Ha]. apply Value_wf_message in Hv as [_ Hb].
  by rewrite (IH a b).
Qed.

Lemma fieldAct_order n a b fd :
  order_ok n →
  Message_wf a = true → Message_wf b = true → Message_sameType a b = true →
  (Message_depth b ≤ S n)%nat →
  Message_plainKeys formatFloat a = true → Message_plainKeys formatFloat b = true →
  fd ∈ Descriptor_Fields b →
  fieldAct formatFloat rangeOrder n a b fd = fieldAct formatFloat rangeOrder' n a b fd.
Proof.
  intros IH Hwa Hwb Hty Hdepth Hpa Hpb Hfd. unfold fieldAct.
  rewrite Message_sameType_unfold in Hty. apply andb_true_iff in Hty as [_ Hty].
  destruct (Message_Get_pair a b fd Hty Hfd) as (va & vb & -> & -> & Hina & Hinb & Hvty).
  cbn [obind].
  pose proof (Message_wf_field a fd va Hwa Hina) as Hva.
  pose proof (Message_wf_field b fd vb Hwb Hinb) as Hvb.
  pose proof (Message_plainKeys_field formatFloat a fd va Hpa Hina) as Hpva.
  pose proof (Message_plainKeys_field formatFloat b fd vb Hpb Hinb) as Hpvb.
  assert (Value_depth vb ≤ n)%nat as Hvd.
  { destruct b as [nb fs]. pose proof (Value_depth_field nb fs fd vb Hinb). lia. }
  case_bool_decide as Hrep; cbn in Hva, Hvb.
  - destruct (fieldMaps_elems formatFloat fd va vb Hva Hvb Hvty)
      as (originMap & targetMap & Hmaps & Ho & Ht & Hot).
    rewrite Hmaps. cbn [obind].
    destruct (fieldMaps_plain formatFloat va vb originMap targetMap Hpva Hpvb Hmaps)
      as (Hcol & Hpo & Hpt).
    unfold mapDiff.
    rewrite (mapDiff_order (diffField formatFloat rangeOrder n)
               (diffField formatFloat rangeOrder' n) fd originMap targetMap); try done.
    + intros k o Hk. eapply Value_wf_elem, Ho, Hk.
    + intros k v Hk. eapply Value_wf_elem, Ht, Hk.
    + intros k o v Hko Hkv. destruct (Ht k v Hkv).
      apply diffField_total; eauto using Diff_total. lia.
    + intros k o v Hko Hkv. destruct (Ht k v Hkv).
      apply diffField_order; eauto. lia.
  - by rewrite diffField_order.
Qed.

End mapDiff_order.

Lemma Diff_unfold formatFloat rangeOrder n a b :
  Diff formatFloat rangeOrder (S n) a b =
  '(diffMessage, changes) ←!
    forEach (Diff_field formatFloat (mapDiff formatFloat rangeOrder n)
               (diffField formatFloat rangeOrder n) a b) (Descriptor_Fields b) (∅, 0);
  Done (diffMessage, bool_decide (0 < changes)).
Proof. reflexivity. Qed.

(** ** Swapping the arguments *)

Lemma SFeqb_sym f g : SFeqb f g = SFeqb g f.
Proof.
  destruct (isNaN f) eqn:Hf, (isNaN g) eqn:Hg;
    try (destruct f, g; done);
    (apply Bool.eq_true_iff_eq; rewrite !SFeqb_spec by (rewrite ?Hf, ?Hg; by intros []);
     split; congruence).
Qed.

Lemma Scalar_DeepEqual_sym x y : Scalar_DeepEqual x y = Scalar_DeepEqual y x.
Proof.
  destruct x as [?|?|?|?|?|f|f|?|[u|]|?], y as [?|?|?|?|?|g|g|?|[w|]|?]; cbn;
    try done; try apply SFeqb_sym;
    try (apply bool_decide_ext; split; congruence).
Qed.

Lemma fields_sameType_descriptors fa fb :
  fields_sameType fa fb = true → fa.*1 = fb.*1.
Proof.
  revert fb. induction fa as [|[da va] fa IH]; intros [|[db vb] fb]; cbn; try done.
  intros [[->%bool_decide_eq_true _]%andb_true_iff Hrest]%andb_true_iff.
  f_equal. by apply IH.
Qed.

Lemma Message_sameType_fields a b :
  Message_sameType a b = true → Descriptor_Fields a = Descriptor_Fields b.
Proof.
  rewrite Message_sameType_unfold. intros [_ H]%andb_true_iff.
  by apply fields_sameType_descriptors.
Qed.

Lemma length_pos_elem {A} (l : list A) : 0 < length l ↔ ∃ x, x ∈ l.
Proof.
  destruct l as [|x l]; cbn.
  - split; [lia|]. by intros [x ?%elem_of_nil].
  - split; [|lia]. intros _. exists x. left.
Qed.

Lemma fieldMaps_swap formatFloat fd va vb originMap targetMap :
  Value_wf fd false va = true → Value_wf fd false vb = true →
  fieldMaps formatFloat va vb = Done (originMap, targetMap) →
  fieldMaps formatFloat vb va = Done (targetMap, originMap).
Proof.
  destruct va as [?|?|la|la], vb as [?|?|lb|lb]; try done; cbn; by intros _ _ [= <- <-].
Qed.

Section mapDiff_swap.
Variable formatFloat : nat → spec_float → string.
Variable rangeOrder : list (string * Value) → list (string * Value).
Hypothesis rangeOrder_perm : ∀ l, rangeOrder l ≡ₚ l.
Variable df : FieldDescriptor → Value → Value → outcome (Interface * bool).
Variable descriptor : FieldDescriptor.
Variables originMap targetMap : gmap string Value.

Hypothesis origin_elems : ∀ k v, originMap !! k = Some v → isElem v = true.
Hypothesis target_elems : ∀ k v, targetMap !! k = Some v → isElem v = true.
Hypothesis df_flag : ∀ k o v,
  originMap !! k = Some o → targetMap !! k = Some v →
  ∃ x x' changed, df descriptor o v = Done (x, changed) ∧
                  df descriptor v o = Done (x', changed).

(** A write of [mapDiff] on the two maps has a counterpart when the maps
    are swapped: an added key becomes a removed one and back, a changed
    key stays changed. *)
Lemma mapWrites_swap kx :
  kx ∈ mapWrites formatFloat rangeOrder df descriptor originMap targetMap →
  ∃ kx', kx' ∈ mapWrites formatFloat rangeOrder df descriptor targetMap originMap.
Proof.
  assert (∀ k o v, originMap !! k = Some o → targetMap !! k = Some v →
            isDone (df descriptor o v)) as Hdone.
  { intros k o v Ho Hv. destruct (df_flag k o v Ho Hv) as (x & _ & c & -> & _).
    apply isDone_Done. }
  assert (∀ k v o, targetMap !! k = Some v → originMap !! k = Some o →
            isDone (df descriptor v o)) as Hdone'.
  { intros k v o Hv Ho. destruct (df_flag k o v Ho Hv) as (_ & x' & c & _ & ->).
    apply isDone_Done. }
  destruct kx as [key x].
  rewrite (elem_of_mapWrites formatFloat rangeOrder rangeOrder_perm) by done.
  intros [(k & v & Hv & Hact)|(k & v & Ho & Hact)].
  - apply targetAct_Some in Hact as [(Ho & _ & _)|(o & Ho & _ & Hd)].
    + exists ("-" +:+ k, stored formatFloat v).
      apply (elem_of_mapWrites formatFloat rangeOrder rangeOrder_perm); try done.
      right. exists k, v. split; [done|]. unfold originAct. cbn.
      by rewrite Ho, (target_elems k v Hv).
    + destruct (df_flag k o v Ho Hv) as (y & y' & c & Hd1 & Hd2).
      rewrite Hd in Hd1. injection Hd1 as <- <-.
      exists (k, y').
      apply (elem_of_mapWrites formatFloat rangeOrder rangeOrder_perm); try done.
      left. exists k, o. split; [done|]. unfold targetAct. cbn. by rewrite Hv, Hd2.
  - apply originAct_Some in Hact as (Hv & _ & _).
    exists ("+" +:+ k, stored formatFloat v).
    apply (elem_of_mapWrites formatFloat rangeOrder rangeOrder_perm); try done.
    left. exists k, v. split; [done|]. unfold targetAct. cbn.
    by rewrite Hv, (origin_elems k v Ho).
Qed.

End mapDiff_swap.

Lemma fields_sameType_sym fa fb :
  (∀ fd va vb, (fd, va) ∈ fa → (fd, vb) ∈ fb →
     Value_sameType va vb = true → Value_sameType vb va = true) →
  fields_sameType fa fb = true → fields_sameType fb fa = true.
Proof.
  revert fb. induction fa as [|[da va] fa IH]; intros [|[db vb] fb]; cbn; try done.
  intros Hsym [[->%bool_decide_eq_true Hty]%andb_true_iff Hrest]%andb_true_iff.
  rewrite bool_decide_eq_true_2 by done. cbn.
  rewrite (Hsym db va vb) by (done || left). cbn.
  apply IH; [|done]. intros fd x y Hx Hy. apply (Hsym fd); by right.
Qed.

(** Being of one type is symmetric. *)
Lemma Message_sameType_sym n : ∀ a b,
  Message_wf a = true → Message_wf b = true → (Message_depth a ≤ n)%nat →
  Message_sameType a b = true → Message_sameType b a = true.
Proof.
  induction n as [|n IH]; intros a b Hwa Hwb Hdepth.
  { destruct a. cbn in Hdepth. lia. }
  assert (∀ fd fd' x y, Value_wf fd true x = true → Value_wf fd' true y = true →
            (Value_depth x ≤ n)%nat →
            Value_sameType x y = true → Value_sameType y x = true) as Helem.
  { intros fd fd' [?|ma|?|?] [?|mb|?|?] Hx Hy Hd; try done.
    apply Value_wf_message in Hx as [_ Hma]. apply Value_wf_message in Hy as [_ Hmb].
    by apply IH. }
  rewrite !Message_sameType_unfold.
  intros [Hname Hfields]%andb_true_iff. apply andb_true_iff. split.
  { apply bool_decide_eq_true in Hname. by apply bool_decide_eq_true_2. }
  apply fields_sameType_sym; [|done].
  intros fd va vb Hina Hinb.
  pose proof (Message_wf_field a fd va Hwa Hina) as Hva.
  pose proof (Message_wf_field b fd vb Hwb Hinb) as Hvb.
  assert (Value_depth va ≤ n)%nat as Hvd.
  { destruct a as [na fs]. pose proof (Value_depth_field na fs fd va Hina). lia. }
  destruct (negb (bool_decide (Cardinality fd = Repeated))).
  - by apply (Helem fd fd).
  - destruct va as [?|?|la|la], vb as [?|?|lb|lb]; try done; intros H.
    + apply forallb_forall. intros y Hy%list_elem_of_In.
      apply forallb_forall. intros x Hx%list_elem_of_In.
      apply (Helem fd fd); [by apply (Value_wf_list fd la)|by apply (Value_wf_list fd lb)| |].
      * pose proof (Value_depth_list la x Hx). lia.
      * by apply (Value_sameType_list la lb).
    + apply forallb_forall. intros [ky y] Hy%list_elem_of_In.
      apply forallb_forall. intros [kx x] Hx%list_elem_of_In. cbn.
      apply (Helem fd fd);
        [by apply (Value_wf_map fd la kx)|by apply (Value_wf_map fd lb ky)| |].
      * pose proof (Value_depth_map la kx x Hx). lia.
      * by apply (Value_sameType_map la lb kx x ky y).
Qed.

Section Diff_swap.
Variable formatFloat : nat → spec_float → string.
Variable rangeOrder : list (string * Value) → list (string * Value).
Hypothesis rangeOrder_perm : ∀ l, rangeOrder l ≡ₚ l.

Local Abbreviation swap_ok n :=
  (∀ a b, Message_wf a = true → Message_wf b = true →
          Message_sameType a b = true → Message_sameType b a = true →
          (Message_depth a ≤ n)%nat → (Message_depth b ≤ n)%nat →
          ∃ d d' changed, Diff formatFloat rangeOrder n a b = Done (d, changed) ∧
                          Diff formatFloat rangeOrder n b a = Done (d', changed)).

Lemma diffField_swap n fd o v :
  swap_ok n →
  Value_wf fd true o = true → Value_wf fd true v = true →
  Value_sameType o v = true → Value_sameType v o = true →
  (Value_depth o ≤ n)%nat → (Value_depth v ≤ n)%nat →
  ∃ x x' changed, diffField formatFloat rangeOrder n fd o v = Done (x, changed) ∧
                  diffField formatFloat rangeOrder n fd v o = Done (x', changed).
Proof.
  intros IH Ho Hv Hty Hty' Hdo Hdv. unfold diffField, diffField_.
  destruct o as [x|a|?|?], v as [y|b|?|?]; try done.
  - cbn. rewrite (Scalar_DeepEqual_sym y x).
    case_bool_decide; destruct (Scalar_DeepEqual x y); cbn; by eexists _, _, _.
  - apply Value_wf_message in Ho as [_ Ha]. apply Value_wf_message in Hv as [-> Hb].
    cbn. destruct (IH a b Ha Hb Hty Hty' Hdo Hdv) as (d & d' & c & -> & ->).
    destruct c; cbn; by eexists _, _, _.
Qed.

Lemma mapDiff_swap n fd originMap targetMap :
  swap_ok n →
  (∀ k o, originMap !! k = Some o →
     Value_wf fd true o = true ∧ (Value_depth o ≤ n)%nat) →
  (∀ k v, targetMap !! k = Some v →
     Value_wf fd true v = true ∧ (Value_depth v ≤ n)%nat) →
  (∀ k o v, originMap !! k = Some o → targetMap !! k = Some v →
     Value_sameType o v = true ∧ Value_sameType v o = true) →
  ∃ r r' changed,
    mapDiff formatFloat rangeOrder n fd originMap targetMap = Done (r, changed) ∧
    mapDiff formatFloat rangeOrder n fd targetMap originMap = Done (r', changed).
Proof.
  intros IH Ho Ht Hty.
  assert (∀ k o, originMap !! k = Some o → isElem o = true) as Hoe.
  { intros k o Hk. destruct (Ho k o Hk). by eapply Value_wf_elem. }
  assert (∀ k v, targetMap !! k = Some v → isElem v = true) as Hte.
  { intros k v Hk. destruct (Ht k v Hk). by eapply Value_wf_elem. }
  assert (∀ k o v, originMap !! k = Some o → targetMap !! k = Some v →
            ∃ x x' changed,
              diffField formatFloat rangeOrder n fd o v = Done (x, changed) ∧
              diffField formatFloat rangeOrder n fd v o = Done (x', changed)) as Hflag.
  { intros k o v Hko Hkv. destruct (Ho k o Hko), (Ht k v Hkv), (Hty k o v Hko Hkv).
    by apply diffField_swap. }
  assert (∀ k v o, targetMap !! k = Some v → originMap !! k = Some o →
            ∃ x x' changed,
              diffField formatFloat rangeOrder n fd v o = Done (x, changed) ∧
              diffField formatFloat rangeOrder n fd o v = Done (x', changed)) as Hflag'.
  { intros k v o Hkv Hko. destruct (Hflag k o v Hko Hkv) as (x & x' & c & ? & ?).
    by exists x', x, c. }
  unfold mapDiff.
  rewrite (mapDiff_writes formatFloat rangeOrder rangeOrder_perm _ fd originMap targetMap);
    try done; cycle 1.
  { intros k o v Hko Hkv. destruct (Hflag k o v Hko Hkv) as (x & _ & c & -> & _).
    apply isDone_Done. }
  rewrite (mapDiff_writes formatFloat rangeOrder rangeOrder_perm _ fd targetMap originMap);
    try done; cycle 1.
  { intros k v o Hkv Hko. destruct (Hflag k o v Hko Hkv) as (_ & x' & c & _ & ->).
    apply isDone_Done. }
  eexists _, _, _. split; [done|]. do 2 f_equal.
  apply bool_decide_ext. rewrite !length_pos_elem. split; intros [kx Hkx].
  - by apply (mapWrites_swap formatFloat rangeOrder rangeOrder_perm _ fd
                targetMap originMap Hte Hoe Hflag' kx).
  - by apply (mapWrites_swap formatFloat rangeOrder rangeOrder_perm _ fd
                originMap targetMap Hoe Hte Hflag kx).
Qed.

Lemma fieldAct_swap n a b fd :
  swap_ok n →
  Message_wf a = true → Message_wf b = true →
  Message_sameType a b = true → Message_sameType b a = true →
  (Message_depth a ≤ S n)%nat → (Message_depth b ≤ S n)%nat →
  fd ∈ Descriptor_Fields b →
  ∃ w w', fieldAct formatFloat rangeOrder n a b fd = Done w ∧
          fieldAct formatFloat rangeOrder n b a fd = Done w' ∧
          (is_Some w ↔ is_Some w').
Proof.
  intros IH Hwa Hwb Hty Hty' Hda Hdb Hfd. unfold fieldAct.
  rewrite Message_sameType_unfold in Hty. apply andb_true_iff in Hty as [_ Hty].
  rewrite Message_sameType_unfold in Hty'. apply andb_true_iff in Hty' as [_ Hty'].
  destruct (Message_Get_pair a b fd Hty Hfd) as (va & vb & Hga & Hgb & Hina & Hinb & Hvty).
  assert (fd ∈ Descriptor_Fields a) as Hfd'.
  { apply list_elem_of_fmap. by exists (fd, va). }
  destruct (Message_Get_pair b a fd Hty' Hfd') as (vb' & va' & Hgb' & Hga' & _ & _ & Hvty').
  rewrite Hgb in Hgb'. injection Hgb' as <-. rewrite Hga in Hga'. injection Hga' as <-.
  rewrite Hga, Hgb. cbn [obind].
  pose proof (Message_wf_field a fd va Hwa Hina) as Hva.
  pose proof (Message_wf_field b fd vb Hwb Hinb) as Hvb.
  assert (Value_depth va ≤ n)%nat as Hvda.
  { destruct a as [na fs]. pose proof (Value_depth_field na fs fd va Hina). lia. }
  assert (Value_depth vb ≤ n)%nat as Hvdb.
  { destruct b as [nb fs]. pose proof (Value_depth_field nb fs fd vb Hinb). lia. }
  case_bool_decide as Hrep; cbn in Hva, Hvb.
  - destruct (fieldMaps_elems formatFloat fd va vb Hva Hvb Hvty)
      as (originMap & targetMap & Hmaps & _ & Ht & Hot).
    pose proof (fieldMaps_swap formatFloat fd va vb _ _ Hva Hvb Hmaps) as Hmaps'.
    destruct (fieldMaps_elems formatFloat fd vb va Hvb Hva Hvty')
      as (targetMap' & originMap' & Hmaps'' & _ & Ho & Hto).
    rewrite Hmaps' in Hmaps''. injection Hmaps'' as <- <-.
    rewrite Hmaps, Hmaps'. cbn [obind].
    destruct (mapDiff_swap n fd originMap targetMap IH) as (r & r' & c & -> & ->).
    + intros k o Hk. destruct (Ho k o Hk). split; [done|lia].
    + intros k v Hk. destruct (Ht k v Hk). split; [done|lia].
    + intros k o v Hko Hkv. split; [by apply (Hot k)|by apply (Hto k)].
    + cbn. eexists _, _. split; [done|]. split; [done|].
      destruct c; split; intros [? ?]; done.
  - destruct (diffField_swap n fd va vb IH Hva Hvb Hvty Hvty' Hvda Hvdb)
      as (x & x' & c & -> & ->).
    cbn. eexists _, _. split; [done|]. split; [done|].
    destruct c; split; intros [? ?]; done.
Qed.

End Diff_swap.

Section Diff_swapped.
Variable formatFloat : nat → spec_float → string.
Variable rangeOrder : list (string * Value) → list (string * Value).
Hypothesis rangeOrder_perm : ∀ l, rangeOrder l ≡ₚ l.

Lemma Diff_swap_flag fuel a b :
  Message_wf a = true → Message_wf b = true →
  Message_sameType a b = true → Message_sameType b a = true →
  (Message_depth a ≤ fuel)%nat → (Message_depth b ≤ fuel)%nat →
  ∃ d d' changed, Diff formatFloat rangeOrder fuel a b = Done (d, changed) ∧
                  Diff formatFloat rangeOrder fuel b a = Done (d', changed).
Proof.
  revert a b. induction fuel as [|n IH]; intros a b Hwa Hwb Hty Hty' Hda Hdb.
  - destruct b. cbn in Hdb. lia.
  - assert (∀ a b, Message_wf a = true → Message_wf b = true →
              Message_sameType a b = true → Message_sameType b a = true →
              (Message_depth a ≤ S n)%nat → (Message_depth b ≤ S n)%nat →
              ∀ kx, kx ∈ DiffWrites formatFloat rangeOrder n a b →
              ∃ kx', kx' ∈ DiffWrites formatFloat rangeOrder n b a) as Hswap.
    { clear a b Hwa Hwb Hty Hty' Hda Hdb.
      intros a b Hwa Hwb Hty Hty' Hda Hdb kx (fd & Hfd & Hw)%list_elem_of_omap.
      destruct (fieldAct_swap formatFloat rangeOrder rangeOrder_perm n a b fd)
        as (w & w' & Hact & Hact' & Hiff); try done.
      unfold compose in Hw. rewrite Hact in Hw. cbn in Hw. subst w.
      destruct Hiff as [[kx' ->] _]; [done|].
      exists kx'. apply list_elem_of_omap. exists fd. split.
      - by rewrite (Message_sameType_fields a b).
      - unfold compose. by rewrite Hact'. }
    rewrite !(Diff_writes formatFloat rangeOrder).
    + eexists _, _, _. split; [done|]. do 2 f_equal.
      apply bool_decide_ext. rewrite !length_pos_elem. split; intros [kx Hkx].
      * by apply (Hswap b a Hwb Hwa Hty' Hty Hdb Hda kx).
      * by apply (Hswap a b Hwa Hwb Hty Hty' Hda Hdb kx).
    + intros fd Hfd. apply fieldAct_total; auto using Diff_total.
    + intros fd Hfd. apply fieldAct_total; auto using Diff_total.
Qed.

End Diff_swapped.

Lemma Scalar_DeepEqual_nan x y :
  Scalar_isNaN y = true → Scalar_DeepEqual x y = false.
Proof.
  destruct y as [?|?|?|?|?|g|g|?|?|?]; try done; cbn; intros Hnan;
    destruct g; try done; destruct x as [?|?|?|?|?|f|f|?|[?|]|?]; try done;
    by destruct f.
Qed.

(** ** Appending to a list *)

Section list_append.
Variable formatFloat : nat → spec_float → string.
Variable rangeOrder : list (string * Value) → list (string * Value).
Hypothesis rangeOrder_perm : ∀ l, rangeOrder l ≡ₚ l.

Lemma Diff_same_ok n : same_ok formatFloat rangeOrder n.
Proof.
  induction n as [|n IH]; intros m Hwf Hnan Hdepth.
  - destruct m. cbn in Hdepth. lia.
  - assert (∀ fd, fd ∈ Descriptor_Fields m →
              fieldAct formatFloat rangeOrder n m m fd = Done None) as Hfields.
    { intros fd Hfd. by apply fieldAct_same. }
    rewrite Diff_writes.
    + unfold DiffWrites. rewrite omap_none; [done|].
      intros fd Hfd. unfold compose. by rewrite Hfields.
    + intros fd Hfd. rewrite Hfields by done. apply isDone_Done.
Qed.

Lemma listToMap_append_lookup lo v (i : nat) x :
  listToMap 0 (lo ++ [v]) ∅ !! Itoa (Z.of_nat i) = Some x ↔
  lo !! i = Some x ∨ (i = length lo ∧ x = v).
Proof.
  rewrite listToMap_lookup. split.
  - intros [Hl|[Hge Hr]]%lookup_app_Some; [by left|right].
    destruct (i - length lo)%nat as [|j] eqn:E; [|by destruct j].
    cbn in Hr. injection Hr as <-. split; [lia|done].
  - intros [Hl|[-> ->]]; [by apply lookup_app_l_Some|].
    rewrite lookup_app_r by lia. by rewrite Nat.sub_diag.
Qed.

(** The per-key diff of a list and the list with one element appended:
    one added index; and the other way round: one removed index. *)
Lemma mapDiff_append n fd lo v :
  (∀ o, o ∈ lo → Value_wf fd true o = true ∧ Value_nanFree o = true ∧
                 (Value_depth o ≤ n)%nat) →
  isElem v = true →
  mapDiff formatFloat rangeOrder n fd (listToMap 0 lo ∅) (listToMap 0 (lo ++ [v]) ∅)
  = Done (IMap {["+" +:+ Itoa (Z.of_nat (length lo)) := stored formatFloat v]}, true) ∧
  mapDiff formatFloat rangeOrder n fd (listToMap 0 (lo ++ [v]) ∅) (listToMap 0 lo ∅)
  = Done (IMap {["-" +:+ Itoa (Z.of_nat (length lo)) := stored formatFloat v]}, true).
Proof.
  intros Hlo Hv.
  assert (∀ k o, listToMap 0 lo ∅ !! k = Some o → isElem o = true) as Hoe.
  { intros k o Hk%listToMap_elem. destruct (Hlo o Hk) as (? & _). by eapply Value_wf_elem. }
  assert (∀ k o, listToMap 0 (lo ++ [v]) ∅ !! k = Some o → isElem o = true) as Hte.
  { intros k o [Hk| ->%list_elem_of_singleton]%listToMap_elem%elem_of_app; [|done].
    destruct (Hlo o Hk) as (? & _). by eapply Value_wf_elem. }
  assert (∀ o, o ∈ lo → ∃ r, diffField formatFloat rangeOrder n fd o o = Done (r, false))
    as Hsame.
  { intros o Ho. destruct (Hlo o Ho) as (? & ? & ?).
    apply (diffField_same formatFloat rangeOrder); auto using Diff_same_ok. }
  assert (∀ k o x, listToMap 0 lo ∅ !! k = Some o →
            listToMap 0 (lo ++ [v]) ∅ !! k = Some x →
            x = o ∧ ∃ r, diffField formatFloat rangeOrder n fd o o = Done (r, false))
    as Hcommon.
  { intros k o x Ho Hx. pose proof (listToMap_elem _ _ _ Ho) as Hin.
    apply listToMap_key in Ho as (i & -> & Hi).
    apply listToMap_append_lookup in Hx as [Hx|[-> _]].
    - split; [congruence|by apply Hsame].
    - apply lookup_lt_Some in Hi. lia. }
  assert (listToMap 0 lo ∅ !! Itoa (Z.of_nat (length lo)) = None) as Hlast.
  { rewrite listToMap_lookup. by apply lookup_ge_None. }
  assert (listToMap 0 (lo ++ [v]) ∅ !! Itoa (Z.of_nat (length lo)) = Some v) as Hlast'.
  { apply listToMap_append_lookup. by right. }
  split.
  - unfold mapDiff.
    rewrite (mapDiff_writes formatFloat rangeOrder rangeOrder_perm); try done; cycle 1.
    { intros k o x Ho Hx. destruct (Hcommon k o x Ho Hx) as (-> & r & ->).
      apply isDone_Done. }
    set (W := mapWrites _ _ _ _ _ _).
    assert ((list_to_map (reverse W) : gmap string Interface) =
            {["+" +:+ Itoa (Z.of_nat (length lo)) := stored formatFloat v]}) as Hr.
    { apply map_eq. intros key.
      destruct (decide (key = "+" +:+ Itoa (Z.of_nat (length lo)))) as [->|Hne].
      - rewrite lookup_singleton_eq.
        apply (mapWrites_added formatFloat rangeOrder rangeOrder_perm); try done.
        + intros k o x Ho Hx. destruct (Hcommon k o x Ho Hx) as (-> & r & ->).
          apply isDone_Done.
        + apply listToMap_no_collision.
      - rewrite lookup_singleton_ne by done.
        destruct (list_to_map (reverse W) !! key) as [x|] eqn:Hlook; [|done].
        apply writes_lookup_inv in Hlook.
        apply (elem_of_mapWrites formatFloat rangeOrder rangeOrder_perm) in Hlook; try done;
          cycle 1.
        { intros k o y Ho Hy. destruct (Hcommon k o y Ho Hy) as (-> & r & ->).
          apply isDone_Done. }
        destruct Hlook as [(k & y & Hy & Hact)|(k & y & Ho & Hact)].
        + apply targetAct_Some in Hact as [(Ho & -> & _)|(o & Ho & _ & Hd)].
          * apply listToMap_key in Hy as (i & -> & Hi). rewrite listToMap_lookup in Ho.
            apply lookup_ge_None in Ho. apply lookup_lt_Some in Hi.
            rewrite length_app in Hi. cbn in Hi. destruct Hne. do 3 f_equal. lia.
          * destruct (Hcommon k o y Ho Hy) as (-> & r & Hr). congruence.
        + apply originAct_Some in Hact as (Hy & _ & _).
          apply listToMap_key in Ho as (i & -> & Hi).
          assert (listToMap 0 (lo ++ [v]) ∅ !! Itoa (Z.of_nat i) = Some y) as Hy'.
          { apply listToMap_append_lookup. by left. }
          congruence. }
    rewrite Hr. do 2 f_equal. apply writes_changed. rewrite Hr.
    apply insert_non_empty.
  - unfold mapDiff.
    rewrite (mapDiff_writes formatFloat rangeOrder rangeOrder_perm); try done; cycle 1.
    { intros k x o Hx Ho. destruct (Hcommon k o x Ho Hx) as (-> & r & ->).
      apply isDone_Done. }
    set (W := mapWrites _ _ _ _ _ _).
    assert ((list_to_map (reverse W) : gmap string Interface) =
            {["-" +:+ Itoa (Z.of_nat (length lo)) := stored formatFloat v]}) as Hr.
    { apply map_eq. intros key.
      destruct (decide (key = "-" +:+ Itoa (Z.of_nat (length lo)))) as [->|Hne].
      - rewrite lookup_singleton_eq.
        apply (mapWrites_removed formatFloat rangeOrder rangeOrder_perm); try done.
        + intros k x o Hx Ho. destruct (Hcommon k o x Ho Hx) as (-> & r & ->).
          apply isDone_Done.
        + apply listToMap_no_collision.
      - rewrite lookup_singleton_ne by done.
        destruct (list_to_map (reverse W) !! key) as [x|] eqn:Hlook; [|done].
        apply writes_lookup_inv in Hlook.
        apply (elem_of_mapWrites formatFloat rangeOrder rangeOrder_perm) in Hlook; try done;
          cycle 1.
        { intros k y o Hy Ho. destruct (Hcommon k o y Ho Hy) as (-> & r & ->).
          apply isDone_Done. }
        destruct Hlook as [(k & y & Ho & Hact)|(k & y & Hy & Hact)].
        + apply targetAct_Some in Hact as [(Hy & _ & _)|(o & Hy & _ & Hd)].
          * apply listToMap_key in Ho as (i & -> & Hi).
            assert (listToMap 0 (lo ++ [v]) ∅ !! Itoa (Z.of_nat i) = Some y) as Hy'.
            { apply listToMap_append_lookup. by left. }
            congruence.
          * destruct (Hcommon k y o Ho Hy) as (-> & r & Hr). congruence.
        + apply originAct_Some in Hact as (Ho & -> & _).
          apply listToMap_key in Hy as (i & -> & Hi). rewrite listToMap_lookup in Ho.
          apply lookup_ge_None in Ho. apply lookup_lt_Some in Hi.
          rewrite length_app in Hi. cbn in Hi. destruct Hne. do 3 f_equal. lia. }
    rewrite Hr. do 2 f_equal. apply writes_changed. rewrite Hr.
    apply insert_non_empty.
Qed.

End list_append.

Section Diff_one_entry.
Variable formatFloat : nat → spec_float → string.
Variable rangeOrder : list (string * Value) → list (string * Value).
Hypothesis rangeOrder_perm : ∀ l, rangeOrder l ≡ₚ l.

Lemma Diff_entry n a b fd x :
  Message_wf a = true → Message_wf b = true → Message_sameType a b = true →
  (Message_depth b ≤ S n)%nat → fd ∈ Descriptor_Fields b →
  fieldAct formatFloat rangeOrder n a b fd = Done (Some (Name fd, x)) →
  ∃ d, Diff formatFloat rangeOrder (S n) a b = Done (d, true) ∧ d !! Name fd = Some x.
Proof.
  intros Hwa Hwb Hty Hdepth Hfd Hact.
  destruct (Diff_lookup formatFloat rangeOrder rangeOrder_perm n a b fd)
    as (d & changed & w & HD & Hact' & Hlook); try done.
  rewrite Hact in Hact'. injection Hact' as <-. cbn in Hlook.
  exists d. split; [|done].
  assert (Done (d, changed) =
          Done (list_to_map (reverse (DiffWrites formatFloat rangeOrder n a b)),
                bool_decide (0 < length (DiffWrites formatFloat rangeOrder n a b))))
    as Hwrites.
  { rewrite <- HD. apply Diff_writes. intros. apply fieldAct_total; auto using Diff_total. }
  injection Hwrites as Hd Hc. rewrite HD. do 2 f_equal. rewrite Hc.
  apply writes_changed. rewrite <- Hd.
  intros Hempty. by rewrite Hempty, lookup_empty in Hlook.
Qed.

End Diff_one_entry.

(** ** No change, twice *)

Lemma SFeqb_true_not_nan f g : SFeqb f g = true → isNaN f = false ∧ isNaN g = false.
Proof. destruct f, g; done. Qed.

Lemma SFeqb_trans f g h : SFeqb f g = true → SFeqb g h = true → SFeqb f h = true.
Proof.
  intros Hfg Hgh.
  destruct (SFeqb_true_not_nan f g Hfg) as [Hf Hg].
  destruct (SFeqb_true_not_nan g h Hgh) as [_ Hh].
  apply SFeqb_spec in Hfg; [|rewrite Hf; by intros []].
  apply SFeqb_spec in Hgh; [|rewrite Hg; by intros []].
  apply SFeqb_spec; [rewrite Hf; by intros []|]. congruence.
Qed.

Lemma Scalar_DeepEqual_trans x y z :
  Scalar_DeepEqual x y = true → Scalar_DeepEqual y z = true →
  Scalar_DeepEqual x z = true.
Proof.
  destruct x as [?|?|?|?|?|f|f|?|[u|]|?], y as [?|?|?|?|?|g|g|?|[w|]|?]; try done;
    destruct z as [?|?|?|?|?|h|h|?|[t|]|?]; try done; cbn;
    try apply SFeqb_trans;
    try (rewrite !bool_decide_eq_true; congruence).
  rewrite !bytes_eqb_spec. congruence.
Qed.

Lemma omap_nil_inv {A B} (f : A → option B) (l : list A) :
  omap f l = [] → ∀ a, a ∈ l → f a = None.
Proof.
  induction l as [|x l IH]; [by intros _ a ?%elem_of_nil|].
  cbn. destruct (f x) eqn:Hx; [done|].
  intros Hl a [->|Hin]%elem_of_cons; [done|by apply IH].
Qed.

Lemma unchanged_writes (W : list (string * Interface)) :
  false = bool_decide (0 < length W) → W = [].
Proof.
  intros H. symmetry in H. apply bool_decide_eq_false in H.
  destruct W; [done|cbn in H; lia].
Qed.

Section mapDiff_unchanged.
Variable formatFloat : nat → spec_float → string.
Variable rangeOrder : list (string * Value) → list (string * Value).
Hypothesis rangeOrder_perm : ∀ l, rangeOrder l ≡ₚ l.
Variable df : FieldDescriptor → Value → Value → outcome (Interface * bool).
Variable descriptor : FieldDescriptor.

(** [mapDiff] reports no change exactly when the two maps have the same
    keys and [diffField] reports no change under each of them. *)
Lemma mapDiff_unchanged originMap targetMap :
  (∃ x, mapDiff_ formatFloat rangeOrder df descriptor originMap targetMap = Done (x, false)) ↔
  (∀ k v, targetMap !! k = Some v →
     ∃ o y, originMap !! k = Some o ∧ df descriptor o v = Done (y, false)) ∧
  (∀ k o, originMap !! k = Some o → is_Some (targetMap !! k)).
Proof.
  split.
  - intros [x (Ht & Ho & [= _ HW%unchanged_writes])%mapDiff_inv].
    apply app_eq_nil in HW as [HWt HWo]. split.
    + intros k v Hk%(elem_of_rangeOrder rangeOrder rangeOrder_perm).
      destruct (Ht _ Hk) as [w Hw].
      pose proof (omap_nil_inv _ _ HWt _ Hk) as Hnone. unfold compose in Hnone.
      rewrite Hw in Hnone. cbn in Hnone. subst w. revert Hw.
      unfold targetAct. cbn.
      destruct (originMap !! k) as [o|]; [|destruct (isElem v); intros [=]].
      destruct (df descriptor o v) as [[y []]|] eqn:Hd; cbn; intros [=]. by exists o, y.
    + intros k o Hk%(elem_of_rangeOrder rangeOrder rangeOrder_perm).
      destruct (Ho _ Hk) as [w Hw].
      pose proof (omap_nil_inv _ _ HWo _ Hk) as Hnone. unfold compose in Hnone.
      rewrite Hw in Hnone. cbn in Hnone. subst w. revert Hw.
      unfold originAct. cbn. destruct (targetMap !! k) as [v|]; [by exists v|].
      destruct (isElem o); intros [=].
  - intros [Ht Ho]. exists (IMap ∅). unfold mapDiff_.
    rewrite (forEach_put _ (λ _, Done None)); cycle 1.
    { intros [resultMap lchanged] [k v] Hk%(elem_of_rangeOrder rangeOrder rangeOrder_perm).
      destruct (Ht k v Hk) as (o & y & -> & ->). done. }
    { intros. apply isDone_Done. }
    cbn [obind].
    rewrite (forEach_put _ (λ _, Done None)); cycle 1.
    { intros [resultMap lchanged] [k o] Hk%(elem_of_rangeOrder rangeOrder rangeOrder_perm).
      by destruct (Ho k o Hk) as [v ->]. }
    { intros. apply isDone_Done. }
    cbn [obind]. rewrite <- foldl_app, foldl_write_empty.
    rewrite !omap_none by done. done.
Qed.

End mapDiff_unchanged.

Section Diff_unchanged.
Variable formatFloat : nat → spec_float → string.
Variable rangeOrder : list (string * Value) → list (string * Value).
Hypothesis rangeOrder_perm : ∀ l, rangeOrder l ≡ₚ l.

(** [Diff] reports no change exactly when every field does. *)
Lemma Diff_unchanged n a b :
  (∃ d, Diff formatFloat rangeOrder (S n) a b = Done (d, false)) ↔
  (∀ fd, fd ∈ Descriptor_Fields b → fieldAct formatFloat rangeOrder n a b fd = Done None).
Proof.
  split.
  - intros [d (n' & [= <-] & Hdone & [= _ HW%unchanged_writes])%Diff_inv] fd Hfd.
    destruct (Hdone fd Hfd) as [w Hw]. rewrite Hw. f_equal.
    pose proof (omap_nil_inv _ _ HW fd Hfd) as Hnone. unfold compose in Hnone.
    by rewrite Hw in Hnone.
  - intros Hfields. exists ∅. rewrite Diff_writes.
    + unfold DiffWrites. rewrite omap_none; [done|].
      intros fd Hfd. unfold compose. by rewrite Hfields.
    + intros fd Hfd. rewrite Hfields by done. apply isDone_Done.
Qed.

Lemma Diff_unchanged_empty fuel a b d :
  Diff formatFloat rangeOrder fuel a b = Done (d, false) → d = ∅.
Proof. by intros (n & _ & _ & [= -> ->%unchanged_writes])%Diff_inv. Qed.

Local Abbreviation trans_ok n :=
  (∀ a b c,
     Diff formatFloat rangeOrder n a b = Done (∅, false) →
     Diff formatFloat rangeOrder n b c = Done (∅, false) →
     Diff formatFloat rangeOrder n a c = Done (∅, false)).

Lemma diffField_unchanged_trans n fd x y z r r' :
  trans_ok n →
  diffField formatFloat rangeOrder n fd x y = Done (r, false) →
  diffField formatFloat rangeOrder n fd y z = Done (r', false) →
  ∃ r'', diffField formatFloat rangeOrder n fd x z = Done (r'', false).
Proof.
  intros IH. unfold diffField, diffField_.
  assert (∀ u v w, (eq ←! DeepEqual u v;
                    if negb eq then match v with
                                    | VScalar s => Done (IScalar s, true)
                                    | _ => Fault NotModelled
                                    end
                    else Done (INil, false)) = Done (w, false) →
                   ∃ s t, u = VScalar s ∧ v = VScalar t ∧ Scalar_DeepEqual s t = true)
    as Hprim.
  { intros [s| | |] [t| | |] w; try done. cbn.
    destruct (Scalar_DeepEqual s t) eqn:Hst; [|done]. intros _. by exists s, t. }
  assert (∀ s t u, Scalar_DeepEqual s t = true → Scalar_DeepEqual t u = true →
            ∃ w, (eq ←! DeepEqual (VScalar s) (VScalar u);
                  if negb eq then Done (IScalar u, true)
                  else Done (INil, false)) = Done (w, false)) as Hscalars.
  { intros s t u Hst Htu. cbn. rewrite (Scalar_DeepEqual_trans s t u Hst Htu). cbn.
    by exists INil. }
  case_bool_decide.
  - destruct z as [u|mz| |], y as [t|my| |]; try done;
      try (by intros _ (? & ? & ? & ? & _)%Hprim);
      destruct x as [s|mx| |]; try done;
      try (by intros (? & ? & ? & ? & _)%Hprim).
    + intros (s' & t' & [= <-] & [= <-] & Hst)%Hprim (t'' & u' & [= <-] & [= <-] & Htu)%Hprim.
      by apply (Hscalars s t u).
    + destruct (Diff formatFloat rangeOrder n mx my) as [[d []]|] eqn:Hxy; try done.
      destruct (Diff formatFloat rangeOrder n my mz) as [[d' []]|] eqn:Hyz; try done.
      cbn. intros _ _.
      pose proof (Diff_unchanged_empty _ _ _ _ Hxy) as ->.
      pose proof (Diff_unchanged_empty _ _ _ _ Hyz) as ->.
      rewrite (IH mx my mz Hxy Hyz). cbn. by eexists.
  - intros (s & t & -> & -> & Hst)%Hprim (t' & u & [= <-] & -> & Htu)%Hprim.
    by apply (Hscalars s t u).
Qed.

Lemma mapDiff_unchanged_trans n fd o t u r r' :
  trans_ok n →
  mapDiff formatFloat rangeOrder n fd o t = Done (r, false) →
  mapDiff formatFloat rangeOrder n fd t u = Done (r', false) →
  ∃ r'', mapDiff formatFloat rangeOrder n fd o u = Done (r'', false).
Proof.
  intros IH Hot Htu. unfold mapDiff in *.
  destruct (proj1 (mapDiff_unchanged formatFloat rangeOrder rangeOrder_perm
                     (diffField formatFloat rangeOrder n) fd o t))
    as [Ht Ho]; [by exists r|].
  destruct (proj1 (mapDiff_unchanged formatFloat rangeOrder rangeOrder_perm
                     (diffField formatFloat rangeOrder n) fd t u))
    as [Hu Ht']; [by exists r'|].
  apply (mapDiff_unchanged formatFloat rangeOrder rangeOrder_perm). split.
  - intros k v Hk. destruct (Hu k v Hk) as (tv & y & Htk & Hd).
    destruct (Ht k tv Htk) as (ov & y' & Hok & Hd').
    destruct (diffField_unchanged_trans n fd ov tv v y' y IH Hd' Hd) as [y'' Hd''].
    by exists ov, y''.
  - intros k ov Hk. destruct (Ho k ov Hk) as [tv Htk]. by apply (Ht' k tv).
Qed.

Lemma fieldMaps_trans va vb vc o t t' u :
  fieldMaps formatFloat va vb = Done (o, t) →
  fieldMaps formatFloat vb vc = Done (t', u) →
  fieldMaps formatFloat va vc = Done (o, u) ∧ t' = t ∨
  (fieldMaps formatFloat va vc = Done (∅, ∅) ∧ t' = ∅ ∧ u = ∅).
Proof.
  destruct vc as [?|?|lc|lc], vb as [?|?|lb|lb]; try done; cbn;
    try (intros _ [= <- <-]; by right).
  - destruct va as [?|?|la|la]; try done. intros [= <- <-] [= <- <-]. by left.
  - destruct va as [?|?|la|la]; try done. intros [= <- <-] [= <- <-]. by left.
Qed.

Lemma Message_Get_elem m fd v : Message_Get m fd = Done v → fd ∈ Descriptor_Fields m.
Proof.
  destruct (decide (fd ∈ Descriptor_Fields m)) as [|Hnotin]; [done|].
  by rewrite (Message_Get_missing m fd Hnotin).
Qed.

Lemma fieldAct_unchanged_trans n a b c fd :
  trans_ok n →
  fieldAct formatFloat rangeOrder n a b fd = Done None →
  fieldAct formatFloat rangeOrder n b c fd = Done None →
  fieldAct formatFloat rangeOrder n a c fd = Done None.
Proof.
  intros IH. unfold fieldAct.
  destruct (Message_Get c fd) as [vc|]; [|by intros _ ?].
  destruct (Message_Get b fd) as [vb|]; [|by intros ? _].
  destruct (Message_Get a fd) as [va|]; [|by intros ? _].
  cbn [obind]. case_bool_decide.
  - destruct (fieldMaps formatFloat va vb) as [[o t]|] eqn:Hab; [|by intros ? _].
    destruct (fieldMaps formatFloat vb vc) as [[t' u]|] eqn:Hbc; [|by intros _ ?].
    cbn [obind].
    destruct (mapDiff formatFloat rangeOrder n fd o t) as [[r []]|] eqn:Hot; try done.
    destruct (mapDiff formatFloat rangeOrder n fd t' u) as [[r' []]|] eqn:Htu; try done.
    intros _ _.
    destruct (fieldMaps_trans va vb vc o t t' u Hab Hbc) as [[-> ->]|(-> & -> & ->)];
      cbn [obind].
    + by destruct (mapDiff_unchanged_trans n fd o t u r r' IH Hot Htu) as [r'' ->].
    + destruct (proj2 (mapDiff_unchanged formatFloat rangeOrder rangeOrder_perm
                         (diffField formatFloat rangeOrder n) fd ∅ ∅)) as [x Hx].
      { split; intros k v Hk; by rewrite lookup_empty in Hk. }
      unfold mapDiff. by rewrite Hx.
  - destruct (diffField formatFloat rangeOrder n fd va vb) as [[r []]|] eqn:Hab; try done.
    destruct (diffField formatFloat rangeOrder n fd vb vc) as [[r' []]|] eqn:Hbc; try done.
    intros _ _.
    by destruct (diffField_unchanged_trans n fd va vb vc r r' IH Hab Hbc) as [r'' ->].
Qed.

(** Reporting no change is transitive. *)
Lemma Diff_unchanged_trans n : trans_ok n.
Proof.
  induction n as [|n IH]; intros a b c Hab Hbc; [done|].
  destruct (proj2 (Diff_unchanged n a c)) as [d Hd].
  - intros fd Hfd.
    pose proof (proj1 (Diff_unchanged n b c) (ex_intro _ _ Hbc) fd Hfd) as Hfbc.
    assert (fd ∈ Descriptor_Fields b) as Hfd'.
    { revert Hfbc. unfold fieldAct. destruct (Message_Get c fd); [|done].
      destruct (Message_Get b fd) eqn:Hg; [|done]. intros _. by eapply Message_Get_elem. }
    pose proof (proj1 (Diff_unchanged n a b) (ex_intro _ _ Hab) fd Hfd') as Hfab.
    by apply (fieldAct_unchanged_trans n a b c).
  - by rewrite Hd, (Diff_unchanged_empty _ _ _ _ Hd).
Qed.

End Diff_unchanged.

Lemma backwards_perm l : backwards l ≡ₚ l.
Proof. apply reverse_Permutation. Qed.

(** * Part IV: the properties of the differ, the trace stage and the path *)

Section differ_properties.
Variable formatFloat : nat → spec_float → string.
Variable rangeOrder : list (string * Value) → list (string * Value).
Hypothesis rangeOrder_perm : ∀ l, rangeOrder l ≡ₚ l.

(** C1, amended: for every well-formed message [m] that holds no
    floating-point NaN at any depth, [Diff(m, m)] returns the empty
    mapping and reports no changes, whatever order [range] takes. *)
Theorem Diff_same_message fuel m :
  Message_wf m = true → Message_nanFree m = true →
  (Message_depth m ≤ fuel)%nat →
  Diff formatFloat rangeOrder fuel m m = Done (∅, false).
Proof.
  revert m. induction fuel as [|n IH]; intros m Hwf Hnan Hdepth.
  - destruct m. cbn in Hdepth. lia.
  - assert (∀ fd, fd ∈ Descriptor_Fields m →
              fieldAct formatFloat rangeOrder n m m fd = Done None) as Hfields.
    { intros fd Hfd. by apply fieldAct_same. }
    rewrite Diff_writes.
    + unfold DiffWrites. rewrite omap_none; [done|].
      intros fd Hfd. unfold compose. by rewrite Hfields.
    + intros fd Hfd. rewrite Hfields by done. apply isDone_Done.
Qed.

(** C2, amended: for messages [a] and [b] of one type and a field [fd]
    holding the scalars [x] in [a] and [y] in [b], not both NaN,
    [Diff(a, b)] has an entry for [fd] if and only if the value of [x]
    differs from the value of [y], and that entry is the new value [y]. *)
Theorem Diff_scalar_field fuel a b fd x y :
  Message_wf a = true → Message_wf b = true → Message_sameType a b = true →
  (Message_depth b ≤ fuel)%nat →
  (fd, VScalar x) ∈ Message_fields a → (fd, VScalar y) ∈ Message_fields b →
  ¬ (Scalar_isNaN x = true ∧ Scalar_isNaN y = true) →
  ∃ d changed, Diff formatFloat rangeOrder fuel a b = Done (d, changed) ∧
    (Scalar_value x ≠ Scalar_value y → d !! Name fd = Some (IScalar y)) ∧
    (Scalar_value x = Scalar_value y → d !! Name fd = None).
Proof.
  intros Hwa Hwb Hty Hdepth Hina Hinb Hnan.
  destruct fuel as [|n]; [destruct b; cbn in Hdepth; lia|].
  assert (fd ∈ Descriptor_Fields b) as Hfd.
  { apply list_elem_of_fmap. by exists (fd, VScalar y). }
  destruct (Diff_lookup formatFloat rangeOrder rangeOrder_perm n a b fd)
    as (d & changed & w & HD & Hact & Hlook); try done.
  exists d, changed. split; [done|].
  unfold fieldAct in Hact.
  rewrite (Message_Get_unique b fd (VScalar y)) in Hact
    by (try apply Message_wf_NoDup; done).
  rewrite (Message_Get_unique a fd (VScalar x)) in Hact
    by (try apply Message_wf_NoDup; done).
  pose proof (Message_wf_field b fd _ Hwb Hinb) as Hcard. cbn in Hcard.
  apply negb_true_iff in Hcard. cbn [obind] in Hact. rewrite Hcard in Hact.
  assert (diffField formatFloat rangeOrder n fd (VScalar x) (VScalar y) =
          Done (if Scalar_DeepEqual x y then (INil, false) else (IScalar y, true))) as Hdf.
  { unfold diffField, diffField_. cbn.
    destruct (bool_decide (Kind fd = MessageKind)), (Scalar_DeepEqual x y); done. }
  rewrite Hdf in Hact. cbn in Hact.
  pose proof (Scalar_DeepEqual_spec x y Hnan) as Hspec.
  destruct (Scalar_DeepEqual x y); cbn in Hact; injection Hact as <-; cbn in Hlook.
  - split; [|done]. intros Hne. destruct Hne. by apply Hspec.
  - split; [done|]. intros Heq. apply Hspec in Heq. done.
Qed.


(** C8, amended: for a list field, [Diff] compares elements by
    position: the entry of the field is a map [r] keyed by decimal
    indices in which index [i] of both lists appears under ["i"] exactly
    when [diffField] reports the two elements different, an index only
    in the longer new list under ["+i"], an index only in the longer old
    list under ["-i"], and nothing else; the field has no entry when [r]
    is empty.  After a single insertion at the front, position [i + 1]
    is therefore reported exactly when the element shifted to it differs
    from the one it replaces. *)
Theorem Diff_list_positional n a b fd lo ln :
  Message_wf a = true → Message_wf b = true → Message_sameType a b = true →
  (Message_depth b ≤ S n)%nat →
  (fd, VList lo) ∈ Message_fields a → (fd, VList ln) ∈ Message_fields b →
  ∃ d changed r, Diff formatFloat rangeOrder (S n) a b = Done (d, changed) ∧
    (r ≠ ∅ → d !! Name fd = Some (IMap r)) ∧
    (r = ∅ → d !! Name fd = None) ∧
    (∀ key x, r !! key = Some x → ∃ i : nat,
       (∃ v, lo !! i = None ∧ ln !! i = Some v ∧
             key = "+" +:+ Itoa (Z.of_nat i) ∧ x = stored formatFloat v) ∨
       (∃ o, lo !! i = Some o ∧ ln !! i = None ∧
             key = "-" +:+ Itoa (Z.of_nat i) ∧ x = stored formatFloat o) ∨
       (∃ o v, lo !! i = Some o ∧ ln !! i = Some v ∧ key = Itoa (Z.of_nat i) ∧
               diffField formatFloat rangeOrder n fd o v = Done (x, true))) ∧
    (∀ (i : nat) o v, lo !! i = Some o → ln !! i = Some v →
       r !! Itoa (Z.of_nat i) = match diffField formatFloat rangeOrder n fd o v with
                                | Done (val, true) => Some val
                                | _ => None
                                end) ∧
    (∀ (i : nat) v, lo !! i = None → ln !! i = Some v →
       r !! ("+" +:+ Itoa (Z.of_nat i)) = Some (stored formatFloat v)) ∧
    (∀ (i : nat) o, lo !! i = Some o → ln !! i = None →
       r !! ("-" +:+ Itoa (Z.of_nat i)) = Some (stored formatFloat o)) ∧
    (∀ x0 (i : nat) o v, ln = x0 :: lo → lo !! S i = Some o → lo !! i = Some v →
       r !! Itoa (Z.of_nat (S i)) = match diffField formatFloat rangeOrder n fd o v with
                                    | Done (val, true) => Some val
                                    | _ => None
                                    end).
Proof.
  intros Hwa Hwb Hty Hdepth Hina Hinb.
  assert (fd ∈ Descriptor_Fields b) as Hfd.
  { apply list_elem_of_fmap. by exists (fd, VList ln). }
  destruct (Diff_lookup formatFloat rangeOrder rangeOrder_perm n a b fd)
    as (d & changed & w & HD & Hact & Hlook); try done.
  unfold fieldAct in Hact.
  rewrite (Message_Get_unique b fd (VList ln)) in Hact
    by (try apply Message_wf_NoDup; done).
  rewrite (Message_Get_unique a fd (VList lo)) in Hact
    by (try apply Message_wf_NoDup; done).
  pose proof (Message_wf_field a fd _ Hwa Hina) as Hva.
  pose proof (Message_wf_field b fd _ Hwb Hinb) as Hvb.
  assert (bool_decide (Cardinality fd = Repeated) = true) as Hcard.
  { cbn in Hvb. apply andb_true_iff in Hvb as [Hc _].
    by apply negb_true_iff, negb_false_iff in Hc. }
  rewrite Hcard in Hva, Hvb. cbn [negb] in Hva, Hvb.
  cbn [obind fieldMaps] in Hact. rewrite Hcard in Hact. cbn [obind] in Hact.
  assert (Value_sameType (VList lo) (VList ln) = true) as Hlty.
  { rewrite Message_sameType_unfold in Hty. apply andb_true_iff in Hty as [_ Hty].
    destruct (Message_Get_pair a b fd Hty Hfd) as (va & vb & Hga & Hgb & _ & _ & Hvty).
    rewrite (Message_Get_unique a fd (VList lo)) in Hga by (try apply Message_wf_NoDup; done).
    rewrite (Message_Get_unique b fd (VList ln)) in Hgb by (try apply Message_wf_NoDup; done).
    congruence. }
  destruct (mapDiff_spec formatFloat rangeOrder rangeOrder_perm n fd
              (listToMap 0 lo ∅) (listToMap 0 ln ∅))
    as (r & mapChanged & Hmd & Hch & Hkeys).
  { intros k o Ho%listToMap_elem. by apply (Value_wf_list fd lo). }
  { intros k v Hv%listToMap_elem. split; [by apply (Value_wf_list fd ln)|].
    pose proof (Value_depth_list ln v Hv).
    destruct b as [nb fs]. pose proof (Value_depth_field nb fs fd _ Hinb). lia. }
  { intros k o v Ho%listToMap_elem Hv%listToMap_elem.
    by apply (Value_sameType_list lo ln). }
  { apply listToMap_no_collision. }
  unfold mapDiff in Hmd. unfold mapDiff in Hact. rewrite Hmd in Hact. cbn [obind] in Hact.
  exists d, changed, r. split; [done|].
  destruct Hkeys as (Hadd & Hrem & Hcom & Hinv).
  split_and!.
  - intros Hne%Hch. subst mapChanged. by injection Hact as <-.
  - intros Hempty. destruct mapChanged; [by apply Hch in Hempty|].
    by injection Hact as <-.
  - intros key x [(k & v & Hv & Ho & -> & ->)|[(k & o & Ho & Hv & -> & ->)|
                  (o & v & Ho & Hv & Hdf)]]%Hinv.
    + apply listToMap_key in Hv as (i & -> & Hi). rewrite listToMap_lookup in Ho.
      exists i. left. by exists v.
    + apply listToMap_key in Ho as (i & -> & Hi). rewrite listToMap_lookup in Hv.
      exists i. right. left. by exists o.
    + apply listToMap_key in Ho as (i & -> & Hi). rewrite listToMap_lookup in Hv.
      exists i. right. right. by exists o, v.
  - intros i o v Hio Hiv. apply Hcom; by rewrite listToMap_lookup.
  - intros i v Hio Hiv. apply Hadd; by rewrite listToMap_lookup.
  - intros i o Hio Hiv. apply Hrem; by rewrite listToMap_lookup.
  - intros x0 i o v -> Hio Hiv. apply Hcom; by rewrite listToMap_lookup.
Qed.

(** C9: for a [MessageKind] field whose old value is a message and
    whose new value is not, [diffField] reports a change and returns the
    old message itself. *)
Theorem diffField_old_message_only fuel descriptor oldMsg newValue :
  Kind descriptor = MessageKind → (∀ m, newValue ≠ VMessage m) →
  diffField formatFloat rangeOrder fuel descriptor (VMessage oldMsg) newValue
  = Done (IMessage oldMsg, true).
Proof.
  intros Hkind Hnew. unfold diffField, diffField_.
  rewrite bool_decide_eq_true_2 by done.
  destruct newValue as [?|m|?|?]; try done. by destruct (Hnew m).
Qed.


(** X1: on two well-formed messages of one type [Diff] returns, and its
    changed flag is true exactly when the mapping it returns has an
    entry. *)
Theorem Diff_returns fuel a b :
  Message_wf a = true → Message_wf b = true → Message_sameType a b = true →
  (Message_depth b ≤ fuel)%nat →
  ∃ d changed, Diff formatFloat rangeOrder fuel a b = Done (d, changed) ∧
               (changed = true ↔ d ≠ ∅).
Proof.
  intros Hwa Hwb Hty Hdepth.
  destruct fuel as [|n]; [destruct b; cbn in Hdepth; lia|].
  eexists _, _. split.
  - apply Diff_writes. intros fd Hfd.
    apply fieldAct_total; auto using Diff_total.
  - apply writes_changed.
Qed.
End differ_properties.

(** *** C1 *)

(** C1 as stated fails: a message whose double field holds NaN differs
    from itself, because [reflect.DeepEqual] finds NaN unequal to NaN. *)
Lemma Diff_same_message_nan :
  Message_wf nanMessage = true ∧
  Diff formatSpecials inOrder 1 nanMessage nanMessage
  = Done ({["ratio" := IScalar (SFloat64 S754_nan)]}, true).
Proof. split; vm_compute; reflexivity. Qed.

Lemma Diff_same_message_witness :
  Diff formatSpecials inOrder 2 sampleConnection sampleConnection = Done (∅, false).
Proof.
  apply (Diff_same_message formatSpecials inOrder inOrder_perm 2 sampleConnection).
  - reflexivity.
  - reflexivity.
  - vm_compute. lia.
Defined.

(** *** C2 *)

(** C2 as stated fails on the same message: the value of the field is the
    same in both arguments, yet the diff has an entry for it. *)
Lemma Diff_scalar_field_nan :
  (scalarField "ratio" DoubleKind, VScalar (SFloat64 S754_nan)) ∈ Message_fields nanMessage ∧
  Scalar_value (SFloat64 S754_nan) = Scalar_value (SFloat64 S754_nan) ∧
  ∃ d, Diff formatSpecials inOrder 1 nanMessage nanMessage = Done (d, true) ∧
       d !! "ratio" = Some (IScalar (SFloat64 S754_nan)).
Proof.
  split; [left|]. split; [done|].
  exists {["ratio" := IScalar (SFloat64 S754_nan)]}. split; vm_compute; reflexivity.
Qed.

Lemma Diff_scalar_field_witness :
  ∃ d changed,
    Diff formatSpecials inOrder 2 sampleConnection renamedConnection = Done (d, changed) ∧
    (Scalar_value (SString "conn-1") ≠ Scalar_value (SString "conn-2") →
       d !! "id" = Some (IScalar (SString "conn-2"))) ∧
    (Scalar_value (SString "conn-1") = Scalar_value (SString "conn-2") →
       d !! "id" = None).
Proof.
  apply (Diff_scalar_field formatSpecials inOrder inOrder_perm 2
           sampleConnection renamedConnection (scalarField "id" StringKind)
           (SString "conn-1") (SString "conn-2")).
  - reflexivity.
  - reflexivity.
  - reflexivity.
  - vm_compute. lia.
  - left.
  - left.
  - cbn. intros [H _]. discriminate H.
Defined.

(** *** C3 *)



(** *** C8 *)

(** C8 as stated fails in its last part: after inserting ["x"] in front
    of the list ["a"; "a"], position 1 holds ["a"] as before and is not
    reported; only position 0 and the added index 2 are. *)
Lemma Diff_list_insert_front_unreported :
  let r : gmap string Interface := {["0" := IScalar (SString "x"); "+2" := IString "a"]} in
  Diff formatSpecials inOrder 1
    (pathMessage 0 ["a"; "a"] (S754_zero false))
    (pathMessage 0 ("x" :: ["a"; "a"]) (S754_zero false))
  = Done ({["names" := IMap r]}, true) ∧
  r !! "1" = None.
Proof. cbv zeta. split; vm_compute; reflexivity. Qed.

Lemma Diff_list_positional_witness :
  ∃ d changed r,
    Diff formatSpecials inOrder 1
      (pathMessage 0 ["a"; "b"] (S754_zero false))
      (pathMessage 0 ["x"; "a"; "b"] (S754_zero false)) = Done (d, changed) ∧
    d !! "names" = Some (IMap r) ∧
    r !! "0" = Some (IScalar (SString "x")) ∧
    r !! "1" = Some (IScalar (SString "a")) ∧
    r !! "+2" = Some (IString "b").
Proof.
  destruct (Diff_list_positional formatSpecials inOrder inOrder_perm 0
              (pathMessage 0 ["a"; "b"] (S754_zero false))
              (pathMessage 0 ["x"; "a"; "b"] (S754_zero false))
              namesField (str <$> ["a"; "b"]) (str <$> ["x"; "a"; "b"]))
    as (d & changed & r & HD & Hsome & _ & _ & Hcommon & Hadded & _ & _).
  - reflexivity.
  - reflexivity.
  - reflexivity.
  - vm_compute. lia.
  - right. left.
  - right. left.
  - exists d, changed, r.
    pose proof (Hcommon 0%nat (str "a") (str "x") eq_refl eq_refl) as H0.
    pose proof (Hcommon 1%nat (str "b") (str "a") eq_refl eq_refl) as H1.
    pose proof (Hadded 2%nat (str "b") eq_refl eq_refl) as H2.
    assert (r ≠ ∅) as Hne.
    { intros Hr. rewrite Hr, lookup_empty in H2. discriminate H2. }
    split_and!; [exact HD|exact (Hsome Hne)|exact H0|exact H1|exact H2].
Defined.

(** *** X1 *)

Lemma Diff_returns_witness :
  ∃ d changed,
    Diff formatSpecials inOrder 2 sampleConnection renamedConnection = Done (d, changed) ∧
    (changed = true ↔ d ≠ ∅).
Proof.
  apply (Diff_returns formatSpecials inOrder inOrder_perm 2 sampleConnection renamedConnection).
  - reflexivity.
  - reflexivity.
  - reflexivity.
  - vm_compute. lia.
Defined.

(** *** C9 *)

Lemma diffField_old_message_only_witness :
  diffField formatSpecials inOrder 0 (scalarField "path" MessageKind)
    (VMessage (pathMessage 0 ["nsc"] (S754_zero false))) (str "none")
  = Done (IMessage (pathMessage 0 ["nsc"] (S754_zero false)), true).
Proof.
  apply (diffField_old_message_only formatSpecials inOrder 0).
  - reflexivity.
  - intros m H. discriminate H.
Defined.

(** ** The trace stage *)

Section trace_properties.
Variable protoEqual : option Message → Message → bool.
Variable cmpDiff : option Message → Message → string.

Local Abbreviation logRequest := (logRequest protoEqual cmpDiff).
Local Abbreviation logResponse := (logResponse protoEqual cmpDiff).

(** C4, what the code does: when a previous response is stored and the
    new response is not equal to it, the diff [logResponse] computes and
    logs is [cmp.Diff] of the stored request, not of the stored response,
    against the new response. *)
Theorem logResponse_diffs_stored_request connInfo previous response :
  Response connInfo = Some previous →
  protoEqual (Some previous) response = false →
  logResponse (Some connInfo) response =
  (Some {| Request := Request connInfo; Response := Some (protoClone response) |},
   if bool_decide (cmpDiff (Request connInfo) response ≠ "")
   then [Debugf "response-diff: %f" (ArgString (cmpDiff (Request connInfo) response))]
   else []).
Proof.
  intros Hprev Hne. unfold logResponse. rewrite Hprev, Hne. done.
Qed.

(** C10: [logRequest] replaces the stored request, by a clone of the
    incoming one, only when the two are not proto-equal; a call with a
    request equal to the stored one logs nothing and leaves the record as
    it is; hence, a request being equal to its clone, a second call with
    the same request logs nothing and changes nothing. *)
Theorem logRequest_idempotent ctx request :
  protoEqual (Some (protoClone request)) request = true →
  (∀ connInfo, ctx = Some connInfo →
     protoEqual (Request connInfo) request = true →
     logRequest ctx request = (ctx, [])) ∧
  (∀ connInfo, ctx = Some connInfo →
     protoEqual (Request connInfo) request = false →
     (logRequest ctx request).1 =
     Some {| Request := Some (protoClone request); Response := Response connInfo |}) ∧
  ((logRequest ctx request).1 ≠ ctx →
     ∃ connInfo, ctx = Some connInfo ∧ protoEqual (Request connInfo) request = false) ∧
  logRequest (logRequest ctx request).1 request = ((logRequest ctx request).1, []).
Proof.
  intros Hclone. split_and!.
  - intros connInfo -> Heq. unfold logRequest. by rewrite Heq.
  - intros connInfo -> Hne. unfold logRequest. by rewrite Hne.
  - destruct ctx as [connInfo|]; [|done]. intros Hchanged. exists connInfo. split; [done|].
    destruct (protoEqual (Request connInfo) request) eqn:Heq; [|done].
    destruct Hchanged. unfold logRequest. by rewrite Heq.
  - destruct ctx as [connInfo|]; [|done]. unfold logRequest at 2 3.
    destruct (protoEqual (Request connInfo) request) eqn:Heq; cbn [negb fst].
    + unfold logRequest. by rewrite Heq.
    + unfold logRequest. cbn [Request]. by rewrite Hclone.
Qed.

End trace_properties.

Lemma logResponse_diffs_stored_request_witness :
  logResponse diffEqual diffText (Some tracedOnce) renamedConnection =
  (Some {| Request := Some sampleRequest; Response := Some renamedConnection |},
   [Debugf "response-diff: %f" (ArgString "- sample.Request + sample.Connection")]) ∧
  diffText (Some sampleConnection) renamedConnection = "- sample.Connection + sample.Connection".
Proof.
  split; [|vm_compute; reflexivity].
  rewrite (logResponse_diffs_stored_request diffEqual diffText tracedOnce sampleConnection).
  - vm_compute. reflexivity.
  - reflexivity.
  - vm_compute. reflexivity.
Defined.

Lemma logRequest_idempotent_witness :
  let ctx := Some {| Request := None; Response := None |} in
  logRequest diffEqual diffText (logRequest diffEqual diffText ctx sampleRequest).1 sampleRequest
  = ((logRequest diffEqual diffText ctx sampleRequest).1, []).
Proof.
  cbv zeta.
  apply (logRequest_idempotent diffEqual diffText
           (Some {| Request := None; Response := None |}) sampleRequest).
  vm_compute. reflexivity.
Defined.

(** ** The path *)

Section path_facts.
Variable generate : string → nat → string * nat.

Local Abbreviation signed := (signed generate).
Local Abbreviation stamp := (stamp generate).
Local Abbreviation traverse := (traverse generate).

Lemma traverse_fresh now route : ∀ position segments,
  position = length segments →
  traverse now route position segments
  = Some (segments ++ ((λ name, signed name now) <$> route))%list.
Proof.
  induction route as [|name rest IH]; intros position segments ->; cbn.
  - by rewrite app_nil_r.
  - unfold stamp. rewrite lookup_ge_None_2 by lia.
    rewrite bool_decide_eq_true_2 by done. cbn.
    rewrite IH by (rewrite length_app; cbn; lia). by rewrite <- app_assoc.
Qed.

Lemma stamp_Some now name position segments segments' :
  stamp now name position segments = Some segments' →
  segment_name <$> segments' !! position = Some name ∧
  (∀ j, j ≠ position → (j < length segments)%nat → segments' !! j = segments !! j) ∧
  (length segments ≤ length segments')%nat.
Proof.
  unfold stamp. destruct (segments !! position) as [s|] eqn:Hs.
  - case_bool_decide; [|done]. intros [= <-].
    apply lookup_lt_Some in Hs as Hlt. split_and!.
    + by rewrite list_lookup_insert_eq.
    + intros j Hj _. by rewrite list_lookup_insert_ne.
    + by rewrite length_insert.
  - case_bool_decide as Hpos; [|done]. intros [= <-]. split_and!.
    + rewrite Hpos. by rewrite lookup_app_r, Nat.sub_diag.
    + intros j _ Hj. by rewrite lookup_app_l.
    + rewrite length_app. lia.
Qed.

(** After a traversal every element of the route finds its segment at its
    position. *)
Lemma traverse_names now route : ∀ position segments segments',
  traverse now route position segments = Some segments' →
  (position ≤ length segments)%nat →
  (∀ j, (j < position)%nat → segments' !! j = segments !! j) ∧
  (length segments ≤ length segments')%nat ∧
  (∀ i name, route !! i = Some name →
     segment_name <$> segments' !! (position + i) = Some name).
Proof.
  induction route as [|name rest IH]; intros position segments segments'; cbn.
  - intros [= <-] _. split_and!; [done|done|]. intros i name' H. by destruct i.
  - destruct (stamp now name position segments) as [segments1|] eqn:Hstamp; [|done].
    cbn. intros Htr Hle.
    destruct (stamp_Some _ _ _ _ _ Hstamp) as (Hat & Hother & Hlen).
    assert (position < length segments1)%nat as Hlt.
    { destruct (segments1 !! position) eqn:E; [by apply lookup_lt_Some in E|done]. }
    destruct (IH _ _ _ Htr ltac:(lia)) as (Hbefore & Hlen' & Hnames).
    split_and!.
    + intros j Hj. rewrite Hbefore by lia. apply Hother; lia.
    + lia.
    + intros [|i] name' Hi; cbn in Hi.
      * injection Hi as <-. rewrite Nat.add_0_r, Hbefore by lia. done.
      * replace (position + S i) with (S position + i) by lia. by apply Hnames.
Qed.

(** A path that already holds the route's segments is re-signed in place. *)
Lemma traverse_refresh later route : ∀ position segments,
  (∀ i name, route !! i = Some name →
     segment_name <$> segments !! (position + i) = Some name) →
  ∃ segments', traverse later route position segments = Some segments' ∧
               length segments' = length segments.
Proof.
  induction route as [|name rest IH]; intros position segments Hnames; cbn.
  - by exists segments.
  - pose proof (Hnames 0 name eq_refl) as H0. rewrite Nat.add_0_r in H0.
    unfold stamp. destruct (segments !! position) as [s|] eqn:Hs; [|done].
    cbn in H0. injection H0 as H0. rewrite bool_decide_eq_true_2 by done. cbn.
    destruct (IH (S position) (<[position := signed name later]> segments))
      as (segments' & -> & Hlen).
    + intros i name' Hi. rewrite list_lookup_insert_ne by lia.
      replace (S position + i) with (position + S i) by lia. by apply Hnames.
    + exists segments'. split; [done|]. by rewrite Hlen, length_insert.
Qed.

End path_facts.

Lemma passThroughLegs_length i : length (passThroughLegs i) = (10 * i)%nat.
Proof.
  induction i as [|i IH]; [done|].
  cbn [passThroughLegs]. rewrite length_app, IH. cbn. lia.
Qed.

Section path_properties.
Variable generate : string → nat → string * nat.

(** C5: a successful single-hop interdomain [Request] (client in one
    cluster, endpoint in another, through the two NSMgr-Proxies) returns a
    connection whose path has exactly 10 segments. *)
Theorem interdomain_request_path_length now client cluster remote endpoint conn :
  remote ≠ cluster → path_segments conn = [] →
  ∃ conn', pathRequest generate now (routeTo client cluster (Some remote) endpoint) conn
           = Some conn' ∧
           length (path_segments conn') = 10%nat.
Proof.
  intros Hremote Hfresh. unfold routeTo, pathRequest.
  rewrite bool_decide_eq_false_2 by done.
  rewrite Hfresh, (traverse_fresh generate) by done. cbn.
  eexists. split; [done|]. done.
Qed.

(** C6: for a pass-through chain of N clusters, a successful client
    [Request] at the last cluster returns a connection whose path has
    exactly 10·(N-1)+5 segments. *)
Theorem pass_through_path_length now clusters conn :
  (1 ≤ clusters)%nat → path_segments conn = [] →
  ∃ conn', pathRequest generate now (passThroughRoute clusters) conn = Some conn' ∧
           length (path_segments conn') = (10 * (clusters - 1) + 5)%nat.
Proof.
  intros Hclusters Hfresh. unfold pathRequest.
  rewrite Hfresh, (traverse_fresh generate) by done. cbn [mbind option_bind].
  eexists. split; [done|]. cbn [path_segments app].
  unfold passThroughRoute. rewrite length_fmap, length_app, passThroughLegs_length.
  cbn. lia.
Qed.

(** C7: for every established connection, a refresh [Request] carrying
    the returned connection returns a connection with the same id and a
    path of the same length. *)
Theorem refresh_preserves_id_and_length now later route conn conn' :
  pathRequest generate now route conn = Some conn' →
  ∃ conn'', pathRequest generate later route conn' = Some conn'' ∧
            conn_id conn'' = conn_id conn' ∧
            length (path_segments conn'') = length (path_segments conn').
Proof.
  unfold pathRequest.
  destruct (traverse generate now route 0 (path_segments conn)) as [segments|] eqn:Htr;
    [|done].
  cbn. intros [= <-]. cbn.
  destruct (traverse_names generate now route 0 _ _ Htr ltac:(lia)) as (_ & _ & Hnames).
  destruct (traverse_refresh generate later route 0 segments Hnames) as (segments' & -> & Hlen).
  cbn. eexists. split; [done|]. by split.
Qed.

End path_properties.

Lemma interdomain_request_path_length_witness :
  ∃ conn', pathRequest leaseToken 0 (routeTo "nsc" 1 (Some 2%nat) "final-endpoint")
             (freshConnection "my-service-interdomain@cluster2") = Some conn' ∧
           length (path_segments conn') = 10%nat.
Proof.
  apply (interdomain_request_path_length leaseToken 0 "nsc" 1 2 "final-endpoint").
  - lia.
  - reflexivity.
Defined.

Lemma pass_through_path_length_witness :
  ∃ conn', pathRequest leaseToken 0 (passThroughRoute 5) (freshConnection "my-service-remote-4")
           = Some conn' ∧
           length (path_segments conn') = 45%nat.
Proof.
  apply (pass_through_path_length leaseToken 0 5 (freshConnection "my-service-remote-4")).
  - lia.
  - reflexivity.
Defined.

Lemma refresh_preserves_id_and_length_witness :
  ∃ conn'', pathRequest leaseToken 7 interdomainHops establishedConnection = Some conn'' ∧
            conn_id conn'' = conn_id establishedConnection ∧
            length (path_segments conn'') = length (path_segments establishedConnection).
Proof.
  apply (refresh_preserves_id_and_length leaseToken 0 7 interdomainHops
           (freshConnection "my-service-interdomain@cluster2") establishedConnection).
  reflexivity.
Defined.

(** * Part V: further properties of the differ and the trace stage *)

Section differ_further.
Variable formatFloat : nat → spec_float → string.
Variable rangeOrder : list (string * Value) → list (string * Value).
Hypothesis rangeOrder_perm : ∀ l, rangeOrder l ≡ₚ l.

(** X2: the string-keyed map [Diff] builds from a list holds element [i]
    under the decimal string of [i], holds nothing else, and has as many
    entries as the list has elements. *)
Theorem listToMap_indexed l :
  (∀ i : nat, listToMap 0 l ∅ !! Itoa (Z.of_nat i) = l !! i) ∧
  (∀ k v, listToMap 0 l ∅ !! k = Some v →
     ∃ i : nat, k = Itoa (Z.of_nat i) ∧ l !! i = Some v) ∧
  size (listToMap 0 l ∅) = length l.
Proof.
  split_and!.
  - apply listToMap_lookup.
  - apply listToMap_key.
  - rewrite listToMap_size by done. rewrite map_size_empty. lia.
Qed.

(** X3: in a protobuf map keyed by one of the key types (bool, an
    integer type or string) distinct keys have distinct strings, so the
    string-keyed map [Diff] builds from it loses nothing: it holds the
    value of each key under the string of the key, holds nothing else,
    and has as many entries as the map. *)
Theorem rangeToMap_lookup mp :
  NoDup mp.*1 → (∀ k, k ∈ mp.*1 → isKey k = true) →
  (∀ k k', k ∈ mp.*1 → k' ∈ mp.*1 → sameGoType k k' = true) →
  (∀ key v, (key, v) ∈ mp →
     rangeToMap formatFloat mp !! Scalar_String formatFloat key = Some v) ∧
  (∀ k v, rangeToMap formatFloat mp !! k = Some v →
     ∃ key, (key, v) ∈ mp ∧ k = Scalar_String formatFloat key) ∧
  size (rangeToMap formatFloat mp) = length mp.
Proof.
  intros Hnd Hkey Hty.
  pose proof (key_strings_NoDup formatFloat mp.*1 Hnd Hkey Hty) as Hstr.
  split_and!.
  - intros key v Hin. apply rangeToMap_NoDup_lookup; [done|]. by exists key.
  - intros k v. apply rangeToMap_elem.
  - by apply rangeToMap_NoDup_size.
Qed.

(** X4: whatever the keys look like, a key only in the old map is
    reported under ["-key"] with its stored old value (the loop that
    writes removed keys runs last), a key only in the new map leaves an
    entry under ["+key"], and every entry of the result is of one of the
    three kinds; the field is reported changed exactly when the result
    has an entry. *)
Theorem mapDiff_removed_always fuel fd originMap targetMap :
  (∀ k o, originMap !! k = Some o → Value_wf fd true o = true) →
  (∀ k v, targetMap !! k = Some v →
     Value_wf fd true v = true ∧ (Value_depth v ≤ fuel)%nat) →
  (∀ k o v, originMap !! k = Some o → targetMap !! k = Some v →
     Value_sameType o v = true) →
  ∃ r changed,
    mapDiff formatFloat rangeOrder fuel fd originMap targetMap = Done (IMap r, changed) ∧
    (changed = true ↔ r ≠ ∅) ∧
    (∀ k v, originMap !! k = Some v → targetMap !! k = None →
       r !! ("-" +:+ k) = Some (stored formatFloat v)) ∧
    (∀ k v, targetMap !! k = Some v → originMap !! k = None →
       is_Some (r !! ("+" +:+ k))) ∧
    (∀ key x, r !! key = Some x →
       (∃ k v, targetMap !! k = Some v ∧ originMap !! k = None ∧
               key = "+" +:+ k ∧ x = stored formatFloat v) ∨
       (∃ k v, originMap !! k = Some v ∧ targetMap !! k = None ∧
               key = "-" +:+ k ∧ x = stored formatFloat v) ∨
       (∃ o v, originMap !! key = Some o ∧ targetMap !! key = Some v ∧
               diffField formatFloat rangeOrder fuel fd o v = Done (x, true))).
Proof.
  intros Ho Ht Hty.
  assert (∀ k o, originMap !! k = Some o → isElem o = true) as Hoe.
  { intros k o Hk. eapply Value_wf_elem, Ho, Hk. }
  assert (∀ k v, targetMap !! k = Some v → isElem v = true) as Hte.
  { intros k v Hk. eapply Value_wf_elem, Ht, Hk. }
  assert (∀ k o v, originMap !! k = Some o → targetMap !! k = Some v →
            isDone (diffField formatFloat rangeOrder fuel fd o v)) as Hdf.
  { intros k o v Hko Hkv. destruct (Ht k v Hkv).
    apply diffField_total; eauto using Diff_total. }
  eexists _, _. split; [by apply mapDiff_total; auto using Diff_total|].
  split; [by apply writes_changed|]. split_and!.
  - intros k v. by apply mapWrites_removed_always.
  - intros k v. by apply mapWrites_added_always.
  - intros key x. by apply mapWrites_inv.
Qed.

(** X5: against the empty map every key is new or removed: [mapDiff] of
    nothing and [M] holds exactly the stored values of [M] under the
    ["+"]-marked keys, [mapDiff] of [M] and nothing holds them under the
    ["-"]-marked keys, and a change is reported exactly when [M] has an
    entry. *)
Theorem mapDiff_against_empty fuel fd (M : gmap string Value) :
  (∀ k v, M !! k = Some v → isElem v = true) →
  (∃ r changed,
     mapDiff formatFloat rangeOrder fuel fd ∅ M = Done (IMap r, changed) ∧
     (changed = true ↔ M ≠ ∅) ∧
     (∀ k, r !! ("+" +:+ k) = stored formatFloat <$> M !! k) ∧
     (∀ key x, r !! key = Some x → ∃ k, key = "+" +:+ k)) ∧
  (∃ r changed,
     mapDiff formatFloat rangeOrder fuel fd M ∅ = Done (IMap r, changed) ∧
     (changed = true ↔ M ≠ ∅) ∧
     (∀ k, r !! ("-" +:+ k) = stored formatFloat <$> M !! k) ∧
     (∀ key x, r !! key = Some x → ∃ k, key = "-" +:+ k)).
Proof.
  intros Helem.
  assert (∀ k v, (∅ : gmap string Value) !! k = Some v → isElem v = true) as Hempty.
  { intros k v Hk. by rewrite lookup_empty in Hk. }
  assert (∀ (r : gmap string Interface) (mark : string → string),
            (∀ k, r !! mark k = stored formatFloat <$> M !! k) →
            (∀ key x, r !! key = Some x → ∃ k v, M !! k = Some v ∧ key = mark k) →
            r ≠ ∅ ↔ M ≠ ∅) as Hnonempty.
  { intros r mark Hmark Hinv. split.
    - intros Hne ->. apply Hne. apply map_eq. intros key. rewrite lookup_empty.
      destruct (r !! key) as [x|] eqn:Hlook; [|done].
      apply Hinv in Hlook as (k & v & Hv & _). by rewrite lookup_empty in Hv.
    - intros HM Hr. apply HM. apply map_eq. intros k. rewrite lookup_empty.
      specialize (Hmark k). rewrite Hr, lookup_empty in Hmark. by destruct (M !! k). }
  split.
  - assert (∀ k o v, (∅ : gmap string Value) !! k = Some o → M !! k = Some v →
              isDone (diffField formatFloat rangeOrder fuel fd o v)) as Hdf.
    { intros k o v Hk. by rewrite lookup_empty in Hk. }
    assert (no_collision ∅ M) as Hcol.
    { intros k k' [o Hk]. by rewrite lookup_empty in Hk. }
    eexists _, _.
    split; [by apply (mapDiff_writes formatFloat rangeOrder rangeOrder_perm)|].
    set (r := list_to_map _).
    assert (∀ key x, r !! key = Some x →
              ∃ k v, M !! k = Some v ∧ key = "+" +:+ k) as Hinv.
    { intros key x Hlook.
      apply (mapWrites_inv formatFloat rangeOrder rangeOrder_perm) in Hlook
        as [(k & v & Hv & _ & -> & _)|[(k & v & Hv & _)|(o & v & Hv & _)]];
        first [done | by exists k, v | by rewrite lookup_empty in Hv]. }
    assert (∀ k, r !! ("+" +:+ k) = stored formatFloat <$> M !! k) as Hadd.
    { intros k. destruct (M !! k) as [v|] eqn:Hk; cbn.
      - apply (mapWrites_added formatFloat rangeOrder rangeOrder_perm); try done.
      - destruct (r !! ("+" +:+ k)) as [x|] eqn:Hlook; [|done].
        apply Hinv in Hlook as (k' & v & Hv & <-%added_key_inj). congruence. }
    split_and!.
    + rewrite writes_changed. by apply (Hnonempty r (λ k, "+" +:+ k)).
    + done.
    + intros key x (k & _ & _ & ->)%Hinv. by exists k.
  - assert (∀ k o v, M !! k = Some o → (∅ : gmap string Value) !! k = Some v →
              isDone (diffField formatFloat rangeOrder fuel fd o v)) as Hdf.
    { intros k o v _ Hk. by rewrite lookup_empty in Hk. }
    assert (no_collision M ∅) as Hcol.
    { intros k k' _ [o Hk]. by rewrite lookup_empty in Hk. }
    eexists _, _.
    split; [by apply (mapDiff_writes formatFloat rangeOrder rangeOrder_perm)|].
    set (r := list_to_map _).
    assert (∀ key x, r !! key = Some x →
              ∃ k v, M !! k = Some v ∧ key = "-" +:+ k) as Hinv.
    { intros key x Hlook.
      apply (mapWrites_inv formatFloat rangeOrder rangeOrder_perm) in Hlook
        as [(k & v & Hv & _)|[(k & v & Hv & _ & -> & _)|(o & v & _ & Hv & _)]];
        first [done | by exists k, v | by rewrite lookup_empty in Hv]. }
    assert (∀ k, r !! ("-" +:+ k) = stored formatFloat <$> M !! k) as Hrem.
    { intros k. destruct (M !! k) as [v|] eqn:Hk; cbn.
      - apply (mapWrites_removed formatFloat rangeOrder rangeOrder_perm); try done.
      - destruct (r !! ("-" +:+ k)) as [x|] eqn:Hlook; [|done].
        apply Hinv in Hlook as (k' & v & Hv & <-%removed_key_inj). congruence. }
    split_and!.
    + rewrite writes_changed. by apply (Hnonempty r (λ k, "-" +:+ k)).
    + done.
    + intros key x (k & _ & _ & ->)%Hinv. by exists k.
Qed.

(** X7: every entry of the mapping [Diff] returns sits under the name of
    a field of the new message and is the new scalar value, a whole
    message or a nested diff with at least one entry; the markers [nil]
    and ["="] that [diffField] returns for an unchanged field are never
    stored. *)
Theorem Diff_entries_shape fuel a b d changed :
  Diff formatFloat rangeOrder fuel a b = Done (d, changed) →
  ∀ k x, d !! k = Some x →
    (∃ fd, fd ∈ Descriptor_Fields b ∧ k = Name fd) ∧ isEntry x.
Proof.
  intros (n & _ & Hdone & [= -> _])%Diff_inv k x
    (fd & Hfd & Hw)%writes_lookup_inv%list_elem_of_omap.
  unfold compose in Hw. destruct (Hdone fd Hfd) as [w Hact].
  rewrite Hact in Hw. cbn in Hw. subst w.
  apply fieldAct_Some_inv in Hact as [-> Hx]. split; [by exists fd|done].
Qed.

(** X8: fields are diffed independently: the entry of a field depends
    only on the values the two messages hold for that field. *)
Theorem Diff_field_local n a b a' b' fd :
  Message_wf a = true → Message_wf b = true → Message_sameType a b = true →
  (Message_depth b ≤ S n)%nat →
  Message_wf a' = true → Message_wf b' = true → Message_sameType a' b' = true →
  (Message_depth b' ≤ S n)%nat →
  fd ∈ Descriptor_Fields b → fd ∈ Descriptor_Fields b' →
  Message_Get a fd = Message_Get a' fd → Message_Get b fd = Message_Get b' fd →
  ∃ d changed d' changed',
    Diff formatFloat rangeOrder (S n) a b = Done (d, changed) ∧
    Diff formatFloat rangeOrder (S n) a' b' = Done (d', changed') ∧
    d !! Name fd = d' !! Name fd.
Proof.
  intros Hwa Hwb Hty Hdepth Hwa' Hwb' Hty' Hdepth' Hfd Hfd' Hga Hgb.
  destruct (Diff_lookup formatFloat rangeOrder rangeOrder_perm n a b fd)
    as (d & changed & w & HD & Hact & Hlook); try done.
  destruct (Diff_lookup formatFloat rangeOrder rangeOrder_perm n a' b' fd)
    as (d' & changed' & w' & HD' & Hact' & Hlook'); try done.
  exists d, changed, d', changed'. split; [done|]. split; [done|].
  unfold fieldAct in Hact, Hact'. rewrite Hga, Hgb, Hact' in Hact. congruence.
Qed.

(** X9: for a field holding a message in both arguments, the entry of
    the field is the nested [Diff] of the two messages when that diff
    reports a change, and there is no entry when it reports none. *)
Theorem Diff_message_field n a b fd ma mb :
  Message_wf a = true → Message_wf b = true → Message_sameType a b = true →
  (Message_depth b ≤ S n)%nat →
  (fd, VMessage ma) ∈ Message_fields a → (fd, VMessage mb) ∈ Message_fields b →
  ∃ d changed d' changed',
    Diff formatFloat rangeOrder (S n) a b = Done (d, changed) ∧
    Diff formatFloat rangeOrder n ma mb = Done (d', changed') ∧
    d !! Name fd = (if changed' then Some (IMap d') else None).
Proof.
  intros Hwa Hwb Hty Hdepth Hina Hinb.
  assert (fd ∈ Descriptor_Fields b) as Hfd.
  { apply list_elem_of_fmap. by exists (fd, VMessage mb). }
  destruct (Diff_lookup formatFloat rangeOrder rangeOrder_perm n a b fd)
    as (d & changed & w & HD & Hact & Hlook); try done.
  unfold fieldAct in Hact.
  rewrite (Message_Get_unique b fd (VMessage mb)) in Hact
    by (try apply Message_wf_NoDup; done).
  rewrite (Message_Get_unique a fd (VMessage ma)) in Hact
    by (try apply Message_wf_NoDup; done).
  pose proof (Message_wf_field a fd _ Hwa Hina) as Hva.
  pose proof (Message_wf_field b fd _ Hwb Hinb) as Hvb.
  assert (bool_decide (Cardinality fd = Repeated) = false) as Hcard.
  { cbn in Hvb. apply andb_true_iff in Hvb as [[Hc _]%andb_true_iff _].
    by apply negb_true_iff in Hc. }
  rewrite Hcard in Hva, Hvb. cbn [negb] in Hva, Hvb.
  apply Value_wf_message in Hva as [_ Hma]. apply Value_wf_message in Hvb as [Hkind Hmb].
  cbn [obind] in Hact. rewrite Hcard in Hact.
  assert (Message_sameType ma mb = true) as Hmty.
  { rewrite Message_sameType_unfold in Hty. apply andb_true_iff in Hty as [_ Hty].
    destruct (Message_Get_pair a b fd Hty Hfd) as (va & vb & Hga & Hgb & _ & _ & Hvty).
    rewrite (Message_Get_unique a fd (VMessage ma)) in Hga by (try apply Message_wf_NoDup; done).
    rewrite (Message_Get_unique b fd (VMessage mb)) in Hgb by (try apply Message_wf_NoDup; done).
    injection Hga as <-. injection Hgb as <-. done. }
  assert (Message_depth mb ≤ n)%nat as Hmd.
  { destruct b as [nb fs]. pose proof (Value_depth_field nb fs fd _ Hinb) as Hlt.
    cbn [Value_depth] in Hlt. lia. }
  destruct (Diff_total formatFloat rangeOrder rangeOrder_perm n ma mb Hma Hmb Hmty Hmd)
    as [[d' changed'] HD'].
  exists d, changed, d', changed'. split; [done|]. split; [done|].
  unfold diffField, diffField_ in Hact. rewrite bool_decide_eq_true_2 in Hact by done.
  rewrite HD' in Hact. cbn [obind] in Hact.
  destruct changed'; cbn in Hact; injection Hact as <-; done.
Qed.

(** X10: for a map field whose string keys do not collide with a
    marker, the entry of the field is the per-key diff [r] of the two
    maps keyed by the strings of their keys, and the field has no entry
    when [r] is empty. *)
Theorem Diff_map_field n a b fd lo ln :
  Message_wf a = true → Message_wf b = true → Message_sameType a b = true →
  (Message_depth b ≤ S n)%nat →
  (fd, VMap lo) ∈ Message_fields a → (fd, VMap ln) ∈ Message_fields b →
  no_collision (rangeToMap formatFloat lo) (rangeToMap formatFloat ln) →
  ∃ d changed r, Diff formatFloat rangeOrder (S n) a b = Done (d, changed) ∧
    (r ≠ ∅ → d !! Name fd = Some (IMap r)) ∧
    (r = ∅ → d !! Name fd = None) ∧
    per_key formatFloat rangeOrder n fd
      (rangeToMap formatFloat lo) (rangeToMap formatFloat ln) r.
Proof.
  intros Hwa Hwb Hty Hdepth Hina Hinb Hcol.
  assert (fd ∈ Descriptor_Fields b) as Hfd.
  { apply list_elem_of_fmap. by exists (fd, VMap ln). }
  destruct (Diff_lookup formatFloat rangeOrder rangeOrder_perm n a b fd)
    as (d & changed & w & HD & Hact & Hlook); try done.
  unfold fieldAct in Hact.
  rewrite (Message_Get_unique b fd (VMap ln)) in Hact
    by (try apply Message_wf_NoDup; done).
  rewrite (Message_Get_unique a fd (VMap lo)) in Hact
    by (try apply Message_wf_NoDup; done).
  pose proof (Message_wf_field a fd _ Hwa Hina) as Hva.
  pose proof (Message_wf_field b fd _ Hwb Hinb) as Hvb.
  assert (bool_decide (Cardinality fd = Repeated) = true) as Hcard.
  { cbn in Hvb. apply andb_true_iff in Hvb as [Hc _].
    by apply negb_true_iff, negb_false_iff in Hc. }
  rewrite Hcard in Hva, Hvb. cbn [negb] in Hva, Hvb.
  cbn [obind fieldMaps] in Hact. rewrite Hcard in Hact. cbn [obind] in Hact.
  assert (Value_sameType (VMap lo) (VMap ln) = true) as Hlty.
  { rewrite Message_sameType_unfold in Hty. apply andb_true_iff in Hty as [_ Hty].
    destruct (Message_Get_pair a b fd Hty Hfd) as (va & vb & Hga & Hgb & _ & _ & Hvty).
    rewrite (Message_Get_unique a fd (VMap lo)) in Hga by (try apply Message_wf_NoDup; done).
    rewrite (Message_Get_unique b fd (VMap ln)) in Hgb by (try apply Message_wf_NoDup; done).
    congruence. }
  destruct (mapDiff_spec formatFloat rangeOrder rangeOrder_perm n fd
              (rangeToMap formatFloat lo) (rangeToMap formatFloat ln))
    as (r & mapChanged & Hmd & Hch & Hkeys); [| | |done|].
  { intros k o (key & Ho & _)%rangeToMap_elem. by apply (Value_wf_map fd lo key). }
  { intros k v (key & Hv & _)%rangeToMap_elem. split; [by apply (Value_wf_map fd ln key)|].
    pose proof (Value_depth_map ln key v Hv).
    destruct b as [nb fs]. pose proof (Value_depth_field nb fs fd _ Hinb). lia. }
  { intros k o v (ko & Ho & _)%rangeToMap_elem (kv & Hv & _)%rangeToMap_elem.
    by apply (Value_sameType_map lo ln ko o kv v). }
  unfold mapDiff in Hmd. unfold mapDiff in Hact. rewrite Hmd in Hact. cbn [obind] in Hact.
  exists d, changed, r. split; [done|]. split_and!; [| |done].
  - intros Hne%Hch. subst mapChanged. by injection Hact as <-.
  - intros Hempty. destruct mapChanged; [by apply Hch in Hempty|].
    by injection Hact as <-.
Qed.


(** X12: whether [Diff] reports a change does not depend on which of
    two messages of one type is taken as the old one: [Diff(a, b)] and
    [Diff(b, a)] return the same flag. *)
Theorem Diff_changed_symmetric fuel a b :
  Message_wf a = true → Message_wf b = true → Message_sameType a b = true →
  (Message_depth a ≤ fuel)%nat → (Message_depth b ≤ fuel)%nat →
  ∃ d d' changed, Diff formatFloat rangeOrder fuel a b = Done (d, changed) ∧
                  Diff formatFloat rangeOrder fuel b a = Done (d', changed).
Proof.
  intros Hwa Hwb Hty Hda Hdb. apply Diff_swap_flag; try done.
  by apply (Message_sameType_sym fuel).
Qed.

(** X13: a floating-point field that holds NaN in the new message is
    reported as changed, with the NaN as its entry, whatever the old
    message holds for it. *)
Theorem Diff_nan_reported fuel a b fd x y :
  Message_wf a = true → Message_wf b = true → Message_sameType a b = true →
  (Message_depth b ≤ fuel)%nat →
  (fd, VScalar x) ∈ Message_fields a → (fd, VScalar y) ∈ Message_fields b →
  Scalar_isNaN y = true →
  ∃ d, Diff formatFloat rangeOrder fuel a b = Done (d, true) ∧
       d !! Name fd = Some (IScalar y).
Proof.
  intros Hwa Hwb Hty Hdepth Hina Hinb Hnan.
  destruct fuel as [|n]; [destruct b; cbn in Hdepth; lia|].
  assert (fd ∈ Descriptor_Fields b) as Hfd.
  { apply list_elem_of_fmap. by exists (fd, VScalar y). }
  destruct (Diff_lookup formatFloat rangeOrder rangeOrder_perm n a b fd)
    as (d & changed & w & HD & Hact & Hlook); try done.
  unfold fieldAct in Hact.
  rewrite (Message_Get_unique b fd (VScalar y)) in Hact
    by (try apply Message_wf_NoDup; done).
  rewrite (Message_Get_unique a fd (VScalar x)) in Hact
    by (try apply Message_wf_NoDup; done).
  pose proof (Message_wf_field b fd _ Hwb Hinb) as Hcard. cbn in Hcard.
  apply negb_true_iff in Hcard. cbn [obind] in Hact. rewrite Hcard in Hact.
  assert (diffField formatFloat rangeOrder n fd (VScalar x) (VScalar y) =
          Done (IScalar y, true)) as Hdf.
  { unfold diffField, diffField_. cbn. rewrite (Scalar_DeepEqual_nan x y Hnan).
    by destruct (bool_decide (Kind fd = MessageKind)). }
  rewrite Hdf in Hact. cbn in Hact. injection Hact as <-. cbn in Hlook.
  exists d. split; [|done].
  assert (Done (d, changed) =
          Done (list_to_map (reverse (DiffWrites formatFloat rangeOrder n a b)),
                bool_decide (0 < length (DiffWrites formatFloat rangeOrder n a b))))
    as Hwrites.
  { rewrite <- HD. apply Diff_writes. intros. apply fieldAct_total; auto using Diff_total. }
  injection Hwrites as Hd Hc. rewrite HD. do 2 f_equal. rewrite Hc. apply writes_changed. rewrite <- Hd.
  intros Hempty. by rewrite Hempty, lookup_empty in Hlook.
Qed.

(** X16: appending one element to a list field whose elements hold no
    NaN is reported as exactly one added index: the entry of the field
    is the one-entry map from ["+n"], [n] the old length, to the stored
    element; with the two messages swapped, dropping the last element is
    reported as exactly the removed index ["-n"]. *)
Theorem Diff_list_append n a b fd lo v :
  Message_wf a = true → Message_wf b = true → Message_sameType a b = true →
  (Message_depth a ≤ S n)%nat → (Message_depth b ≤ S n)%nat →
  (fd, VList lo) ∈ Message_fields a → (fd, VList (lo ++ [v])) ∈ Message_fields b →
  Value_nanFree (VList lo) = true →
  (∃ d, Diff formatFloat rangeOrder (S n) a b = Done (d, true) ∧
        d !! Name fd =
        Some (IMap {["+" +:+ Itoa (Z.of_nat (length lo)) := stored formatFloat v]})) ∧
  (∃ d, Diff formatFloat rangeOrder (S n) b a = Done (d, true) ∧
        d !! Name fd =
        Some (IMap {["-" +:+ Itoa (Z.of_nat (length lo)) := stored formatFloat v]})).
Proof.
  intros Hwa Hwb Hty Hda Hdb Hina Hinb Hnan.
  pose proof (Message_sameType_sym (S n) a b Hwa Hwb Hda Hty) as Hty'.
  pose proof (Message_wf_field a fd _ Hwa Hina) as Hva.
  pose proof (Message_wf_field b fd _ Hwb Hinb) as Hvb.
  assert (bool_decide (Cardinality fd = Repeated) = true) as Hcard.
  { cbn in Hvb. apply andb_true_iff in Hvb as [Hc _].
    by apply negb_true_iff, negb_false_iff in Hc. }
  rewrite Hcard in Hva, Hvb. cbn [negb] in Hva, Hvb.
  assert (isElem v = true) as Hv.
  { apply (Value_wf_elem fd), (Value_wf_list fd (lo ++ [v])); [done|].
    apply elem_of_app. right. left. }
  destruct (mapDiff_append formatFloat rangeOrder rangeOrder_perm n fd lo v)
    as [Hadd Hrem]; [|done|].
  { intros o Ho. split_and!.
    - by apply (Value_wf_list fd lo).
    - by apply (Value_nanFree_list lo).
    - pose proof (Value_depth_list lo o Ho).
      destruct a as [na fs]. pose proof (Value_depth_field na fs fd _ Hina). lia. }
  split.
  - apply Diff_entry; try done.
    { apply list_elem_of_fmap. by exists (fd, VList (lo ++ [v])). }
    unfold fieldAct.
    rewrite (Message_Get_unique b fd (VList (lo ++ [v]))) by (try apply Message_wf_NoDup; done).
    rewrite (Message_Get_unique a fd (VList lo)) by (try apply Message_wf_NoDup; done).
    cbn [obind fieldMaps]. rewrite Hcard. cbn [obind]. by rewrite Hadd.
  - apply Diff_entry; try done.
    { apply list_elem_of_fmap. by exists (fd, VList lo). }
    unfold fieldAct.
    rewrite (Message_Get_unique a fd (VList lo)) by (try apply Message_wf_NoDup; done).
    rewrite (Message_Get_unique b fd (VList (lo ++ [v]))) by (try apply Message_wf_NoDup; done).
    cbn [obind fieldMaps]. rewrite Hcard. cbn [obind]. by rewrite Hrem.
Qed.

(** X17: the string of a bool or of an unsigned integer never begins
    with ["+"] or ["-"], so for a map field keyed by bool or by an
    unsigned integer type no key of the old map is spelled like a
    marker: the two string-keyed maps never collide. *)
Theorem unsigned_keys_no_collision lo ln :
  (∀ k v, (k, v) ∈ lo → isUnsignedKey k = true) →
  no_collision (rangeToMap formatFloat lo) (rangeToMap formatFloat ln).
Proof.
  intros Hkeys k k' [o (key & Hin & ->)%rangeToMap_elem] _.
  pose proof (unsigned_key_plain formatFloat key (Hkeys key o Hin)) as Hplain.
  split; intros _ _; by apply plainKey_not_marker.
Qed.

(** X18: reporting no change is transitive: when [Diff(a, b)] and
    [Diff(b, c)] both return the empty mapping and no change, so does
    [Diff(a, c)]. *)
Theorem Diff_unchanged_transitive fuel a b c :
  Diff formatFloat rangeOrder fuel a b = Done (∅, false) →
  Diff formatFloat rangeOrder fuel b c = Done (∅, false) →
  Diff formatFloat rangeOrder fuel a c = Done (∅, false).
Proof. by apply Diff_unchanged_trans. Qed.

(** X19: [mapDiff] reports no change exactly when the two maps have the
    same keys and [diffField] reports no change under each key; the
    mapping it then returns is empty. *)
Theorem mapDiff_unchanged_iff fuel fd originMap targetMap :
  mapDiff formatFloat rangeOrder fuel fd originMap targetMap = Done (IMap ∅, false) ↔
  (∀ k v, targetMap !! k = Some v →
     ∃ o y, originMap !! k = Some o ∧
            diffField formatFloat rangeOrder fuel fd o v = Done (y, false)) ∧
  (∀ k o, originMap !! k = Some o → is_Some (targetMap !! k)).
Proof.
  unfold mapDiff.
  rewrite <- (mapDiff_unchanged formatFloat rangeOrder rangeOrder_perm). split.
  - intros H. by eexists.
  - intros [x Hx]. rewrite Hx.
    apply mapDiff_inv in Hx as (_ & _ & [= -> HW%unchanged_writes]). by rewrite HW.
Qed.

End differ_further.

Section differ_order.
Variable formatFloat : nat → spec_float → string.
Variables rangeOrder rangeOrder' : list (string * Value) → list (string * Value).
Hypothesis rangeOrder_perm : ∀ l, rangeOrder l ≡ₚ l.
Hypothesis rangeOrder_perm' : ∀ l, rangeOrder' l ≡ₚ l.

(** X6: Go visits the entries of a map in an order of its own choosing,
    and [mapDiff] ranges over two maps; for messages none of whose map
    keys begins with ["+"] or ["-"] the result of [Diff] is the same for
    every order. *)
Theorem Diff_order_independent fuel a b :
  Message_wf a = true → Message_wf b = true → Message_sameType a b = true →
  (Message_depth b ≤ fuel)%nat →
  Message_plainKeys formatFloat a = true → Message_plainKeys formatFloat b = true →
  Diff formatFloat rangeOrder fuel a b = Diff formatFloat rangeOrder' fuel a b.
Proof.
  revert a b. induction fuel as [|n IH]; intros a b Hwa Hwb Hty Hdepth Hpa Hpb; [done|].
  rewrite !Diff_unfold.
  rewrite (forEach_ext _ (Diff_field formatFloat (mapDiff formatFloat rangeOrder' n)
                            (diffField formatFloat rangeOrder' n) a b)); [done|].
  intros st fd Hfd. rewrite !Diff_field_act.
  by rewrite (fieldAct_order formatFloat rangeOrder rangeOrder'
                rangeOrder_perm rangeOrder_perm' n a b fd).
Qed.

End differ_order.

(** ** The trace stage *)

Section trace_further.
Variable protoEqual : option Message → Message → bool.
Variable cmpDiff : option Message → Message → string.

(** X14: [logResponse] replaces the stored response, by a clone of the
    incoming one, only when the two are not proto-equal, and leaves the
    stored request as it is; a call with a response equal to the stored
    one logs nothing and changes nothing; hence, a response being equal
    to its clone, a second call with the same response logs nothing and
    changes nothing. *)
Theorem logResponse_idempotent ctx response :
  protoEqual (Some (protoClone response)) response = true →
  (∀ connInfo, ctx = Some connInfo →
     protoEqual (Response connInfo) response = true →
     logResponse protoEqual cmpDiff ctx response = (ctx, [])) ∧
  (∀ connInfo, ctx = Some connInfo →
     protoEqual (Response connInfo) response = false →
     (logResponse protoEqual cmpDiff ctx response).1 =
     Some {| Request := Request connInfo; Response := Some (protoClone response) |}) ∧
  logResponse protoEqual cmpDiff (logResponse protoEqual cmpDiff ctx response).1 response
  = ((logResponse protoEqual cmpDiff ctx response).1, []).
Proof.
  intros Hclone. split_and!.
  - intros connInfo -> Heq. unfold logResponse. by rewrite Heq.
  - intros connInfo -> Hne. unfold logResponse. by rewrite Hne.
  - destruct ctx as [connInfo|]; [|done]. unfold logResponse at 2 3.
    destruct (protoEqual (Response connInfo) response) eqn:Heq; cbn [negb fst].
    + unfold logResponse. by rewrite Heq.
    + unfold logResponse. cbn [Response]. by rewrite Hclone.
Qed.

(** X15: [logRequest] never touches the stored response and
    [logResponse] never touches the stored request, so the record left
    by the two calls does not depend on their order. *)
Theorem log_stages_commute ctx request response :
  Response <$> (logRequest protoEqual cmpDiff ctx request).1 = Response <$> ctx ∧
  Request <$> (logResponse protoEqual cmpDiff ctx response).1 = Request <$> ctx ∧
  (logResponse protoEqual cmpDiff (logRequest protoEqual cmpDiff ctx request).1 response).1 =
  (logRequest protoEqual cmpDiff (logResponse protoEqual cmpDiff ctx response).1 request).1.
Proof.
  destruct ctx as [[stored answered]|]; [|done].
  unfold logRequest, logResponse. cbn [Request Response].
  destruct (protoEqual stored request) eqn:Hrq, (protoEqual answered response) eqn:Hrs;
    cbn [negb fst Request Response fmap option_fmap option_map]; rewrite ?Hrq, ?Hrs; done.
Qed.

End trace_further.

(** ** The properties on the worked inputs *)

Lemma rangeToMap_lookup_witness :
  rangeToMap formatSpecials signedKeys !! "-1" = Some (str "x") ∧
  size (rangeToMap formatSpecials signedKeys) = 2%nat.
Proof.
  destruct (rangeToMap_lookup formatSpecials signedKeys) as (Hlook & _ & Hsize).
  - apply NoDup_cons. split; [|apply NoDup_singleton].
    intros Hin. apply list_elem_of_singleton in Hin. discriminate Hin.
  - intros k Hk. apply elem_of_cons in Hk as [->|Hk]; [reflexivity|].
    apply list_elem_of_singleton in Hk as ->. reflexivity.
  - intros k k' Hk Hk'.
    apply elem_of_cons in Hk as [->|Hk], Hk' as [->|Hk'];
      try apply list_elem_of_singleton in Hk as ->;
      try apply list_elem_of_singleton in Hk' as ->; reflexivity.
  - split; [|exact Hsize]. apply (Hlook (SInt32 (-1)) (str "x")). left.
Defined.

Lemma mapDiff_removed_always_witness :
  ∃ r changed,
    mapDiff formatSpecials inOrder 0 labelsField signedOld signedNew
    = Done (IMap r, changed) ∧
    r !! "-1" = Some (IString "w").
Proof.
  destruct (mapDiff_removed_always formatSpecials inOrder inOrder_perm 0 labelsField
              signedOld signedNew)
    as (r & changed & Hmd & _ & Hrem & _).
  - apply (map_values_forallb _ (Value_wf labelsField true)). vm_compute. reflexivity.
  - apply map_target_forallb. vm_compute. reflexivity.
  - apply (map_common_forallb _ _ Value_sameType). vm_compute. reflexivity.
  - exists r, changed. split; [exact Hmd|].
    exact (Hrem "1" (str "w") ltac:(vm_compute; reflexivity) ltac:(vm_compute; reflexivity)).
Defined.

Lemma mapDiff_against_empty_witness :
  ∃ r changed,
    mapDiff formatSpecials inOrder 0 labelsField ∅ newLabels = Done (IMap r, changed) ∧
    r !! "+node" = Some (IString "n1").
Proof.
  destruct (mapDiff_against_empty formatSpecials inOrder inOrder_perm 0 labelsField newLabels)
    as [(r & changed & Hmd & _ & Hadd & _) _].
  - apply (map_values_forallb _ isElem). vm_compute. reflexivity.
  - exists r, changed. split; [exact Hmd|].
    refine (eq_trans (Hadd "node") _). vm_compute. reflexivity.
Defined.

Lemma Diff_order_independent_witness :
  Diff formatSpecials inOrder 2 sampleConnection relabelledConnection =
  Diff formatSpecials backwards 2 sampleConnection relabelledConnection.
Proof.
  apply (Diff_order_independent formatSpecials inOrder backwards inOrder_perm backwards_perm
           2 sampleConnection relabelledConnection).
  - reflexivity.
  - reflexivity.
  - reflexivity.
  - vm_compute. lia.
  - reflexivity.
  - reflexivity.
Defined.

Lemma Diff_entries_shape_witness :
  (∃ fd, fd ∈ Descriptor_Fields renamedConnection ∧ "id" = Name fd) ∧
  isEntry (IScalar (SString "conn-2")).
Proof.
  apply (Diff_entries_shape formatSpecials inOrder 2 sampleConnection renamedConnection
           {["id" := IScalar (SString "conn-2")]} true).
  - vm_compute. reflexivity.
  - vm_compute. reflexivity.
Defined.

Lemma Diff_field_local_witness :
  ∃ d changed d' changed',
    Diff formatSpecials inOrder 2 sampleConnection renamedConnection = Done (d, changed) ∧
    Diff formatSpecials inOrder 2 relabelledConnection movedConnection = Done (d', changed') ∧
    d !! "id" = d' !! "id".
Proof.
  apply (Diff_field_local formatSpecials inOrder inOrder_perm 1
           sampleConnection renamedConnection relabelledConnection movedConnection
           (scalarField "id" StringKind)).
  - reflexivity.
  - reflexivity.
  - reflexivity.
  - vm_compute. lia.
  - reflexivity.
  - reflexivity.
  - reflexivity.
  - vm_compute. lia.
  - left.
  - left.
  - reflexivity.
  - reflexivity.
Defined.

Lemma Diff_message_field_witness :
  ∃ d changed d' changed',
    Diff formatSpecials inOrder 3 sampleRequest renamedRequest = Done (d, changed) ∧
    Diff formatSpecials inOrder 2 sampleConnection renamedConnection = Done (d', changed') ∧
    d !! "connection" = (if changed' then Some (IMap d') else None).
Proof.
  apply (Diff_message_field formatSpecials inOrder inOrder_perm 2
           sampleRequest renamedRequest (scalarField "connection" MessageKind)
           sampleConnection renamedConnection).
  - reflexivity.
  - reflexivity.
  - reflexivity.
  - vm_compute. lia.
  - left.
  - left.
Defined.

Lemma Diff_map_field_witness :
  ∃ d changed r,
    Diff formatSpecials inOrder 2 sampleConnection relabelledConnection = Done (d, changed) ∧
    d !! "labels" = Some (IMap r) ∧
    r !! "zone" = Some (IScalar (SString "b")).
Proof.
  destruct (Diff_map_field formatSpecials inOrder inOrder_perm 1
              sampleConnection relabelledConnection labelsField
              [(SString "app", str "firewall"); (SString "zone", str "a")]
              [(SString "app", str "firewall"); (SString "zone", str "b")])
    as (d & changed & r & HD & Hsome & _ & _ & _ & Hcommon & _).
  - reflexivity.
  - reflexivity.
  - reflexivity.
  - vm_compute. lia.
  - right. right. left.
  - right. right. left.
  - apply no_collisionb_sound. vm_compute. reflexivity.
  - exists d, changed, r.
    pose proof (Hcommon "zone" (str "a") (str "b")
                  ltac:(vm_compute; reflexivity) ltac:(vm_compute; reflexivity)) as Hzone.
    assert (r ≠ ∅) as Hne.
    { intros Hr. rewrite Hr, lookup_empty in Hzone. discriminate Hzone. }
    split; [exact HD|]. split; [exact (Hsome Hne)|exact Hzone].
Defined.


Lemma Diff_changed_symmetric_witness :
  ∃ d d' changed,
    Diff formatSpecials inOrder 2 sampleConnection renamedConnection = Done (d, changed) ∧
    Diff formatSpecials inOrder 2 renamedConnection sampleConnection = Done (d', changed).
Proof.
  apply (Diff_changed_symmetric formatSpecials inOrder inOrder_perm 2
           sampleConnection renamedConnection).
  - reflexivity.
  - reflexivity.
  - reflexivity.
  - vm_compute. lia.
  - vm_compute. lia.
Defined.

Lemma Diff_nan_reported_witness :
  ∃ d, Diff formatSpecials inOrder 1 nanMessage nanMessage = Done (d, true) ∧
       d !! "ratio" = Some (IScalar (SFloat64 S754_nan)).
Proof.
  apply (Diff_nan_reported formatSpecials inOrder inOrder_perm 1 nanMessage nanMessage
           (scalarField "ratio" DoubleKind) (SFloat64 S754_nan) (SFloat64 S754_nan)).
  - reflexivity.
  - reflexivity.
  - reflexivity.
  - vm_compute. lia.
  - left.
  - left.
  - reflexivity.
Defined.

Lemma logResponse_idempotent_witness :
  let ctx := Some {| Request := Some sampleRequest; Response := None |} in
  logResponse diffEqual diffText
    (logResponse diffEqual diffText ctx sampleConnection).1 sampleConnection
  = ((logResponse diffEqual diffText ctx sampleConnection).1, []).
Proof.
  cbv zeta.
  apply (logResponse_idempotent diffEqual diffText
           (Some {| Request := Some sampleRequest; Response := None |}) sampleConnection).
  vm_compute. reflexivity.
Defined.

Lemma Diff_list_append_witness :
  (∃ d, Diff formatSpecials inOrder 1
          (pathMessage 0 ["a"; "b"] (S754_zero false))
          (pathMessage 0 ["a"; "b"; "c"] (S754_zero false)) = Done (d, true) ∧
        d !! "names" = Some (IMap {["+2" := IString "c"]})) ∧
  (∃ d, Diff formatSpecials inOrder 1
          (pathMessage 0 ["a"; "b"; "c"] (S754_zero false))
          (pathMessage 0 ["a"; "b"] (S754_zero false)) = Done (d, true) ∧
        d !! "names" = Some (IMap {["-2" := IString "c"]})).
Proof.
  destruct (Diff_list_append formatSpecials inOrder inOrder_perm 0
              (pathMessage 0 ["a"; "b"] (S754_zero false))
              (pathMessage 0 ["a"; "b"; "c"] (S754_zero false))
              namesField (str <$> ["a"; "b"]) (str "c"))
    as [(d & HD & Hd) (d' & HD' & Hd')].
  - reflexivity.
  - reflexivity.
  - reflexivity.
  - vm_compute. lia.
  - vm_compute. lia.
  - right. left.
  - right. left.
  - reflexivity.
  - split.
    + exists d. split; [exact HD|]. refine (eq_trans Hd _). vm_compute. reflexivity.
    + exists d'. split; [exact HD'|]. refine (eq_trans Hd' _). vm_compute. reflexivity.
Defined.

Lemma unsigned_keys_no_collision_witness :
  no_collision (rangeToMap formatSpecials [(SUint32 1, str "a"); (SUint32 2, str "b")])
               (rangeToMap formatSpecials [(SUint32 2, str "c")]).
Proof.
  apply (unsigned_keys_no_collision formatSpecials
           [(SUint32 1, str "a"); (SUint32 2, str "b")] [(SUint32 2, str "c")]).
  intros k v Hin. apply elem_of_cons in Hin as [Heq|Hin].
  - injection Heq as -> _. reflexivity.
  - apply list_elem_of_singleton in Hin. injection Hin as -> _. reflexivity.
Defined.

Lemma Diff_unchanged_transitive_witness :
  Diff formatSpecials inOrder 1
    (pathMessage 0 ["nsc"] (S754_zero false)) (pathMessage 0 ["nsc"] (S754_zero false))
  = Done (∅, false).
Proof.
  apply (Diff_unchanged_transitive formatSpecials inOrder inOrder_perm 1
           (pathMessage 0 ["nsc"] (S754_zero false))
           (pathMessage 0 ["nsc"] (S754_zero true))
           (pathMessage 0 ["nsc"] (S754_zero false))).
  - vm_compute. reflexivity.
  - vm_compute. reflexivity.
Defined.

Lemma mapDiff_unchanged_iff_witness :
  ∃ o y, oldLabels !! "zone" = Some o ∧
         diffField formatSpecials inOrder 0 labelsField o (str "a") = Done (y, false).
Proof.
  destruct (proj1 (mapDiff_unchanged_iff formatSpecials inOrder inOrder_perm 0 labelsField
                     oldLabels oldLabels)) as [Hcommon _].
  - vm_compute. reflexivity.
  - apply (Hcommon "zone" (str "a")). vm_compute. reflexivity.
Defined.
